(** * Olive [SplitModel] pass: partition assignment and sub-graph materialization

    A shallow embedding of [SplitModel._run_for_config]
    (olive/passes/onnx/split.py).  Python dictionaries keyed by node or
    tensor name are finite maps, the [OnnxDAG] queries the pass relies on
    are the fields of a record, exceptions are an explicit result type, and
    the two outward effects of the pass (the shape-inference call and the
    serialization of each split) are logged in an event trace. *)

From Stdlib Require Import ZArith String Ascii List Bool Lia.
From stdpp Require Import gmap strings list fin_maps pretty.

Open Scope string_scope.
Open Scope list_scope.
Open Scope Z_scope.

(** ** Python exceptions *)

Inductive py_error : Type :=
  | KeyError
  | IndexError
  | ValueError
  | TypeError.

Inductive result (A : Type) : Type :=
  | Ok (a : A)
  | Raise (e : py_error).

Arguments Ok {A} a.
Arguments Raise {A} e.

Definition bind {A B : Type} (r : result A) (k : A -> result B) : result B :=
  match r with
  | Ok a => k a
  | Raise e => Raise e
  end.

Notation "'let*' x ':=' r 'in' k" := (bind r (fun x => k))
  (at level 10, x name, r at level 100, k at level 200).

Definition is_ok {A : Type} (r : result A) : bool :=
  match r with Ok _ => true | Raise _ => false end.

(** A [for] loop whose body may raise: the first exception ends the loop. *)
Fixpoint foldM {S A : Type} (f : S -> A -> result S) (l : list A) (s : S)
  : result S :=
  match l with
  | [] => Ok s
  | x :: l' =>
      match f s x with
      | Ok s' => foldM f l' s'
      | Raise e => Raise e
      end
  end.

(** ** Python sequences *)

(** [l[i]]: negative indices count from the end, anything else outside the
    list raises [IndexError]. *)
Definition py_norm (len : nat) (i : Z) : option nat :=
  let n := Z.of_nat len in
  let j := if i <? 0 then i + n else i in
  if (0 <=? j) && (j <? n) then Some (Z.to_nat j) else None.

Definition py_index {A : Type} (l : list A) (i : Z) : result A :=
  match py_norm (length l) i with
  | Some j =>
      match l !! j with
      | Some x => Ok x
      | None => Raise IndexError
      end
  | None => Raise IndexError
  end.

(** [min(x :: l)] and [max(x :: l)] on a non-empty list of integers. *)
Definition py_min (x : Z) (l : list Z) : Z := fold_left Z.min l x.
Definition py_max (x : Z) (l : list Z) : Z := fold_left Z.max l x.

(** ** Python strings: the four methods the namespace computation uses *)

Module PyStr.

(** [s.replace(a, b)] for one-character [a] and [b]. *)
Fixpoint replace (a b : ascii) (s : string) : string :=
  match s with
  | EmptyString => EmptyString
  | String c s' => String (if Ascii.eqb c a then b else c) (replace a b s')
  end.

(** [s.lstrip(a)] for a one-character [a]. *)
Fixpoint lstrip (a : ascii) (s : string) : string :=
  match s with
  | EmptyString => EmptyString
  | String c s' => if Ascii.eqb c a then lstrip a s' else s
  end.

(** [s.split(sep)] for a one-character [sep]: never empty, and two
    adjacent separators enclose an empty component. *)
Fixpoint split (sep : ascii) (s : string) : list string :=
  match s with
  | EmptyString => [EmptyString]
  | String c s' =>
      if Ascii.eqb c sep then EmptyString :: split sep s'
      else
        match split sep s' with
        | [] => [String c EmptyString]
        | w :: ws => String c w :: ws
        end
  end.

(** [sep.join(l)]. *)
Fixpoint join (sep : ascii) (l : list string) : string :=
  match l with
  | [] => EmptyString
  | [w] => w
  | w :: ws => String.append w (String sep (join sep ws))
  end.

(** [sep not in s] *)
Fixpoint sep_free (sep : ascii) (s : string) : bool :=
  match s with
  | EmptyString => true
  | String c s' => negb (Ascii.eqb c sep) && sep_free sep s'
  end.

End PyStr.

Definition dot : ascii := "."%char.
Definition slash : ascii := "/"%char.

(** [len(key.split("."))] *)
Definition key_depth (key : string) : nat := length (PyStr.split dot key).

(** Lines 85-86:
    [name_components = node_name.replace("/", ".").lstrip(".").split(".")]
    [namespace = ".".join(name_components[:namespace_depth])] *)
Definition name_components (node_name : string) : list string :=
  PyStr.split dot (PyStr.lstrip dot (PyStr.replace slash dot node_name)).

Definition namespace_of (namespace_depth : nat) (node_name : string) : string :=
  PyStr.join dot (take namespace_depth (name_components node_name)).

(** ** The split assignment map

    A Python [dict] in insertion order: the keys are pairwise distinct and
    [next(iter(d))] is the key inserted first. *)

Definition split_map : Type := list (string * Z).

Fixpoint dict_get (d : split_map) (key : string) : option Z :=
  match d with
  | [] => None
  | (k, v) :: d' => if String.eqb k key then Some v else dict_get d' key
  end.

(** Line 60: [num_splits = len(np.unique(list(split_assignments.values())))] *)
Definition num_splits (split_assignments : split_map) : nat :=
  length (remove_dups (map snd split_assignments)).

(** Line 61: [namespace_depth = len(next(iter(split_assignments)).split("."))];
    the map is known to be non-empty at this point (line 55). *)
Definition namespace_depth (split_assignments : split_map) : result nat :=
  match split_assignments with
  | [] => Raise ValueError
  | (key, _) :: _ => Ok (key_depth key)
  end.

(** The assumption stated at lines 58-59: all keys have the same depth. *)
Definition uniform_depth (split_assignments : split_map) : Prop :=
  ∀ k k', k ∈ split_assignments.*1 -> k' ∈ split_assignments.*1 ->
          key_depth k = key_depth k'.

(** ** Protos *)

(** A [ValueInfoProto] (a tensor name with an optional type and shape, kept
    opaque) or a [TensorProto] (the data of an initializer, kept opaque). *)
Inductive proto : Type :=
  | ValueInfoProto (name : string) (type : option string)
  | TensorProto (name : string) (raw : string).

Definition proto_name (p : proto) : string :=
  match p with
  | ValueInfoProto n _ => n
  | TensorProto n _ => n
  end.

(** [onnx.helper.make_empty_tensor_value_info(name)] *)
Definition make_empty_tensor_value_info (name : string) : proto :=
  ValueInfoProto name None.

Record NodeProto : Type := {
  np_name : string;
  np_op_type : string;
  np_input : list string;
  np_output : list string;
  np_attribute : string
}.

Global Instance proto_eq_dec : EqDecision proto.
Proof. solve_decision. Defined.

Global Instance NodeProto_eq_dec : EqDecision NodeProto.
Proof. solve_decision. Defined.

(** ** The queries of [OnnxDAG] that the pass reads

    The class itself lives in olive/passes/onnx/onnx_dag.py; the pass only
    sees it through these methods, so they are the fields of an interface
    record.  [get_consumers] and [get_parents] take the flag that asks for
    the special markers (graph output, graph input, initializer) as well. *)
Record OnnxDAG : Type := {
  topological_sort : list string;
  get_node_op_type : string -> string;
  get_consumers : string -> bool -> list string;
  get_parents : string -> bool -> list string;
  get_node_inputs : string -> list string;
  get_node_outputs : string -> list string;
  get_node_proto : string -> NodeProto;
  is_constant_input : string -> bool;
  is_input_consumer : string -> bool;
  is_output_producer : string -> bool;
  is_input : string -> bool;
  is_initializer : string -> bool;
  (** [get_io(name).proto], a list of at most two protos *)
  get_io_proto : string -> list proto
}.

(** ** Partition assignment (lines 75-185) *)

(** The value stored for a node in [node_assignments]: an [int], or the
    [list] built for a replicated constant. *)
Inductive split_id : Type :=
  | Single (p : Z)
  | Multi (ps : list Z).

Global Instance split_id_eq_dec : EqDecision split_id.
Proof. solve_decision. Defined.

Section Assignment.

Variable dag : OnnxDAG.
Variable split_assignments : split_map.

Definition is_constant_node (node_name : string) : bool :=
  String.eqb (get_node_op_type dag node_name) "Constant".

(** Lines 77-88, loop body. *)
Definition direct_step (depth : nat) (st : gmap string Z * gset string)
    (node_name : string) : gmap string Z * gset string :=
  let '(node_assignments, constant_nodes) := st in
  if is_constant_node node_name then
    (node_assignments, {[node_name]} ∪ constant_nodes)
  else
    match dict_get split_assignments (namespace_of depth node_name) with
    | Some p => (<[node_name := p]> node_assignments, constant_nodes)
    | None => (node_assignments, constant_nodes)
    end.

Definition direct_pass (depth : nat) (node_order : list string)
  : gmap string Z * gset string :=
  fold_left (direct_step depth) node_order (∅, ∅).

Section Propagation.

Variable constant_nodes : gset string.

(** [node_name in node_assignments or node_name in constant_nodes] *)
Definition skipped (node_assignments : gmap string Z) (node_name : string)
  : bool :=
  bool_decide (is_Some (node_assignments !! node_name))
  || bool_decide (node_name ∈ constant_nodes).

(** Lines 98-102: the comprehension reads [next_split[child_name]] for
    every consumer, a [KeyError] when the consumer has no entry. *)
Definition child_splits (next_split : gmap string (option Z))
    (node_name : string) : result (list Z) :=
  foldM (fun acc child_name =>
           match next_split !! child_name with
           | None => Raise KeyError
           | Some None => Ok acc
           | Some (Some p) => Ok (acc ++ [p])
           end)
        (get_consumers dag node_name false) [].

(** Lines 93-106, loop body. *)
Definition next_split_step (node_assignments : gmap string Z)
    (next_split : gmap string (option Z)) (node_name : string)
  : result (gmap string (option Z)) :=
  if skipped node_assignments node_name then Ok next_split
  else
    let* cs := child_splits next_split node_name in
    match cs with
    | p :: ps => Ok (<[node_name := Some (py_min p ps)]> next_split)
    | [] => Ok (<[node_name := None]> next_split)
    end.

(** Lines 91-106: seeded with a copy of the direct assignments, then
    bottom-up over the reversed topological order. *)
Definition next_split_pass (node_assignments : gmap string Z)
    (node_order : list string) : result (gmap string (option Z)) :=
  foldM (next_split_step node_assignments) (rev node_order)
        (Some <$> node_assignments).

(** Lines 114-118 and 143-147. *)
Definition parent_splits (node_assignments : gmap string Z)
    (node_name : string) : list Z :=
  omap (fun parent_name => node_assignments !! parent_name)
       (get_parents dag node_name false).

(** Lines 109-129, loop body. *)
Definition inclusive_step (next_split : gmap string (option Z))
    (node_assignments : gmap string Z) (node_name : string)
  : result (gmap string Z) :=
  if skipped node_assignments node_name then Ok node_assignments
  else
    match parent_splits node_assignments node_name with
    | p :: ps => Ok (<[node_name := py_max p ps]> node_assignments)
    | [] =>
        match next_split !! node_name with
        | None => Raise KeyError
        | Some (Some p) => Ok (<[node_name := p]> node_assignments)
        | Some None => Ok (<[node_name := 0]> node_assignments)
        end
    end.

(** Lines 134-154, loop body. *)
Definition exclusive_step (next_split : gmap string (option Z))
    (node_assignments : gmap string Z) (node_name : string)
  : result (gmap string Z) :=
  if skipped node_assignments node_name then Ok node_assignments
  else
    match next_split !! node_name with
    | None => Raise KeyError
    | Some None => Ok node_assignments
    | Some (Some nxt) =>
        match parent_splits node_assignments node_name with
        | p :: ps => Ok (<[node_name := py_max p ps]> node_assignments)
        | [] =>
            if forallb (is_constant_input dag)
                       (get_node_inputs dag node_name)
            then Ok (<[node_name := nxt]> node_assignments)
            else Ok node_assignments
        end
    end.

End Propagation.

(** Lines 159-176, loop body. *)
Definition cast_step (node_assignments : gmap string Z)
    (node_name : string) : result (gmap string Z) :=
  if bool_decide (is_Some (node_assignments !! node_name))
     || negb (String.eqb (get_node_op_type dag node_name) "Cast")
     || negb (Nat.eqb (length (get_consumers dag node_name true)) 1)
  then Ok node_assignments
  else
    let by_consumer :=
      if is_input_consumer dag node_name then
        let* consumer := py_index (get_consumers dag node_name true) 0 in
        Ok (node_assignments !! consumer)
      else Ok None in
    let* c := by_consumer in
    match c with
    | Some p => Ok (<[node_name := p]> node_assignments)
    | None =>
        let* parent_name := py_index (get_parents dag node_name true) 0 in
        match node_assignments !! parent_name with
        | Some p =>
            if is_output_producer dag node_name
            then Ok (<[node_name := p]> node_assignments)
            else Ok node_assignments
        | None => Ok node_assignments
        end
    end.

(** Lines 180-183: [splits] is a Python set, kept here as a
    duplicate-free list in insertion order (the order of [list(splits)] is
    not specified, and nothing below depends on it); adding a [list] value
    to it is a [TypeError]. *)
Definition consumer_splits (node_assignments : gmap string split_id)
    (node_name : string) : result (list Z) :=
  foldM (fun splits consumer =>
           match node_assignments !! consumer with
           | None => Ok splits
           | Some (Single p) =>
               Ok (if bool_decide (p ∈ splits) then splits else splits ++ [p])
           | Some (Multi _) => Raise TypeError
           end)
        (get_consumers dag node_name false) [].

(** Lines 179-185, loop body. *)
Definition constant_step (node_assignments : gmap string split_id)
    (node_name : string) : result (gmap string split_id) :=
  let* splits := consumer_splits node_assignments node_name in
  match splits with
  | [] => Ok node_assignments
  | _ :: _ => Ok (<[node_name := Multi splits]> node_assignments)
  end.

(** Lines 60-106: the depth, the direct assignments, the constant nodes
    and the next-split map. *)
Definition prepare
  : result (gmap string Z * gset string * gmap string (option Z)) :=
  let* depth := namespace_depth split_assignments in
  let node_order := topological_sort dag in
  let st := direct_pass depth node_order in
  let* next_split := next_split_pass st.2 st.1 node_order in
  Ok (st.1, st.2, next_split).

(** Lines 109-129. *)
Definition inclusive_pass (constant_nodes : gset string)
    (next_split : gmap string (option Z)) (node_assignments : gmap string Z)
    (node_order : list string) : result (gmap string Z) :=
  foldM (inclusive_step constant_nodes next_split) node_order
        node_assignments.

(** Lines 134-154. *)
Definition exclusive_pass (constant_nodes : gset string)
    (next_split : gmap string (option Z)) (node_assignments : gmap string Z)
    (node_order : list string) : result (gmap string Z) :=
  foldM (exclusive_step constant_nodes next_split) node_order
        node_assignments.

(** Lines 159-176. *)
Definition cast_pass (node_assignments : gmap string Z)
    (node_order : list string) : result (gmap string Z) :=
  foldM cast_step node_order node_assignments.

(** Lines 108-176: the policy passes, selected by [include_all_nodes]. *)
Definition policy_pass (include_all_nodes : bool)
    (constant_nodes : gset string) (next_split : gmap string (option Z))
    (node_assignments : gmap string Z) (node_order : list string)
  : result (gmap string Z) :=
  if include_all_nodes then
    inclusive_pass constant_nodes next_split node_assignments node_order
  else
    let* na := exclusive_pass constant_nodes next_split node_assignments
                              node_order in
    cast_pass na node_order.

(** Lines 179-185.  [order] is the order in which the Python set
    [constant_nodes] happens to be iterated. *)
Definition constant_pass (order : list string)
    (node_assignments : gmap string Z) : result (gmap string split_id) :=
  foldM constant_step order (Single <$> node_assignments).

(** Lines 60-185.  The iteration order of a Python set is not specified;
    [elements] fixes one. *)
Definition assign_nodes (include_all_nodes : bool)
  : result (gmap string split_id) :=
  let* pre := prepare in
  let* na := policy_pass include_all_nodes pre.1.2 pre.2 pre.1.1
                         (topological_sort dag) in
  constant_pass (elements pre.1.2) na.

(** What the pass assumes of the graph: node names are unique, the proto
    of a node carries its name, every consumer of a node comes later in
    the topological order and is not a [Constant] (a [Constant] has no
    inputs), and a [Cast] has an input. *)
Fixpoint consumers_later (node_order : list string) : bool :=
  match node_order with
  | [] => true
  | node_name :: rest =>
      forallb (fun c => bool_decide (c ∈ rest) && negb (is_constant_node c))
              (get_consumers dag node_name false)
      && consumers_later rest
  end.

Definition well_formed : bool :=
  bool_decide (NoDup (topological_sort dag))
  && forallb (fun n => String.eqb (np_name (get_node_proto dag n)) n)
             (topological_sort dag)
  && consumers_later (topological_sort dag)
  && forallb (fun n => negb (String.eqb (get_node_op_type dag n) "Cast")
                       || negb (Nat.eqb (length (get_parents dag n true)) 0))
             (topological_sort dag).

(** Section 3 of the spec: the partitions used are [0 .. num_splits-1]. *)
Definition indices_in_range : bool :=
  forallb (fun kv => (0 <=? kv.2)
                     && (kv.2 <? Z.of_nat (num_splits split_assignments)))
          split_assignments.

(** A graph input or initializer read by a node has its proto. *)
Definition protos_present : bool :=
  forallb (fun n =>
             forallb (fun i => negb (is_input dag i || is_initializer dag i)
                               || negb (Nat.eqb (length (get_io_proto dag i)) 0))
                     (get_node_inputs dag n))
          (topological_sort dag).

End Assignment.

(** ** The sub-graph under construction

    The split graphs are [OnnxDAG] objects too, built up through the
    builder methods of the class.  The class (olive/passes/onnx/onnx_dag.py)
    is not part of the sources, so the builder side is taken from section
    4.1 of the spec: [addInput], [addInitializer], [addNode], [addValueInfo]
    and [markOutput] on a separate, fresh graph, each doing nothing when the
    name it refers to is already present. *)

(** Modelled from the spec: the fresh graph the builder operations of the
    absent [OnnxDAG] class work on (section 3: an ordered node list, a named
    input set, an initializer set, an output set and a value-info map).  The
    input facet and the initializer facet of a name are kept independently;
    the value-info map holds the type and shape attached to a tensor name,
    and a placeholder input is one whose entry carries no type. *)
Record SplitDag : Type := {
  sd_input : list string;
  sd_initializer : list proto;
  sd_node : list NodeProto;
  sd_output : list string;
  sd_value_info : gmap string proto
}.

(** Modelled from the spec: the graph of a fresh [OnnxDAG] (line 73). *)
Definition empty_split_dag : SplitDag :=
  {| sd_input := []; sd_initializer := []; sd_node := []; sd_output := [];
     sd_value_info := ∅ |}.

(** Modelled from the spec: the tensor names the nodes of the sub-graph
    produce. *)
Definition produced (sd : SplitDag) : list string :=
  concat (map np_output (sd_node sd)).

(** Modelled from the spec: [is_io] of the absent class, the name is
    present in the sub-graph as an input, an initializer or a node output. *)
Definition is_io (sd : SplitDag) (io_name : string) : bool :=
  bool_decide (io_name ∈ sd_input sd)
  || bool_decide (io_name ∈ map proto_name (sd_initializer sd))
  || bool_decide (io_name ∈ produced sd).

(** Modelled from the spec: [addInput], which declares the name of [p] as
    an input, typed by [p], unless it is one already. *)
Definition add_input (p : proto) (sd : SplitDag) : SplitDag :=
  if bool_decide (proto_name p ∈ sd_input sd) then sd
  else
    {| sd_input := sd_input sd ++ [proto_name p];
       sd_initializer := sd_initializer sd;
       sd_node := sd_node sd;
       sd_output := sd_output sd;
       sd_value_info := <[proto_name p := p]> (sd_value_info sd) |}.

(** Modelled from the spec: [addInitializer], which adds the tensor [p]
    unless the sub-graph has an initializer of that name. *)
Definition add_initializer (p : proto) (sd : SplitDag) : SplitDag :=
  if bool_decide (proto_name p ∈ map proto_name (sd_initializer sd)) then sd
  else
    {| sd_input := sd_input sd;
       sd_initializer := sd_initializer sd ++ [p];
       sd_node := sd_node sd;
       sd_output := sd_output sd;
       sd_value_info := sd_value_info sd |}.

(** Modelled from the spec: [addNode], which appends the node unless the
    sub-graph has a node of that name. *)
Definition add_node (np : NodeProto) (sd : SplitDag) : SplitDag :=
  if bool_decide (np_name np ∈ map np_name (sd_node sd)) then sd
  else
    {| sd_input := sd_input sd;
       sd_initializer := sd_initializer sd;
       sd_node := sd_node sd ++ [np];
       sd_output := sd_output sd;
       sd_value_info := sd_value_info sd |}.

(** Modelled from the spec: [markOutput], idempotent. *)
Definition make_output (io_name : string) (sd : SplitDag) : SplitDag :=
  if bool_decide (io_name ∈ sd_output sd) then sd
  else
    {| sd_input := sd_input sd;
       sd_initializer := sd_initializer sd;
       sd_node := sd_node sd;
       sd_output := sd_output sd ++ [io_name];
       sd_value_info := sd_value_info sd |}.

(** Modelled from the spec: [addValueInfo], which attaches [p] to its name
    when the name has no value-info yet, or in any case with [overwrite]. *)
Definition add_value_info (p : proto) (overwrite : bool) (sd : SplitDag)
  : SplitDag :=
  if overwrite || bool_decide (sd_value_info sd !! proto_name p = None) then
    {| sd_input := sd_input sd;
       sd_initializer := sd_initializer sd;
       sd_node := sd_node sd;
       sd_output := sd_output sd;
       sd_value_info := <[proto_name p := p]> (sd_value_info sd) |}
  else sd.

(** ** Materialization (lines 187-252) *)

(** [split_dags[i] = x] in the sense of mutating the object stored at [i]. *)
Definition py_set {A : Type} (l : list A) (i : Z) (x : A) : list A :=
  match py_norm (length l) i with
  | Some j => <[j := x]> l
  | None => l
  end.

(** [missing_vi], a [defaultdict(list)] in insertion order. *)
Definition missing_map : Type := list (string * list Z).

Fixpoint missing_append (io_name : string) (p : Z) (m : missing_map)
  : missing_map :=
  match m with
  | [] => [(io_name, [p])]
  | (k, ps) :: m' =>
      if String.eqb k io_name then (k, ps ++ [p]) :: m'
      else (k, ps) :: missing_append io_name p m'
  end.

(** The deferred [(name, p)] pairs the map stands for. *)
Definition deferred (m : missing_map) (io_name : string) (p : Z) : Prop :=
  ∃ ps, (io_name, ps) ∈ m ∧ p ∈ ps.

Section Materialize.

Variable dag : OnnxDAG.
Variable node_assignments : gmap string split_id.

(** Lines 199-223, loop body. *)
Definition input_step (p : Z) (st : SplitDag * missing_map)
    (input_name : string) : result (SplitDag * missing_map) :=
  let '(split_dag, missing_vi) := st in
  if String.eqb input_name "" then Ok st
  else if is_io split_dag input_name then Ok st
  else
    let io := get_io_proto dag input_name in
    if is_input dag input_name || is_initializer dag input_name then
      let* sd1 :=
        (if is_input dag input_name then
           let* first := py_index io 0 in Ok (add_input first split_dag)
         else Ok split_dag) in
      let* sd2 :=
        (if is_initializer dag input_name then
           let* last := py_index io (-1) in Ok (add_initializer last sd1)
         else Ok sd1) in
      Ok (sd2, missing_vi)
    else
      match io with
      | first :: _ => Ok (add_input first split_dag, missing_vi)
      | [] =>
          Ok (add_input (make_empty_tensor_value_info input_name) split_dag,
              missing_append input_name p missing_vi)
      end.

(** Lines 235-240: [node_assignments.get(consumer) != split_id] for some
    consumer, the graph-output marker included. *)
Definition leaves_split (p : Z) (output_name : string) : bool :=
  existsb (fun consumer =>
             negb (bool_decide (node_assignments !! consumer = Some (Single p))))
          (get_consumers dag output_name true).

(** Lines 229-248, loop body. *)
Definition output_step (p : Z) (st : SplitDag * missing_map)
    (output_name : string) : SplitDag * missing_map :=
  let '(split_dag, missing_vi) := st in
  if String.eqb output_name "" then st
  else
    let is_output := leaves_split p output_name in
    let sd1 := if is_output then make_output output_name split_dag
               else split_dag in
    match get_io_proto dag output_name with
    | first :: _ => (add_value_info first false sd1, missing_vi)
    | [] =>
        if is_output then (sd1, missing_append output_name p missing_vi)
        else (sd1, missing_vi)
    end.

(** Lines 197-248 for a node whose assignment is the integer [p]. *)
Definition materialize_single (p : Z) (node_name : string)
    (st : list SplitDag * missing_map) : result (list SplitDag * missing_map) :=
  let* split_dag := py_index st.1 p in
  let* st1 := foldM (input_step p) (get_node_inputs dag node_name)
                    (split_dag, st.2) in
  let st2 := (add_node (get_node_proto dag node_name) st1.1, st1.2) in
  let st3 := fold_left (output_step p) (get_node_outputs dag node_name) st2 in
  Ok (py_set st.1 p st3.1, st3.2).

(** Lines 251-252: a copy of the constant in each listed split. *)
Definition replicate_step (node_name : string) (split_dags : list SplitDag)
    (idx : Z) : result (list SplitDag) :=
  let* sd := py_index split_dags idx in
  Ok (py_set split_dags idx (add_node (get_node_proto dag node_name) sd)).

(** Lines 190-252, loop body. *)
Definition materialize_step (st : list SplitDag * missing_map)
    (node_name : string) : result (list SplitDag * missing_map) :=
  match node_assignments !! node_name with
  | None => Ok st
  | Some (Single p) => materialize_single p node_name st
  | Some (Multi ids) =>
      let* split_dags := foldM (replicate_step node_name) ids st.1 in
      Ok (split_dags, st.2)
  end.

(** Lines 73 and 189-252. *)
Definition materialize (n_splits : nat)
  : result (list SplitDag * missing_map) :=
  foldM materialize_step (topological_sort dag)
        (replicate n_splits empty_split_dag, []).

End Materialize.

(** Every index stored in [node_assignments] lies in [0, n_splits). *)
Definition index_in_range (n_splits : nat) (p : Z) : bool :=
  (0 <=? p) && (p <? Z.of_nat n_splits).

Definition split_id_in_range (n_splits : nat) (a : split_id) : bool :=
  match a with
  | Single p => index_in_range n_splits p
  | Multi ids => forallb (index_in_range n_splits) ids
  end.

Definition assignments_in_range (n_splits : nat)
    (node_assignments : gmap string split_id) : bool :=
  forallb (fun kv => split_id_in_range n_splits kv.2)
          (map_to_list node_assignments).


(** The protos the main graph has for [x] carry the name [x], and there is
    one when [x] is a graph input or an initializer. *)
Definition io_protos_ok (dag : OnnxDAG) (x : string) : bool :=
  forallb (fun q => String.eqb (proto_name q) x) (get_io_proto dag x)
  && (negb (is_input dag x || is_initializer dag x)
      || negb (Nat.eqb (length (get_io_proto dag x)) 0)).

(** ** What materialization is meant to establish *)

Section Materialized.

Variable dag : OnnxDAG.
Variable node_assignments : gmap string split_id.
Variable n_splits : nat.

(** The node [m] is assigned to the sub-graph stored at position [i]. *)
Definition placed (m : string) (i : nat) : Prop :=
  match node_assignments !! m with
  | Some (Single p) => py_norm n_splits p = Some i
  | Some (Multi ids) => ∃ p, p ∈ ids ∧ py_norm n_splits p = Some i
  | None => False
  end.

(** The node [m], of the sub-graph at position [i], has the output [o]
    read outside that sub-graph. *)
Definition marked (m : string) (i : nat) (o : string) : Prop :=
  ∃ p, node_assignments !! m = Some (Single p)
       ∧ py_norm n_splits p = Some i
       ∧ o ∈ get_node_outputs dag m ∧ o ≠ ""
       ∧ leaves_split dag node_assignments p o = true.

(** The nodes and the outputs of every sub-graph once the nodes of
    [visited] have been handled. *)
Definition materialized (visited : list string)
    (st : list SplitDag * missing_map) : Prop :=
  length st.1 = n_splits
  ∧ ∀ i sd, st.1 !! i = Some sd ->
      (∀ np, np ∈ sd_node sd
             ↔ ∃ m, m ∈ visited ∧ np = get_node_proto dag m ∧ placed m i)
      ∧ (∀ o, o ∈ sd_output sd ↔ ∃ m, m ∈ visited ∧ marked m i o).

End Materialized.

(** ** The whole pass (lines 44-280)

    The model proto, the construction of the DAG from it (with the identity
    nodes removed) and the shape-inference collaborator are given from
    outside.  The collaborator is observed through the [io.proto] list it
    yields for a name. *)

Section Orchestrator.

Variable ModelProto : Type.
Variable build_dag : ModelProto -> OnnxDAG.
Variable infer_shapes : ModelProto -> bool -> string -> list proto.

Inductive event : Type :=
  | InferShapes (model_proto : ModelProto) (auto_merge : bool)
  | Serialize (split_name : string) (split_dag : SplitDag).

(** Lines 264-268, loop body. *)
Definition resolve_step (inferred : string -> list proto)
    (split_dags : list SplitDag) (entry : string * list Z)
  : result (list SplitDag) :=
  match inferred entry.1 with
  | [] => Raise ValueError
  | first :: _ =>
      foldM (fun sds idx =>
               let* sd := py_index sds idx in
               Ok (py_set sds idx (add_value_info first true sd)))
            entry.2 split_dags
  end.

(** Lines 272-278: [split_<i>] for each split, in order. *)
Definition split_name (i : nat) : string := String.append "split_" (pretty i).

Definition components (split_dags : list SplitDag)
  : list (string * SplitDag) :=
  imap (fun i sd => (split_name i, sd)) split_dags.

Definition serialize_all (split_dags : list SplitDag) : list event :=
  map (fun c => Serialize c.1 c.2) (components split_dags).

(** Lines 55-252: everything before the shape-inference call. *)
Definition split_graph (model_proto : ModelProto)
    (split_assignments : split_map) (include_all_nodes : bool)
  : result (list SplitDag * missing_map) :=
  let dag := build_dag model_proto in
  let* node_assignments :=
    assign_nodes dag split_assignments include_all_nodes in
  materialize dag node_assignments (num_splits split_assignments).

(** Lines 254-280: the events of the run and its outcome.  [metadata] is
    the parsed [split_assignments] entry of the model metadata, [None]
    when the model has none. *)
Definition run (model_proto : ModelProto) (metadata : option split_map)
    (include_all_nodes : bool)
  : list event * result (list (string * SplitDag)) :=
  match metadata with
  | None | Some [] => ([], Raise ValueError)
  | Some split_assignments =>
      match split_graph model_proto split_assignments include_all_nodes with
      | Raise e => ([], Raise e)
      | Ok (split_dags, []) =>
          (serialize_all split_dags, Ok (components split_dags))
      | Ok (split_dags, missing_vi) =>
          let call := InferShapes model_proto true in
          match foldM (resolve_step (infer_shapes model_proto true))
                      missing_vi split_dags with
          | Raise e => ([call], Raise e)
          | Ok resolved =>
              (call :: serialize_all resolved, Ok (components resolved))
          end
      end
  end.

End Orchestrator.

Arguments InferShapes {ModelProto} model_proto auto_merge.
Arguments Serialize {ModelProto} split_name split_dag.

(** The protos the collaborator yields for the deferred names carry those
    names. *)
Definition inferred_named (inferred : string -> list proto)
    (missing_vi : missing_map) : bool :=
  forallb (fun entry =>
             forallb (fun q => String.eqb (proto_name q) entry.1)
                     (inferred entry.1))
          missing_vi.

(** The calls to the shape-inference collaborator in a trace, with their
    arguments, and the names of the splits a trace serializes. *)
Fixpoint infer_calls {M : Type} (trace : list (event M)) : list (M * bool) :=
  match trace with
  | [] => []
  | InferShapes model_proto auto_merge :: rest =>
      (model_proto, auto_merge) :: infer_calls rest
  | Serialize _ _ :: rest => infer_calls rest
  end.

Fixpoint serialized {M : Type} (trace : list (event M)) : list string :=
  match trace with
  | [] => []
  | InferShapes _ _ :: rest => serialized rest
  | Serialize split_name _ :: rest => split_name :: serialized rest
  end.

(** ** A concrete graph model

    The scenarios below need graphs to run the pass on.  The class
    [OnnxDAG] is not part of the sources, so the queries of a concrete graph
    follow the Graph Model of section 4.1 of the spec. *)

Module GraphModel.

(** Modelled from the spec: a graph (section 3), an ordered node list,
    declared inputs, initializers, outputs and value-info.  The nodes are
    expected in a topological order, which the sort keeps (ties are broken
    by declaration order). *)
Record Graph : Type := {
  g_node : list NodeProto;
  g_input : list proto;
  g_initializer : list proto;
  g_output : list string;
  g_value_info : list proto
}.

(** Modelled from the spec: the markers that stand for a graph input, an
    initializer, both, and a graph output among parents and consumers. *)
Definition special_input : string := "__input__".
Definition special_initializer : string := "__initializer__".
Definition special_input_initializer : string := "__input_initializer__".
Definition special_output : string := "__output__".

(** [x in l] *)
Definition mem (x : string) (l : list string) : bool := bool_decide (x ∈ l).

Section Queries.

Variable g : Graph.

(** Modelled from the spec: the node of a name. *)
Definition find_node (node_name : string) : option NodeProto :=
  find (fun np => String.eqb (np_name np) node_name) (g_node g).

(** Modelled from the spec: the node that produces a tensor name. *)
Definition producer (io_name : string) : option NodeProto :=
  find (fun np => mem io_name (np_output np)) (g_node g).

(** Modelled from the spec: [isGraphInput]. *)
Definition g_is_input (io_name : string) : bool :=
  mem io_name (map proto_name (g_input g)).

(** Modelled from the spec: [isInitializer]. *)
Definition g_is_initializer (io_name : string) : bool :=
  mem io_name (map proto_name (g_initializer g)).

(** Modelled from the spec: the name denotes a graph input, an initializer
    or a node output. *)
Definition g_is_io (io_name : string) : bool :=
  g_is_input io_name || g_is_initializer io_name
  || bool_decide (is_Some (producer io_name)).

(** Modelled from the spec: a field of the node of a name. *)
Definition node_field {A : Type} (f : NodeProto -> A) (d : A)
    (node_name : string) : A :=
  match find_node node_name with
  | Some np => f np
  | None => d
  end.

(** Modelled from the spec: the nodes that read a tensor name, and the
    output marker when it is a graph output and the marker is asked for. *)
Definition io_consumers (special : bool) (io_name : string) : list string :=
  map np_name (filter (fun np => mem io_name (np_input np)) (g_node g))
  ++ (if special && mem io_name (g_output g) then [special_output] else []).

(** Modelled from the spec: [consumers], of a tensor name or of all the
    outputs of a node. *)
Definition g_consumers (name : string) (special : bool) : list string :=
  let ios :=
    if g_is_io name then [name]
    else filter (fun o => negb (String.eqb o "")) (node_field np_output [] name) in
  concat (map (io_consumers special) ios).

(** Modelled from the spec: the producer of a tensor name, or the marker
    of what it is when no node produces it and the marker is asked for. *)
Definition io_source (special : bool) (io_name : string) : list string :=
  match producer io_name with
  | Some np => [np_name np]
  | None =>
      if negb special then []
      else if g_is_input io_name && g_is_initializer io_name
           then [special_input_initializer]
      else if g_is_input io_name then [special_input]
      else if g_is_initializer io_name then [special_initializer]
      else []
  end.

(** Modelled from the spec: [parents], the distinct sources of the inputs
    of a node. *)
Definition g_parents (node_name : string) (special : bool) : list string :=
  remove_dups
    (concat (map (io_source special)
                 (filter (fun i => negb (String.eqb i ""))
                         (node_field np_input [] node_name)))).

(** Modelled from the spec: [isConstantProducedInput], the name is an
    initializer or is produced by a [Constant] node. *)
Definition g_is_constant_input (io_name : string) : bool :=
  g_is_initializer io_name
  || match producer io_name with
     | Some np => String.eqb (np_op_type np) "Constant"
     | None => false
     end.

(** Modelled from the spec: [valueInfo], the input proto then the
    initializer tensor of a graph input or initializer, the recorded
    value-info of any other name. *)
Definition g_io_proto (io_name : string) : list proto :=
  let named := filter (fun p => String.eqb (proto_name p) io_name) in
  if g_is_input io_name || g_is_initializer io_name
  then named (g_input g) ++ named (g_initializer g)
  else named (g_value_info g).

(** The proto returned for a name that is not a node. *)
Definition empty_node : NodeProto :=
  {| np_name := ""; np_op_type := ""; np_input := []; np_output := [];
     np_attribute := "" |}.

(** Modelled from the spec: the queries of section 4.1, derived from the
    graph. *)
Definition dag_of_graph : OnnxDAG :=
  {| topological_sort := map np_name (g_node g);
     get_node_op_type := node_field np_op_type "";
     get_consumers := g_consumers;
     get_parents := g_parents;
     get_node_inputs := node_field np_input [];
     get_node_outputs := node_field np_output [];
     get_node_proto := node_field (fun np => np) empty_node;
     is_constant_input := g_is_constant_input;
     is_input_consumer := fun n =>
       existsb g_is_input (node_field np_input [] n);
     is_output_producer := fun n =>
       existsb (fun o => mem o (g_output g)) (node_field np_output [] n);
     is_input := g_is_input;
     is_initializer := g_is_initializer;
     get_io_proto := g_io_proto |}.

End Queries.

Definition node (name op : string) (ins outs : list string) : NodeProto :=
  {| np_name := name; np_op_type := op; np_input := ins; np_output := outs;
     np_attribute := "" |}.

Definition typed (name : string) : proto := ValueInfoProto name (Some "float[N]").

End GraphModel.

(** ** The chain [A -> B -> C -> D] *)

Module Chain.
Import GraphModel.

Definition graph : Graph :=
  {| g_node := [ node "A" "Relu" ["x"] ["a"];
                 node "B" "Relu" ["a"] ["b"];
                 node "C" "Relu" ["b"] ["c"];
                 node "D" "Relu" ["c"] ["d"] ];
     g_input := [typed "x"];
     g_initializer := [];
     g_output := ["d"];
     g_value_info := [typed "a"; typed "b"; typed "c"; typed "d"] |}.

Definition dag : OnnxDAG := dag_of_graph graph.

Definition split_assignments : split_map := [("B", 0); ("C", 1)].

End Chain.


(** ** A replicated constant: [K] feeds [B] (partition 0) and [C]
    (partition 2), [M] in partition 1 does not read it, [U] is not read at
    all *)

Module Replicated.
Import GraphModel.

Definition graph : Graph :=
  {| g_node := [ node "K" "Constant" [] ["k"];
                 node "U" "Constant" [] ["u"];
                 node "B" "Add" ["x"; "k"] ["b"];
                 node "M" "Relu" ["b"] ["m"];
                 node "C" "Add" ["m"; "k"] ["c"] ];
     g_input := [typed "x"];
     g_initializer := [];
     g_output := ["c"];
     g_value_info := [typed "b"; typed "c"] |}.

Definition dag : OnnxDAG := dag_of_graph graph.

Definition split_assignments : split_map := [("B", 0); ("M", 1); ("C", 2)].

End Replicated.

(** ** Casts on the boundary: [x -> cast_in -> B -> cast_out -> y] *)

Module Casts.
Import GraphModel.

Definition graph : Graph :=
  {| g_node := [ node "cast_in" "Cast" ["x"] ["xi"];
                 node "B" "Relu" ["xi"] ["b"];
                 node "cast_out" "Cast" ["b"] ["y"] ];
     g_input := [typed "x"];
     g_initializer := [];
     g_output := ["y"];
     g_value_info := [typed "xi"; typed "y"] |}.

Definition dag : OnnxDAG := dag_of_graph graph.

Definition split_assignments : split_map := [("B", 0)].

End Casts.

(** ** Keys of different depth: ["a"] has depth 1, ["b.c"] depth 2 *)

Module MixedDepth.
Import GraphModel.

Definition graph : Graph :=
  {| g_node := [ node "a" "Relu" ["x"] ["a_out"];
                 node "/b/c/n" "Relu" ["a_out"] ["y"] ];
     g_input := [typed "x"];
     g_initializer := [];
     g_output := ["y"];
     g_value_info := [typed "a_out"; typed "y"] |}.

Definition dag : OnnxDAG := dag_of_graph graph.

Definition split_assignments : split_map := [("a", 0); ("b.c", 1)].

End MixedDepth.

(** ** A name that is a graph input and an initializer at once: [w], the
    default-valued second operand of [N] *)

Module Facets.
Import GraphModel.

Definition graph : Graph :=
  {| g_node := [ node "N" "Add" ["x"; "w"] ["y"] ];
     g_input := [typed "x"; typed "w"];
     g_initializer := [TensorProto "w" "0x3f800000"];
     g_output := ["y"];
     g_value_info := [] |}.

Definition dag : OnnxDAG := dag_of_graph graph.

Definition split_assignments : split_map := [("N", 0)].

End Facets.

(** ** Partition indices with a gap: the chain split at [B] and [C] with
    the indices 0 and 2 *)

Module Gap.

Definition split_assignments : split_map := [("B", 0); ("C", 2)].

End Gap.

(** ** A stand-in for the shape-inference collaborator: it knows the
    value-info of the names listed in [known] *)

Definition infer_from (known : list proto)
  : GraphModel.Graph -> bool -> string -> list proto :=
  fun _ _ io_name => filter (fun p => String.eqb (proto_name p) io_name) known.

Definition run_graph (known : list proto) :=
  run GraphModel.Graph GraphModel.dag_of_graph (infer_from known).

(** ** The [split_assignments] entry of the model metadata (lines 46-56) *)

(** [d[key] = v] on a [dict]: a new key goes last, a known key keeps its
    place and takes the new value. *)
Fixpoint dict_set (d : split_map) (key : string) (v : Z) : split_map :=
  match d with
  | [] => [(key, v)]
  | (k, w) :: d' =>
      if String.eqb k key then (k, v) :: d' else (k, w) :: dict_set d' key v
  end.

Definition semicolon : ascii := ";"%char.
Definition equals : ascii := "="%char.

(** A [StringStringEntryProto] of [model_proto.metadata_props]. *)
Record MetadataProp : Type := {
  mp_key : string;
  mp_value : string
}.

Section Metadata.

(** The builtin [int] applied to a [str]: the integer, or the exception it
    raises. *)
Variable py_int : string -> result Z.

(** Lines 50-51, one item of the comprehension: the assignment is split at
    ["="], unpacked into [key, value] (a [ValueError] unless there are
    exactly two parts), and [int(value)] is evaluated. *)
Definition parse_assignment (assignment : string) : result (string * Z) :=
  match PyStr.split equals assignment with
  | [key; value] => let* v := py_int value in Ok (key, v)
  | _ => Raise ValueError
  end.

(** Lines 49-52: the dict comprehension over [value.split(";")]. *)
Definition parse_split_assignments (value : string) : result split_map :=
  foldM (fun d assignment =>
           let* kv := parse_assignment assignment in
           Ok (dict_set d kv.1 kv.2))
        (PyStr.split semicolon value) [].

(** Lines 46-53: the first entry with the key [split_assignments] is parsed
    and ends the loop. *)
Fixpoint find_split_assignments (metadata_props : list MetadataProp)
  : result (option split_map) :=
  match metadata_props with
  | [] => Ok None
  | metadata_prop :: rest =>
      if String.eqb (mp_key metadata_prop) "split_assignments" then
        let* d := parse_split_assignments (mp_value metadata_prop) in
        Ok (Some d)
      else find_split_assignments rest
  end.

(** Lines 46-56: the map the pass goes on with. *)
Definition load_split_assignments (metadata_props : list MetadataProp)
  : result split_map :=
  let* found := find_split_assignments metadata_props in
  match found with
  | None | Some [] => Raise ValueError
  | Some split_assignments => Ok split_assignments
  end.

End Metadata.

(** A stand-in for [int] on plain decimal literals, an optional minus sign
    followed by ASCII digits; anything else is a [ValueError]. *)
Definition digit_value (c : ascii) : option Z :=
  let n := Z.of_N (N_of_ascii c) in
  if (48 <=? n) && (n <=? 57) then Some (n - 48) else None.

Fixpoint digits_value (acc : Z) (s : string) : option Z :=
  match s with
  | EmptyString => Some acc
  | String c s' =>
      match digit_value c with
      | Some d => digits_value (10 * acc + d) s'
      | None => None
      end
  end.

Definition int_of_decimal (s : string) : result Z :=
  let digits s' :=
    match s' with
    | EmptyString => None
    | _ => digits_value 0 s'
    end in
  let parsed :=
    match s with
    | String "-" s' => Z.opp <$> digits s'
    | _ => digits s
    end in
  match parsed with
  | Some v => Ok v
  | None => Raise ValueError
  end.

(** ** Loop invariants

    What each loop of the pass keeps true, stated once for the proofs
    below. *)

(** The next-split map once the nodes of [visited] have been walked:
    it extends the direct assignments, has an entry for every visited node
    that is not a constant, holds no index but those of the direct
    assignments, and is none only at nodes without a direct assignment. *)
Definition next_split_inv (constant_nodes : gset string)
    (direct : gmap string Z) (visited : list string)
    (ns : gmap string (option Z)) : Prop :=
  (∀ n p, direct !! n = Some p -> ns !! n = Some (Some p))
  ∧ (∀ n, n ∈ visited -> n ∉ constant_nodes -> is_Some (ns !! n))
  ∧ (∀ n v, ns !! n = Some (Some v) -> ∃ m, direct !! m = Some v)
  ∧ (∀ n, ns !! n = Some None -> direct !! n = None ∧ n ∉ constant_nodes).

(** The inclusive pass once the nodes of [visited] have been handled. *)
Definition inclusive_inv (constant_nodes : gset string)
    (direct : gmap string Z) (visited : list string) (na : gmap string Z)
  : Prop :=
  (∀ n p, direct !! n = Some p -> na !! n = Some p)
  ∧ (∀ n, n ∈ visited -> n ∉ constant_nodes -> is_Some (na !! n))
  ∧ (∀ n v, na !! n = Some v -> v = 0 ∨ ∃ m, direct !! m = Some v)
  ∧ (∀ n, is_Some (na !! n) -> is_Some (direct !! n) ∨ n ∉ constant_nodes).

(** What every pass of the exclusive policy keeps: the direct assignments
    stay, every index is one of theirs, and no constant is given one. *)
Definition exclusive_inv (constant_nodes : gset string)
    (direct : gmap string Z) (na : gmap string Z) : Prop :=
  (∀ n p, direct !! n = Some p -> na !! n = Some p)
  ∧ (∀ n v, na !! n = Some v -> ∃ m, direct !! m = Some v)
  ∧ (∀ n, is_Some (na !! n) -> is_Some (direct !! n) ∨ n ∉ constant_nodes).


(** What the cast rule of lines 168-176 gives a [Cast] node with the single
    consumer [c] and the first parent [q], from the assignments [na] at the
    time the node is visited. *)
Definition cast_rule (dag : OnnxDAG) (na : gmap string Z) (n c q : string)
  : option Z :=
  if is_input_consumer dag n && bool_decide (is_Some (na !! c)) then na !! c
  else if bool_decide (is_Some (na !! q)) && is_output_producer dag n
       then na !! q
       else None.

(** The assignment [a] of the constant [k], against the assignments [na1]
    of the other nodes: nothing when no consumer is assigned, the
    duplicate-free list of its consumers' partitions otherwise. *)
Definition constant_resolved (dag : OnnxDAG) (na1 : gmap string Z)
    (k : string) (a : option split_id) : Prop :=
  match a with
  | None => ∀ c, c ∈ get_consumers dag k false -> na1 !! c = None
  | Some (Single _) => False
  | Some (Multi l) =>
      l ≠ [] ∧ NoDup l
      ∧ ∀ p, p ∈ l ↔ ∃ c, c ∈ get_consumers dag k false ∧ na1 !! c = Some p
  end.

(** The constant pass once the constants of [visited] have been handled. *)
Definition constant_inv (dag : OnnxDAG) (na1 : gmap string Z)
    (visited : list string) (na : gmap string split_id) : Prop :=
  (∀ n, n ∉ visited -> na !! n = Single <$> na1 !! n)
  ∧ (∀ k, k ∈ visited -> constant_resolved dag na1 k (na !! k)).

(** The value-info of [x] in the sub-graph at position [j] is the inferred
    one. *)
Definition backfilled (inferred : string -> list proto)
    (sds : list SplitDag) (x : string) (j : nat) : Prop :=
  ∃ sd first, sds !! j = Some sd ∧ head (inferred x) = Some first
              ∧ sd_value_info sd !! x = Some first.

(** ** Further loop invariants and well-formedness checks *)

Section MetadataLoop.

Variable py_int : string -> result Z.

(** Lines 49-52, one round of the comprehension. *)
Definition parse_step (d : split_map) (assignment : string)
  : result split_map :=
  let* kv := parse_assignment py_int assignment in
  Ok (dict_set d kv.1 kv.2).

(** The state of the comprehension once the assignments of [visited] have
    been read. *)
Definition parsed (visited : list string) (d : split_map) : Prop :=
  (visited ≠ [] -> d ≠ [])
  ∧ NoDup d.*1
  ∧ (∀ k v, dict_get d k = Some v ->
       ∃ s, String.append k (String equals s) ∈ visited ∧ py_int s = Ok v)
  ∧ (∀ a, a ∈ visited -> ∃ kv, parse_assignment py_int a = Ok kv).

End MetadataLoop.

(** The text [key=value] of one assignment, and the strings that hold
    neither of the two separators. *)
Definition assignment_text (key value : string) : string :=
  String.append key (String equals value).

Definition plain (s : string) : bool :=
  PyStr.sep_free semicolon s && PyStr.sep_free equals s.

(** Every name present in [sd] is present in [sd']. *)
Definition grows (sd sd' : SplitDag) : Prop :=
  ∀ x, is_io sd x = true -> is_io sd' x = true.

(** The protos the main graph has for the inputs of its nodes carry the
    names they are asked under. *)
Definition protos_named (dag : OnnxDAG) : bool :=
  forallb (fun n =>
             forallb (fun x =>
                        forallb (fun q => String.eqb (proto_name q) x)
                                (get_io_proto dag x))
                     (get_node_inputs dag n))
          (topological_sort dag).

(** The deferred names once the nodes of [visited] have been handled: each
    lacks value-info in the main graph and is a cross-partition input or an
    outgoing output of a visited node, and every outgoing output without
    value-info is among them. *)
Definition deferred_origin (dag : OnnxDAG) (na : gmap string split_id)
    (visited : list string) (missing_vi : missing_map) : Prop :=
  (∀ y q, deferred missing_vi y q ->
     y ≠ "" ∧ get_io_proto dag y = []
     ∧ ∃ m, m ∈ visited ∧ na !! m = Some (Single q)
            ∧ ((y ∈ get_node_inputs dag m ∧ is_input dag y = false
                ∧ is_initializer dag y = false)
               ∨ (y ∈ get_node_outputs dag m
                  ∧ leaves_split dag na q y = true)))
  ∧ (∀ m q o, m ∈ visited -> na !! m = Some (Single q) ->
       o ∈ get_node_outputs dag m -> o ≠ "" -> get_io_proto dag o = [] ->
       leaves_split dag na q o = true -> deferred missing_vi o q).

(** [sd'] has the nodes, inputs, outputs and initializers of [sd]; only
    the value-info may differ. *)
Definition same_structure (sd sd' : SplitDag) : Prop :=
  sd_node sd' = sd_node sd ∧ sd_input sd' = sd_input sd
  ∧ sd_output sd' = sd_output sd ∧ sd_initializer sd' = sd_initializer sd.

(** Every entry of [missing_vi] lists at least one split. *)
Definition entries_nonempty (missing_vi : missing_map) : Prop :=
  ∀ x ps, (x, ps) ∈ missing_vi -> ps ≠ [].

(** ** The pass from the model metadata on (lines 44-280) *)

Section Pass.

Variable ModelProto : Type.
Variable metadata_props : ModelProto -> list MetadataProp.
Variable py_int : string -> result Z.
Variable build_dag : ModelProto -> OnnxDAG.
Variable infer_shapes : ModelProto -> bool -> string -> list proto.

(** Lines 46-53 followed by the rest of the pass; a failure while the
    metadata is read comes before any event. *)
Definition run_for_config (model_proto : ModelProto)
    (include_all_nodes : bool)
  : list (event ModelProto) * result (list (string * SplitDag)) :=
  match find_split_assignments py_int (metadata_props model_proto) with
  | Raise e => ([], Raise e)
  | Ok metadata =>
      run ModelProto build_dag infer_shapes model_proto metadata
          include_all_nodes
  end.

End Pass.

(** ** A model with its metadata: the graph of the replicated constant,
    with the assignments written as the metadata entry has them, and a
    stand-in for the shape-inference collaborator that infers a type for
    every name *)

Module WithMetadata.

Definition ModelProto : Type := list MetadataProp * GraphModel.Graph.

Definition metadata_props (model_proto : ModelProto) : list MetadataProp :=
  model_proto.1.

Definition build_dag (model_proto : ModelProto) : OnnxDAG :=
  GraphModel.dag_of_graph model_proto.2.

Definition infer_all : ModelProto -> bool -> string -> list proto :=
  fun _ _ io_name => [GraphModel.typed io_name].

Definition replicated : ModelProto :=
  ([ {| mp_key := "producer"; mp_value := "olive" |};
     {| mp_key := "split_assignments"; mp_value := "B=0;M=1;C=2" |} ],
   Replicated.graph).

End WithMetadata.

(** * Properties *)

(** ** Loops that may raise *)

Lemma bind_ok {A B : Type} (r : result A) (k : A -> result B) (b : B) :
  bind r k = Ok b -> ∃ a, r = Ok a ∧ k a = Ok b.
Proof. destruct r as [a|e]; simpl; [eauto | discriminate]. Qed.

Lemma foldM_app {S A : Type} (f : S -> A -> result S) (l1 l2 : list A) (s : S) :
  foldM f (l1 ++ l2) s = bind (foldM f l1 s) (foldM f l2).
Proof.
  revert s; induction l1 as [|x l1 IH]; intros s; simpl; [done|].
  destruct (f s x); simpl; auto.
Qed.

(** An invariant indexed by the elements already visited, for a loop that
    is shown not to raise. *)
Lemma foldM_total {S A : Type} (f : S -> A -> result S)
    (P : list A -> S -> Prop) (l : list A) (s0 : S) :
  P [] s0 ->
  (∀ pre x post s, l = pre ++ x :: post -> P pre s ->
     ∃ s', f s x = Ok s' ∧ P (pre ++ [x]) s') ->
  ∃ s', foldM f l s0 = Ok s' ∧ P l s'.
Proof.
  intros H0 Hstep.
  assert (G : ∀ todo pre s, l = pre ++ todo -> P pre s ->
                ∃ s', foldM f todo s = Ok s' ∧ P l s').
  { induction todo as [|x todo IH]; intros pre s Hl HP; simpl.
    - rewrite app_nil_r in Hl; subst; eauto.
    - destruct (Hstep pre x todo s Hl HP) as (s' & -> & HP').
      apply (IH (pre ++ [x])); [by rewrite <- app_assoc|done]. }
  by apply (G l [] s0).
Qed.

(** The same for a loop that is known to have ended normally. *)
Lemma foldM_inv {S A : Type} (f : S -> A -> result S)
    (P : list A -> S -> Prop) (l : list A) (s0 s1 : S) :
  P [] s0 ->
  (∀ pre x post s s', l = pre ++ x :: post -> P pre s -> f s x = Ok s' ->
     P (pre ++ [x]) s') ->
  foldM f l s0 = Ok s1 -> P l s1.
Proof.
  intros H0 Hstep.
  assert (G : ∀ todo pre s, l = pre ++ todo -> P pre s ->
                foldM f todo s = Ok s1 -> P l s1).
  { induction todo as [|x todo IH]; intros pre s Hl HP; simpl.
    - rewrite app_nil_r in Hl; subst; congruence.
    - destruct (f s x) as [s'|] eqn:E; [|discriminate].
      apply (IH (pre ++ [x])); [by rewrite <- app_assoc|eauto]. }
  by apply (G l [] s0).
Qed.

(** ** Indexing *)

Lemma py_norm_lt (len : nat) (i : Z) (j : nat) :
  py_norm len i = Some j -> (j < len)%nat.
Proof.
  unfold py_norm; intros H.
  destruct (i <? 0) eqn:E; case_match; simplify_eq; lia.
Qed.

Lemma py_norm_nonneg (len : nat) (i : Z) :
  0 <= i < Z.of_nat len -> py_norm len i = Some (Z.to_nat i).
Proof.
  intros H; unfold py_norm.
  destruct (i <? 0) eqn:E; [lia|].
  destruct ((0 <=? i) && (i <? Z.of_nat len)) eqn:E'; [done|lia].
Qed.

Lemma py_index_ok {A : Type} (l : list A) (i : Z) (x : A) :
  py_index l i = Ok x ↔ ∃ j, py_norm (length l) i = Some j ∧ l !! j = Some x.
Proof.
  unfold py_index; split.
  - destruct (py_norm _ _) as [j|]; [|done].
    destruct (l !! j) eqn:E; [|done]. intros [= ->]; eauto.
  - intros (j & -> & ->); done.
Qed.

Lemma py_index_norm {A : Type} (l : list A) (i : Z) :
  (∃ x, py_index l i = Ok x) ↔ is_Some (py_norm (length l) i).
Proof.
  split.
  - intros [x (j & Hj & _)%py_index_ok]; eauto.
  - intros [j Hj]. pose proof (py_norm_lt _ _ _ Hj) as Hlt.
    destruct (lookup_lt_is_Some_2 l j Hlt) as [x Hx].
    exists x; apply py_index_ok; eauto.
Qed.

Lemma py_index_raise {A : Type} (l : list A) (i : Z) :
  py_norm (length l) i = None -> py_index l i = Raise IndexError.
Proof. unfold py_index; by intros ->. Qed.

Lemma py_set_length {A : Type} (l : list A) (i : Z) (x : A) :
  length (py_set l i x) = length l.
Proof. unfold py_set; case_match; [apply length_insert|done]. Qed.

Lemma py_set_lookup {A : Type} (l : list A) (i : Z) (x : A) (j k : nat) :
  py_norm (length l) i = Some j ->
  py_set l i x !! k = if decide (j = k) then Some x else l !! k.
Proof.
  intros Hj; unfold py_set; rewrite Hj.
  pose proof (py_norm_lt _ _ _ Hj).
  case_decide; subst.
  - by apply list_lookup_insert_eq.
  - by apply list_lookup_insert_ne.
Qed.

(** ** The direct pass *)

Section DirectPass.

Variable dag : OnnxDAG.
Variable sa : split_map.
Variable depth : nat.

Lemma direct_pass_snoc (l : list string) (n : string) :
  direct_pass dag sa depth (l ++ [n])
  = direct_step dag sa depth (direct_pass dag sa depth l) n.
Proof. unfold direct_pass; by rewrite fold_left_app. Qed.

Lemma direct_pass_assigned (l : list string) (n : string) (p : Z) :
  (direct_pass dag sa depth l).1 !! n = Some p
  ↔ n ∈ l ∧ is_constant_node dag n = false
    ∧ dict_get sa (namespace_of depth n) = Some p.
Proof.
  induction l as [|m l IH] using rev_ind.
  - cbn. rewrite lookup_empty. split; [done|]. intros [H _]; inversion H.
  - rewrite direct_pass_snoc. unfold direct_step.
    destruct (direct_pass dag sa depth l) as [na cs]; simpl in *.
    rewrite elem_of_app, list_elem_of_singleton.
    destruct (is_constant_node dag m) eqn:Ec; simpl.
    + rewrite IH. split; [tauto|]. intros ([?| ->] & ? & ?); [done|congruence].
    + destruct (dict_get sa (namespace_of depth m)) as [q|] eqn:Eq; simpl.
      * rewrite lookup_insert. case_decide; subst.
        -- split; [intros [= ->]; tauto|]. intros (_ & _ & ?); congruence.
        -- rewrite IH. split; [tauto|]. intros ([?| ->] & ? & ?); done.
      * rewrite IH. split; [tauto|].
        intros ([?| ->] & ? & ?); [done|congruence].
Qed.

Lemma direct_pass_constants (l : list string) (n : string) :
  n ∈ (direct_pass dag sa depth l).2
  ↔ n ∈ l ∧ is_constant_node dag n = true.
Proof.
  induction l as [|m l IH] using rev_ind.
  - cbn. rewrite elem_of_empty. split; [done|]. intros [H _]; inversion H.
  - rewrite direct_pass_snoc. unfold direct_step.
    destruct (direct_pass dag sa depth l) as [na cs]; simpl in *.
    rewrite elem_of_app, list_elem_of_singleton.
    destruct (is_constant_node dag m) eqn:Ec; simpl.
    + rewrite elem_of_union, elem_of_singleton, IH.
      split; [intros [->|[? ?]]; tauto|]. intros [[?| ->] ?]; tauto.
    + destruct (dict_get sa (namespace_of depth m)); simpl; rewrite IH;
        (split; [tauto|]); intros [[?| ->] ?]; try done; congruence.
Qed.

End DirectPass.

Lemma dict_get_elem (d : split_map) (k : string) (v : Z) :
  dict_get d k = Some v -> (k, v) ∈ d.
Proof.
  induction d as [|[k' v'] d IH]; simpl; [done|].
  destruct (String.eqb k' k) eqn:E.
  - apply String.eqb_eq in E as ->. intros [= ->]. left.
  - intros H. right. auto.
Qed.

Lemma num_splits_pos (sa : split_map) : sa ≠ [] -> (0 < num_splits sa)%nat.
Proof.
  destruct sa as [|[k v] sa]; [done|]. intros _. unfold num_splits.
  assert (H : v ∈ remove_dups (map snd ((k, v) :: sa))).
  { apply elem_of_remove_dups. simpl. left. }
  destruct (remove_dups _); [inversion H|simpl; lia].
Qed.

Lemma indices_in_range_get (sa : split_map) (k : string) (v : Z) :
  indices_in_range sa = true -> dict_get sa k = Some v ->
  0 <= v < Z.of_nat (num_splits sa).
Proof.
  unfold indices_in_range. rewrite forallb_forall.
  intros H Hg%dict_get_elem. apply list_elem_of_In, H in Hg. simpl in Hg. lia.
Qed.

(** ** The next-split pass *)

(** Membership in a list written with [++] and [::]. *)
Ltac list_mem :=
  rewrite ?elem_of_app, ?elem_of_cons, ?list_elem_of_singleton;
  intuition (auto; congruence).

Lemma elem_of_rev {A : Type} (x : A) (l : list A) : x ∈ rev l ↔ x ∈ l.
Proof. rewrite !list_elem_of_In. symmetry. apply in_rev. Qed.

Lemma py_min_elem (x : Z) (l : list Z) : py_min x l ∈ x :: l.
Proof.
  unfold py_min; revert x; induction l as [|y l IH]; intros x; simpl; [left|].
  specialize (IH (Z.min x y)).
  apply elem_of_cons in IH as [->|IH]; [|by do 2 right].
  destruct (Z.min_spec x y) as [[_ ->]|[_ ->]]; [left|right; left].
Qed.

Lemma py_max_elem (x : Z) (l : list Z) : py_max x l ∈ x :: l.
Proof.
  unfold py_max; revert x; induction l as [|y l IH]; intros x; simpl; [left|].
  specialize (IH (Z.max x y)).
  apply elem_of_cons in IH as [->|IH]; [|by do 2 right].
  destruct (Z.max_spec x y) as [[_ ->]|[_ ->]]; [right; left|left].
Qed.

Lemma skipped_true (cs : gset string) (na : gmap string Z) (n : string) :
  skipped cs na n = true ↔ is_Some (na !! n) ∨ n ∈ cs.
Proof.
  unfold skipped. rewrite orb_true_iff, !bool_decide_eq_true. done.
Qed.

Lemma skipped_false (cs : gset string) (na : gmap string Z) (n : string) :
  skipped cs na n = false ↔ na !! n = None ∧ n ∉ cs.
Proof.
  unfold skipped. rewrite orb_false_iff, !bool_decide_eq_false.
  by rewrite <- eq_None_not_Some.
Qed.

Section NextSplit.

Variable dag : OnnxDAG.

Lemma consumers_later_split (pre post : list string) (n c : string) :
  consumers_later dag (pre ++ n :: post) = true ->
  c ∈ get_consumers dag n false ->
  c ∈ post ∧ is_constant_node dag c = false.
Proof.
  induction pre as [|m pre IH]; simpl; intros H Hc.
  - apply andb_true_iff in H as [H _].
    rewrite forallb_forall in H. apply list_elem_of_In, H in Hc.
    apply andb_true_iff in Hc as [H1 H2].
    apply bool_decide_eq_true in H1. by apply negb_true_iff in H2.
  - apply andb_true_iff in H as [_ H]. auto.
Qed.

(** The comprehension of lines 98-102 does not raise when every consumer
    has an entry, and then collects values of the map. *)
Lemma child_splits_total (ns : gmap string (option Z)) (n : string) :
  (∀ c, c ∈ get_consumers dag n false -> is_Some (ns !! c)) ->
  ∃ l, child_splits dag ns n = Ok l
       ∧ ∀ v, v ∈ l ↔ ∃ c, c ∈ get_consumers dag n false
                           ∧ ns !! c = Some (Some v).
Proof.
  intros Hall. unfold child_splits.
  set (f := fun acc child_name => _).
  destruct (foldM_total f
    (fun pre acc => ∀ v, v ∈ acc ↔ ∃ c, c ∈ pre ∧ ns !! c = Some (Some v))
    (get_consumers dag n false) []) as (l & Hl & HP); [| |eauto].
  - intros v; split; [by intros ?%elem_of_nil|].
    by intros (c & ?%elem_of_nil & _).
  - intros pre c post acc Heq HP.
    destruct (Hall c) as [o Ho]; [rewrite Heq; list_mem|].
    unfold f; rewrite Ho. destruct o as [p|].
    + eexists; split; [done|]. intros v.
      rewrite elem_of_app, list_elem_of_singleton, HP. split.
      * intros [(c' & ? & ?)| ->]; [exists c'|exists c]; list_mem.
      * intros (c' & [?| ->%list_elem_of_singleton]%elem_of_app & ?);
          [left; eauto|right; congruence].
    + eexists; split; [done|]. intros v. rewrite HP. split.
      * intros (c' & ? & ?); exists c'; list_mem.
      * intros (c' & [?| ->%list_elem_of_singleton]%elem_of_app & ?);
          [eauto|congruence].
Qed.

Variable constant_nodes : gset string.
Variable direct : gmap string Z.
Variable node_order : list string.

Hypothesis later : consumers_later dag node_order = true.
Hypothesis constants :
  ∀ c, c ∈ constant_nodes -> is_constant_node dag c = true.

Lemma next_split_step_inv (pre post : list string) (n : string)
    (ns : gmap string (option Z)) :
  rev node_order = pre ++ n :: post ->
  next_split_inv constant_nodes direct pre ns ->
  ∃ ns', next_split_step dag constant_nodes direct ns n = Ok ns'
         ∧ next_split_inv constant_nodes direct (pre ++ [n]) ns'.
Proof.
  intros Heq (Hseed & Hvis & Hval & Hnone).
  unfold next_split_step.
  destruct (skipped constant_nodes direct n) eqn:Hs.
  - exists ns; split; [done|]. split_and!; try done.
    intros m [Hm| ->%list_elem_of_singleton]%elem_of_app Hc; [auto|].
    apply skipped_true in Hs as [[p Hp]|?]; [|done].
    rewrite (Hseed _ _ Hp); eauto.
  - apply skipped_false in Hs as [Hd Hc].
    assert (Hord : node_order = rev post ++ n :: rev pre).
    { rewrite <- (rev_involutive node_order), Heq, rev_app_distr. simpl.
      by rewrite <- app_assoc. }
    destruct (child_splits_total ns n) as (l & -> & Hl).
    { intros c Hin. rewrite Hord in later.
      destruct (consumers_later_split _ _ _ _ later Hin) as [Hpost Hnc].
      apply Hvis; [by apply elem_of_rev in Hpost; rewrite rev_involutive in Hpost|].
      intros ?%constants; congruence. }
    simpl. destruct l as [|p ps].
    + eexists; split; [done|]. split_and!.
      * intros m q Hq. rewrite lookup_insert_ne; [auto|congruence].
      * intros m Hm Hmc. destruct (decide (n = m)) as [->|Hne].
        -- rewrite lookup_insert_eq; eauto.
        -- rewrite lookup_insert_ne by done.
           apply elem_of_app in Hm as [?|?%list_elem_of_singleton]; [auto|done].
      * intros m v. rewrite lookup_insert. case_decide; [done|eauto].
      * intros m. rewrite lookup_insert. case_decide; subst; [done|eauto].
    + eexists; split; [done|]. split_and!.
      * intros m q Hq. rewrite lookup_insert_ne; [auto|congruence].
      * intros m Hm Hmc. destruct (decide (n = m)) as [->|Hne].
        -- rewrite lookup_insert_eq; eauto.
        -- rewrite lookup_insert_ne by done.
           apply elem_of_app in Hm as [?|?%list_elem_of_singleton]; [auto|done].
      * intros m v. rewrite lookup_insert. case_decide; [|eauto].
        intros [= <-]. destruct (Hl (py_min p ps)) as [(c & _ & Hc') _];
          [apply py_min_elem|eauto].
      * intros m. rewrite lookup_insert. case_decide; subst; [done|eauto].
Qed.

Lemma next_split_pass_total :
  ∃ ns, next_split_pass dag constant_nodes direct node_order = Ok ns
        ∧ next_split_inv constant_nodes direct node_order ns.
Proof.
  unfold next_split_pass.
  destruct (foldM_total (next_split_step dag constant_nodes direct)
              (next_split_inv constant_nodes direct) (rev node_order)
              (Some <$> direct))
    as (ns & Hns & Hinv).
  - split_and!.
    + intros n p Hp. by rewrite lookup_fmap, Hp.
    + by intros n ?%elem_of_nil.
    + intros n v. rewrite lookup_fmap.
      destruct (direct !! n) eqn:E; simpl; [|done]. intros [= <-]; eauto.
    + intros n. rewrite lookup_fmap. by destruct (direct !! n).
  - intros pre n post ns Heq. by apply next_split_step_inv with post.
  - exists ns; split; [done|].
    destruct Hinv as (? & Hvis & ? & ?); split_and!; try done.
    intros n Hn. apply Hvis. by apply elem_of_rev.
Qed.

End NextSplit.

Lemma parent_splits_elem (dag : OnnxDAG) (na : gmap string Z) (n : string)
    (v : Z) :
  v ∈ parent_splits dag na n
  ↔ ∃ q, q ∈ get_parents dag n false ∧ na !! q = Some v.
Proof. unfold parent_splits. by rewrite list_elem_of_omap. Qed.

(** ** The inclusive pass *)

Section InclusivePass.

Variable dag : OnnxDAG.
Variable constant_nodes : gset string.
Variable next_split : gmap string (option Z).
Variable direct : gmap string Z.
Variable node_order : list string.

Hypothesis next_split_known :
  ∀ n, n ∈ node_order -> n ∉ constant_nodes -> is_Some (next_split !! n).
Hypothesis next_split_values :
  ∀ n v, next_split !! n = Some (Some v) -> ∃ m, direct !! m = Some v.

Lemma inclusive_step_inv (pre post : list string) (n : string)
    (na : gmap string Z) :
  node_order = pre ++ n :: post ->
  inclusive_inv constant_nodes direct pre na ->
  ∃ na', inclusive_step dag constant_nodes next_split na n = Ok na'
         ∧ inclusive_inv constant_nodes direct (pre ++ [n]) na'.
Proof.
  intros Heq (Hkeep & Hvis & Hval & Hdom).
  unfold inclusive_step.
  destruct (skipped constant_nodes na n) eqn:Hs.
  - exists na; split; [done|]. split_and!; try done.
    intros m [Hm| ->%list_elem_of_singleton]%elem_of_app Hc; [auto|].
    by apply skipped_true in Hs as [?|?].
  - apply skipped_false in Hs as [Hd Hc].
    assert (Hins : ∀ v, (v = 0 ∨ ∃ m, direct !! m = Some v) ->
              inclusive_inv constant_nodes direct (pre ++ [n]) (<[n := v]> na)).
    { intros v Hv. split_and!.
      - intros m q Hq. rewrite lookup_insert_ne; [auto|].
        intros ->. apply Hkeep in Hq. congruence.
      - intros m Hm Hmc. rewrite lookup_insert. case_decide; [eauto|].
        apply elem_of_app in Hm as [?|?%list_elem_of_singleton]; [auto|done].
      - intros m w. rewrite lookup_insert. case_decide; [|eauto].
        by intros [= <-].
      - intros m. rewrite lookup_insert. case_decide; subst; [|eauto].
        by right. }
    destruct (parent_splits dag na n) as [|p ps] eqn:Ep.
    + destruct (next_split_known n) as [o Ho]; [rewrite Heq; list_mem|done|].
      rewrite Ho. destruct o as [v|]; (eexists; split; [done|]);
        apply Hins; [right; eauto|by left].
    + eexists; split; [done|]. apply Hins.
      pose proof (py_max_elem p ps) as Hin. rewrite <- Ep in Hin.
      apply parent_splits_elem in Hin as (q & _ & Hq). eauto.
Qed.

Lemma inclusive_pass_total :
  ∃ na, inclusive_pass dag constant_nodes next_split direct node_order
        = Ok na
        ∧ inclusive_inv constant_nodes direct node_order na.
Proof.
  apply foldM_total.
  - split_and!; eauto. by intros n ?%elem_of_nil.
  - intros pre n post na Heq. by apply inclusive_step_inv with post.
Qed.

End InclusivePass.

(** ** The constant pass *)

Section ConstantPass.

Variable dag : OnnxDAG.

Lemma consumer_splits_total (na : gmap string split_id) (k : string) :
  (∀ c l, c ∈ get_consumers dag k false -> na !! c ≠ Some (Multi l)) ->
  ∃ l, consumer_splits dag na k = Ok l ∧ NoDup l
       ∧ ∀ p, p ∈ l ↔ ∃ c, c ∈ get_consumers dag k false
                           ∧ na !! c = Some (Single p).
Proof.
  intros Hall. unfold consumer_splits.
  set (f := fun splits consumer => _).
  destruct (foldM_total f
    (fun pre acc => NoDup acc
       ∧ ∀ p, p ∈ acc ↔ ∃ c, c ∈ pre ∧ na !! c = Some (Single p))
    (get_consumers dag k false) []) as (l & Hl & HP); [| |eauto].
  - split; [constructor|]. intros v; split; [by intros ?%elem_of_nil|].
    by intros (c & ?%elem_of_nil & _).
  - intros pre c post acc Heq [Hnd HP]. unfold f.
    assert (Hc : c ∈ get_consumers dag k false) by (rewrite Heq; list_mem).
    destruct (na !! c) as [[p|l]|] eqn:Ec.
    + eexists; split; [done|]. case_bool_decide as Hp.
      * split; [done|]. intros v. rewrite HP. split.
        -- intros (c' & ? & ?); exists c'; list_mem.
        -- intros (c' & [?| ->%list_elem_of_singleton]%elem_of_app & E);
             [eauto|]. rewrite Ec in E. injection E as <-. by apply HP.
      * split.
        { apply NoDup_app. split_and!; [done| |apply NoDup_singleton].
          intros x Hx ->%list_elem_of_singleton. done. }
        intros v. rewrite elem_of_app, list_elem_of_singleton, HP. split.
        -- intros [(c' & ? & ?)| ->]; [exists c'|exists c]; list_mem.
        -- intros (c' & [?| ->%list_elem_of_singleton]%elem_of_app & E);
             [left; eauto|right; congruence].
    + by destruct (Hall c l).
    + eexists; split; [done|]. split; [done|]. intros v. rewrite HP. split.
      * intros (c' & ? & ?); exists c'; list_mem.
      * intros (c' & [?| ->%list_elem_of_singleton]%elem_of_app & E);
          [eauto|congruence].
Qed.

Variable na1 : gmap string Z.
Variable order : list string.

Hypothesis order_nodup : NoDup order.
Hypothesis unassigned : ∀ k, k ∈ order -> na1 !! k = None.
Hypothesis consumers_apart :
  ∀ k c, k ∈ order -> c ∈ get_consumers dag k false -> c ∉ order.

Lemma constant_step_inv (pre post : list string) (k : string)
    (na : gmap string split_id) :
  order = pre ++ k :: post ->
  constant_inv dag na1 pre na ->
  ∃ na', constant_step dag na k = Ok na' ∧ constant_inv dag na1 (pre ++ [k]) na'.
Proof.
  intros Heq [Hout Hin].
  assert (Hk : k ∈ order) by (rewrite Heq; list_mem).
  assert (Hkpre : k ∉ pre).
  { rewrite Heq in order_nodup.
    apply NoDup_app in order_nodup as (_ & Hd & _).
    intros ?. apply (Hd k); [done|left]. }
  assert (Hcons : ∀ c, c ∈ get_consumers dag k false ->
                    na !! c = Single <$> na1 !! c).
  { intros c Hc. apply Hout. intros Hcp.
    apply (consumers_apart k c Hk Hc). rewrite Heq. list_mem. }
  unfold constant_step.
  destruct (consumer_splits_total na k) as (l & -> & Hnd & Hl).
  { intros c l Hc. rewrite (Hcons c Hc). by destruct (na1 !! c). }
  simpl.
  assert (Hl' : ∀ p, p ∈ l ↔ ∃ c, c ∈ get_consumers dag k false
                                  ∧ na1 !! c = Some p).
  { intros p. rewrite Hl. split; intros (c & Hc & E); exists c; (split; [done|]).
    - rewrite (Hcons c Hc) in E. destruct (na1 !! c); simplify_eq/=; done.
    - rewrite (Hcons c Hc), E. done. }
  destruct l as [|p ps].
  - eexists; split; [done|]. split.
    + intros n Hn. apply Hout. intros ?; apply Hn; list_mem.
    + intros k' [?| ->%list_elem_of_singleton]%elem_of_app; [auto|].
      rewrite (Hout k Hkpre), (unassigned k Hk). simpl.
      intros c Hc. destruct (na1 !! c) as [q|] eqn:E; [|done].
      destruct (Hl' q) as [_ Hq]. exfalso.
      eapply elem_of_nil, Hq; eauto.
  - eexists; split; [done|]. split.
    + intros n Hn. rewrite lookup_insert_ne;
        [apply Hout; intros ?|intros ->]; apply Hn; list_mem.
    + intros k' [Hk'| ->%list_elem_of_singleton]%elem_of_app.
      * rewrite lookup_insert_ne; [auto|congruence].
      * rewrite lookup_insert_eq. simpl. split_and!; [done|done|exact Hl'].
Qed.

Lemma constant_pass_total :
  ∃ na, constant_pass dag order na1 = Ok na ∧ constant_inv dag na1 order na.
Proof.
  apply foldM_total.
  - split; [intros; apply lookup_fmap|]. by intros k ?%elem_of_nil.
  - intros pre k post na Heq. by apply constant_step_inv with post.
Qed.

End ConstantPass.

(** ** Well-formed graphs *)

Lemma well_formed_spec (dag : OnnxDAG) :
  well_formed dag = true ->
  NoDup (topological_sort dag)
  ∧ (∀ n, n ∈ topological_sort dag -> np_name (get_node_proto dag n) = n)
  ∧ consumers_later dag (topological_sort dag) = true
  ∧ (∀ n, n ∈ topological_sort dag -> get_node_op_type dag n = "Cast" ->
       get_parents dag n true ≠ []).
Proof.
  unfold well_formed. rewrite !andb_true_iff, bool_decide_eq_true.
  rewrite !forallb_forall. intros [[[Hnd Hname] Hlater] Hcast].
  split_and!; try done.
  - intros n Hn%list_elem_of_In. by apply String.eqb_eq, Hname.
  - intros n Hn%list_elem_of_In Hop E. apply Hcast in Hn.
    rewrite Hop, E in Hn. done.
Qed.

Lemma is_constant_node_false (dag : OnnxDAG) (n : string) :
  is_constant_node dag n = false ↔ get_node_op_type dag n ≠ "Constant".
Proof. unfold is_constant_node. apply String.eqb_neq. Qed.

Lemma consumers_not_constant (dag : OnnxDAG) (n c : string) :
  consumers_later dag (topological_sort dag) = true ->
  n ∈ topological_sort dag -> c ∈ get_consumers dag n false ->
  is_constant_node dag c = false.
Proof.
  intros Hlater (pre & post & Heq)%list_elem_of_split Hc. rewrite Heq in Hlater.
  by destruct (consumers_later_split dag pre post n c Hlater Hc).
Qed.

(** ** Lines 60-106 do not raise on a well-formed graph *)

Lemma prepare_total (dag : OnnxDAG) (sa : split_map) :
  sa ≠ [] ->
  consumers_later dag (topological_sort dag) = true ->
  ∃ depth direct cs ns,
    namespace_depth sa = Ok depth
    ∧ direct_pass dag sa depth (topological_sort dag) = (direct, cs)
    ∧ prepare dag sa = Ok (direct, cs, ns)
    ∧ next_split_inv cs direct (topological_sort dag) ns.
Proof.
  intros Hsa Hlater. destruct sa as [|[k v] sa]; [done|].
  unfold prepare; simpl.
  destruct (direct_pass dag ((k, v) :: sa) (key_depth k) (topological_sort dag))
    as [direct cs] eqn:Hd.
  destruct (next_split_pass_total dag cs direct (topological_sort dag) Hlater)
    as (ns & Hns & Hinv).
  { intros c Hc. pose proof (direct_pass_constants dag ((k, v) :: sa)
      (key_depth k) (topological_sort dag) c) as H. rewrite Hd in H.
    by apply H in Hc as [_ ?]. }
  exists (key_depth k), direct, cs, ns. simpl. by rewrite Hns.
Qed.

(** The constants found by the direct pass are the nodes handed to the
    constant pass, and no policy pass touches them. *)
Lemma constant_pass_ready (dag : OnnxDAG) (sa : split_map) (depth : nat)
    (direct na : gmap string Z) (cs : gset string) :
  consumers_later dag (topological_sort dag) = true ->
  direct_pass dag sa depth (topological_sort dag) = (direct, cs) ->
  (∀ n, is_Some (na !! n) -> is_Some (direct !! n) ∨ n ∉ cs) ->
  NoDup (elements cs)
  ∧ (∀ k, k ∈ elements cs -> na !! k = None)
  ∧ (∀ k c, k ∈ elements cs -> c ∈ get_consumers dag k false ->
       c ∉ elements cs).
Proof.
  intros Hlater Hd Hdom.
  pose proof (direct_pass_constants dag sa depth (topological_sort dag)) as Hcs.
  pose proof (direct_pass_assigned dag sa depth (topological_sort dag)) as Hna.
  rewrite Hd in Hcs, Hna. simpl in *.
  split_and!.
  - apply NoDup_elements.
  - intros k Hk%elem_of_elements. apply eq_None_not_Some. intros Hsome.
    apply Hdom in Hsome as [[p Hp]|?]; [|done].
    apply Hna in Hp as (_ & Hp & _). apply Hcs in Hk as [_ Hk]. congruence.
  - intros k c Hk%elem_of_elements Hc Hc'%elem_of_elements.
    apply Hcs in Hk as [Hk _]. apply Hcs in Hc' as [_ Hc'].
    pose proof (consumers_not_constant dag k c Hlater Hk Hc). congruence.
Qed.

(** C1, as amended: under the inclusive policy, on a well-formed graph and
    with a split map whose indices lie in [0, num_splits), the assignment
    phase ends normally and every node that is not a [Constant] is assigned
    exactly one partition index, which lies in [0, num_splits).  ([Constant]
    nodes are given the list of their consumers' partitions instead, or
    nothing.) *)
Theorem inclusive_assigns_every_operator (dag : OnnxDAG) (sa : split_map) :
  well_formed dag = true ->
  sa ≠ [] ->
  indices_in_range sa = true ->
  ∃ na, assign_nodes dag sa true = Ok na
        ∧ ∀ n, n ∈ topological_sort dag ->
               get_node_op_type dag n ≠ "Constant" ->
               ∃ p, na !! n = Some (Single p)
                    ∧ 0 <= p < Z.of_nat (num_splits sa).
Proof.
  intros (Hnd & _ & Hlater & _)%well_formed_spec Hsa Hrange.
  destruct (prepare_total dag sa Hsa Hlater)
    as (depth & direct & cs & ns & Hdepth & Hd & Hprep & Hseed & Hvis & Hval & _).
  pose proof (direct_pass_constants dag sa depth (topological_sort dag)) as Hcs.
  pose proof (direct_pass_assigned dag sa depth (topological_sort dag)) as Hna.
  rewrite Hd in Hcs, Hna. simpl in *.
  destruct (inclusive_pass_total dag cs ns direct (topological_sort dag)
              Hvis Hval) as (na1 & Hinc & Hkeep & Hall & Hvals & Hdom).
  destruct (constant_pass_ready dag sa depth direct na1 cs Hlater Hd Hdom)
    as (Hnd' & Hun & Hapart).
  destruct (constant_pass_total dag na1 (elements cs) Hnd' Hun Hapart)
    as (na & Hconst & Hout & _).
  exists na. split.
  - unfold assign_nodes. rewrite Hprep. simpl. by rewrite Hinc.
  - intros n Hn Hop.
    assert (Hncs : n ∉ cs).
    { intros [_ Hc]%Hcs. apply is_constant_node_false in Hop. congruence. }
    destruct (Hall n Hn Hncs) as [p Hp]. exists p. split.
    + rewrite Hout, Hp; [done|]. by rewrite elem_of_elements.
    + destruct (Hvals n p Hp) as [->|(m & Hm)].
      * pose proof (num_splits_pos sa Hsa). lia.
      * apply Hna in Hm as (_ & _ & Hm).
        by apply indices_in_range_get with (namespace_of depth m).
Qed.

Lemma inclusive_assigns_every_operator_witness :
  ∃ na, assign_nodes Replicated.dag Replicated.split_assignments true = Ok na
        ∧ ∀ n, n ∈ topological_sort Replicated.dag ->
               get_node_op_type Replicated.dag n ≠ "Constant" ->
               ∃ p, na !! n = Some (Single p)
                    ∧ 0 <= p
                      < Z.of_nat (num_splits Replicated.split_assignments).
Proof.
  apply (inclusive_assigns_every_operator Replicated.dag
           Replicated.split_assignments); [reflexivity|discriminate|reflexivity].
Defined.

(** C1, as stated, fails: in the graph [Replicated.graph] the constant [K]
    is read from partitions 0 and 2 and is assigned the list of both, and
    the constant [U], read by no node, is left without any assignment. *)
Lemma inclusive_constant_not_single :
  ∃ na, assign_nodes Replicated.dag Replicated.split_assignments true = Ok na
        ∧ "K" ∈ topological_sort Replicated.dag
        ∧ na !! "K" = Some (Multi [0; 2])
        ∧ "U" ∈ topological_sort Replicated.dag
        ∧ na !! "U" = None
        ∧ ¬ (∀ n, n ∈ topological_sort Replicated.dag ->
               ∃ p, na !! n = Some (Single p)
                    ∧ 0 <= p
                      < Z.of_nat (num_splits Replicated.split_assignments)).
Proof.
  eexists. split; [vm_compute; reflexivity|].
  split_and!; try (vm_compute; reflexivity).
  - cbn. list_mem.
  - cbn. list_mem.
  - intros H. destruct (H "U") as (p & Hp & _); [cbn; list_mem|].
    vm_compute in Hp. discriminate.
Qed.

(** ** The chain scenario *)

(** C2: on the chain [A -> B -> C -> D] with the split map [B -> 0, C -> 1]
    (keys of depth 1) and the inclusive policy, the assignment phase yields
    exactly [A -> 0, B -> 0, C -> 1, D -> 1]. *)
Theorem chain_inclusive_assignment :
  namespace_depth Chain.split_assignments = Ok 1%nat
  ∧ assign_nodes Chain.dag Chain.split_assignments true
    = Ok (list_to_map [("A", Single 0); ("B", Single 0);
                       ("C", Single 1); ("D", Single 1)]).
Proof. split; vm_compute; reflexivity. Qed.

(** ** Partition indices are used as they come *)

Lemma materialize_single_out_of_range (dag : OnnxDAG)
    (na : gmap string split_id) (p : Z) (n : string)
    (st : list SplitDag * missing_map) :
  py_norm (length st.1) p = None ->
  materialize_single dag na p n st = Raise IndexError.
Proof.
  intros H. unfold materialize_single. by rewrite (py_index_raise _ _ H).
Qed.

(** C10: the indices of the split map are not checked against
    [0 .. num_splits-1].  With the indices 0 and 2 on the chain,
    [num_splits] is 2, the node [C] keeps the raw index 2, and
    materialization reads [split_dags[2]] in a list of two: the run ends
    with an [IndexError], before any event. *)
Theorem gap_in_indices_index_error :
  well_formed Chain.dag = true
  ∧ map snd Gap.split_assignments = [0; 2]
  ∧ num_splits Gap.split_assignments = 2%nat
  ∧ (∃ na, assign_nodes Chain.dag Gap.split_assignments true = Ok na
           ∧ na !! "C" = Some (Single 2))
  ∧ run_graph [] Chain.graph (Some Gap.split_assignments) true
    = ([], Raise IndexError).
Proof.
  split_and!; try (vm_compute; reflexivity).
  eexists. split; vm_compute; reflexivity.
Qed.

(** ** Namespaces *)

Module PyStrFacts.
Import PyStr.

Lemma split_not_nil (sep : ascii) (s : string) : split sep s ≠ [].
Proof.
  destruct s as [|c s]; simpl; [done|].
  destruct (Ascii.eqb c sep); [done|]. by destruct (split sep s).
Qed.

Lemma split_sep_free (sep : ascii) (s : string) :
  Forall (fun w => sep_free sep w = true) (split sep s).
Proof.
  induction s as [|c s IH]; simpl; [by constructor|].
  destruct (Ascii.eqb c sep) eqn:E; [by constructor|].
  destruct (split sep s) as [|w ws]; [by constructor; simpl; rewrite ?E|].
  inversion IH; subst. constructor; [|done]. simpl. by rewrite E.
Qed.

Lemma split_app_sep (sep : ascii) (w r : string) :
  sep_free sep w = true ->
  split sep (String.append w (String sep r)) = w :: split sep r.
Proof.
  induction w as [|c w IH]; simpl; intros H.
  - by rewrite Ascii.eqb_refl.
  - apply andb_true_iff in H as [Hc Hw]. apply negb_true_iff in Hc.
    by rewrite Hc, (IH Hw).
Qed.

Lemma split_of_sep_free (sep : ascii) (w : string) :
  sep_free sep w = true -> split sep w = [w].
Proof.
  induction w as [|c w IH]; simpl; intros H; [done|].
  apply andb_true_iff in H as [Hc Hw]. apply negb_true_iff in Hc.
  by rewrite Hc, (IH Hw).
Qed.

Lemma split_join (sep : ascii) (l : list string) :
  l ≠ [] -> Forall (fun w => sep_free sep w = true) l ->
  split sep (join sep l) = l.
Proof.
  induction l as [|w l IH]; [done|]. intros _ Hl. inversion Hl; subst.
  destruct l as [|w' l]; simpl.
  - by apply split_of_sep_free.
  - rewrite split_app_sep by done. f_equal. by apply IH.
Qed.

End PyStrFacts.

Lemma key_depth_pos (key : string) : (0 < key_depth key)%nat.
Proof.
  unfold key_depth. pose proof (PyStrFacts.split_not_nil dot key).
  destruct (PyStr.split dot key); [done|simpl; lia].
Qed.

(** A namespace cut at depth [d] has at most [d] components. *)
Lemma namespace_of_depth (d : nat) (node_name : string) :
  (0 < d)%nat -> (key_depth (namespace_of d node_name) <= d)%nat.
Proof.
  intros Hd. unfold key_depth, namespace_of, name_components.
  set (s := PyStr.lstrip dot (PyStr.replace slash dot node_name)).
  rewrite PyStrFacts.split_join.
  - rewrite length_take. lia.
  - pose proof (PyStrFacts.split_not_nil dot s).
    destruct (PyStr.split dot s); [done|]. destruct d; [lia|done].
  - apply Forall_take, PyStrFacts.split_sep_free.
Qed.

(** C8, as amended: no check of the keys' depths is made; the depth of a
    run is the depth of the first key of the split map.  When all keys have
    the same depth it is the depth of every key; otherwise the run goes on
    with it, and a key that is deeper than the first one matches no node. *)
Theorem namespace_depth_from_first_key (sa : split_map) (d : nat) :
  namespace_depth sa = Ok d ->
  (∃ k v rest, sa = (k, v) :: rest ∧ d = key_depth k)
  ∧ (uniform_depth sa -> ∀ k', k' ∈ sa.*1 -> key_depth k' = d)
  ∧ (∀ k' node_name, (d < key_depth k')%nat -> namespace_of d node_name ≠ k').
Proof.
  destruct sa as [|[k v] rest]; simpl; [done|]. intros [= <-].
  split_and!.
  - eauto.
  - intros Hu k' Hk'. apply Hu; [done|]. simpl. left.
  - intros k' n Hlt <-.
    pose proof (namespace_of_depth (key_depth k) n (key_depth_pos k)). lia.
Qed.

Lemma namespace_depth_from_first_key_witness :
  (∃ k v rest, MixedDepth.split_assignments = (k, v) :: rest
               ∧ 1%nat = key_depth k)
  ∧ (uniform_depth MixedDepth.split_assignments ->
     ∀ k', k' ∈ MixedDepth.split_assignments.*1 -> key_depth k' = 1%nat)
  ∧ (∀ k' node_name, (1 < key_depth k')%nat -> namespace_of 1 node_name ≠ k').
Proof.
  apply (namespace_depth_from_first_key MixedDepth.split_assignments 1).
  reflexivity.
Defined.

(** C8, as stated, fails: the keys ["a"] and ["b.c"] have depths 1 and 2,
    and the run on [MixedDepth.graph] ends normally under both policies,
    with the depth 1 of the first key. *)
Lemma mixed_depth_run_proceeds :
  ¬ uniform_depth MixedDepth.split_assignments
  ∧ namespace_depth MixedDepth.split_assignments = Ok 1%nat
  ∧ is_ok (run_graph [] MixedDepth.graph
             (Some MixedDepth.split_assignments) true).2 = true
  ∧ is_ok (run_graph [] MixedDepth.graph
             (Some MixedDepth.split_assignments) false).2 = true.
Proof.
  split_and!; try (vm_compute; reflexivity).
  intros H.
  assert (E : key_depth "a" = key_depth "b.c")
    by (apply H; apply list_elem_of_In; simpl; auto).
  vm_compute in E. discriminate.
Qed.

(** ** Loops over a dictionary whose body writes at its own key only *)

Section OwnKey.

Context {V : Type}.
Variable f : gmap string V -> string -> result (gmap string V).

Hypothesis own_key :
  ∀ m x m' k, f m x = Ok m' -> k ≠ x -> m' !! k = m !! k.

Lemma foldM_other_keys (l : list string) (m0 m1 : gmap string V)
    (k : string) :
  foldM f l m0 = Ok m1 -> k ∉ l -> m1 !! k = m0 !! k.
Proof.
  revert m0; induction l as [|x l IH]; intros m0; simpl.
  - by intros [= ->].
  - destruct (f m0 x) as [m'|] eqn:E; [|done]. intros H Hk.
    rewrite (IH m' H); [|intros ?; apply Hk; by right].
    apply (own_key _ _ _ _ E). intros ->. apply Hk. left.
Qed.

Lemma foldM_own_key (pre post : list string) (x : string)
    (m0 m1 : gmap string V) :
  foldM f (pre ++ x :: post) m0 = Ok m1 -> x ∉ post ->
  ∃ mp mx, foldM f pre m0 = Ok mp ∧ f mp x = Ok mx ∧ m1 !! x = mx !! x.
Proof.
  rewrite foldM_app. intros (mp & Hpre & H)%bind_ok Hpost. simpl in H.
  destruct (f mp x) as [mx|] eqn:E; [|done].
  exists mp, mx. split_and!; [done..|]. by apply foldM_other_keys with post.
Qed.

End OwnKey.

(** ** The exclusive pass and the cast pass *)

Section ExclusivePass.

Variable dag : OnnxDAG.
Variable constant_nodes : gset string.
Variable next_split : gmap string (option Z).

Lemma exclusive_step_own_key (na : gmap string Z) (x : string)
    (na' : gmap string Z) (k : string) :
  exclusive_step dag constant_nodes next_split na x = Ok na' -> k ≠ x ->
  na' !! k = na !! k.
Proof.
  unfold exclusive_step. intros H Hk.
  repeat case_match; simplify_eq; try done; by rewrite lookup_insert_ne.
Qed.

Lemma cast_step_own_key (na : gmap string Z) (x : string)
    (na' : gmap string Z) (k : string) :
  cast_step dag na x = Ok na' -> k ≠ x -> na' !! k = na !! k.
Proof.
  unfold cast_step. intros H Hk.
  destruct (_ || _); [by simplify_eq|].
  apply bind_ok in H as (c & _ & H).
  destruct c as [p|]; [simplify_eq; by rewrite lookup_insert_ne|].
  apply bind_ok in H as (q & _ & H).
  repeat case_match; simplify_eq; try done; by rewrite lookup_insert_ne.
Qed.

Lemma constant_step_own_key (na : gmap string split_id) (x : string)
    (na' : gmap string split_id) (k : string) :
  constant_step dag na x = Ok na' -> k ≠ x -> na' !! k = na !! k.
Proof.
  unfold constant_step. intros (l & _ & H)%bind_ok Hk.
  destruct l; simplify_eq; [done|]. by rewrite lookup_insert_ne.
Qed.





Lemma constant_pass_other (order : list string) (na1 : gmap string Z)
    (na : gmap string split_id) (n : string) :
  constant_pass dag order na1 = Ok na -> n ∉ order ->
  na !! n = Single <$> na1 !! n.
Proof.
  unfold constant_pass. intros H Hn.
  rewrite (foldM_other_keys (constant_step dag) constant_step_own_key
             order _ _ n H Hn).
  apply lookup_fmap.
Qed.

End ExclusivePass.

Lemma cast_step_rule (dag : OnnxDAG) (na : gmap string Z) (n c q : string)
    (parents : list string) :
  na !! n = None ->
  get_node_op_type dag n = "Cast" ->
  get_consumers dag n true = [c] ->
  get_parents dag n true = q :: parents ->
  ∃ na', cast_step dag na n = Ok na'
         ∧ na' !! n = cast_rule dag na n c q.
Proof.
  intros Hn Hop Hc Hq. unfold cast_step, cast_rule.
  rewrite Hn, Hop, Hc, Hq. simpl.
  destruct (is_input_consumer dag n), (na !! c) as [pc|] eqn:Ec,
    (na !! q) as [pq|] eqn:Eq, (is_output_producer dag n); simpl;
    (eexists; split; [reflexivity|]);
    rewrite ?lookup_insert_eq, ?Hn, ?Ec, ?Eq; done.
Qed.

(** ** The builder operations *)

Lemma add_input_keeps (p : proto) (sd : SplitDag) :
  sd_node (add_input p sd) = sd_node sd
  ∧ sd_output (add_input p sd) = sd_output sd
  ∧ sd_initializer (add_input p sd) = sd_initializer sd.
Proof. unfold add_input. by case_bool_decide. Qed.

Lemma add_initializer_keeps (p : proto) (sd : SplitDag) :
  sd_node (add_initializer p sd) = sd_node sd
  ∧ sd_output (add_initializer p sd) = sd_output sd
  ∧ sd_input (add_initializer p sd) = sd_input sd
  ∧ sd_value_info (add_initializer p sd) = sd_value_info sd.
Proof. unfold add_initializer. by case_bool_decide. Qed.

Lemma add_value_info_keeps (p : proto) (b : bool) (sd : SplitDag) :
  sd_node (add_value_info p b sd) = sd_node sd
  ∧ sd_output (add_value_info p b sd) = sd_output sd
  ∧ sd_input (add_value_info p b sd) = sd_input sd
  ∧ sd_initializer (add_value_info p b sd) = sd_initializer sd.
Proof. unfold add_value_info. by destruct (_ || _). Qed.

Lemma make_output_elem (o o' : string) (sd : SplitDag) :
  sd_node (make_output o sd) = sd_node sd
  ∧ (o' ∈ sd_output (make_output o sd) ↔ o' ∈ sd_output sd ∨ o' = o).
Proof.
  unfold make_output. case_bool_decide; simpl; (split; [done|]).
  - split; [by left|]. by intros [?| ->].
  - by rewrite elem_of_app, list_elem_of_singleton.
Qed.

Lemma add_node_elem (np np' : NodeProto) (sd : SplitDag) :
  sd_output (add_node np sd) = sd_output sd
  ∧ (np' ∈ sd_node (add_node np sd)
     ↔ np' ∈ sd_node sd
       ∨ (np' = np ∧ np_name np ∉ map np_name (sd_node sd))).
Proof.
  unfold add_node. case_bool_decide; simpl; (split; [done|]).
  - tauto.
  - rewrite elem_of_app, list_elem_of_singleton. tauto.
Qed.

(** [add_node] only looks at the nodes already there. *)
Lemma add_node_nodes (np : NodeProto) (sd sd' : SplitDag) :
  sd_node sd' = sd_node sd ->
  sd_node (add_node np sd') = sd_node (add_node np sd).
Proof.
  intros H. unfold add_node. rewrite H. by case_bool_decide.
Qed.

Lemma add_node_idem (np : NodeProto) (sd : SplitDag) :
  sd_node (add_node np (add_node np sd)) = sd_node (add_node np sd).
Proof.
  unfold add_node at 1. case_bool_decide as H; [done|]. exfalso. apply H.
  unfold add_node. case_bool_decide as H'; simpl; [done|].
  rewrite map_app, elem_of_app. right. simpl. left.
Qed.

(** ** One node, one sub-graph *)

Section MaterializeNode.

Variable dag : OnnxDAG.
Variable na : gmap string split_id.

Lemma input_step_keeps (p : Z) (st st' : SplitDag * missing_map)
    (x : string) :
  input_step dag p st x = Ok st' ->
  sd_node st'.1 = sd_node st.1 ∧ sd_output st'.1 = sd_output st.1.
Proof.
  destruct st as [sd mv]. unfold input_step.
  destruct (String.eqb x ""); [by intros [= <-]|].
  destruct (is_io sd x); [by intros [= <-]|].
  destruct (is_input dag x || is_initializer dag x).
  - intros (sd1 & H1 & (sd2 & H2 & [= <-])%bind_ok)%bind_ok. simpl.
    assert (E1 : sd_node sd1 = sd_node sd ∧ sd_output sd1 = sd_output sd).
    { destruct (is_input dag x); [|by simplify_eq].
      apply bind_ok in H1 as (q & _ & [= <-]).
      by destruct (add_input_keeps q sd) as (-> & -> & _). }
    destruct E1 as [<- <-].
    destruct (is_initializer dag x); [|by simplify_eq].
    apply bind_ok in H2 as (q & _ & [= <-]).
    by destruct (add_initializer_keeps q sd1) as (-> & -> & _).
  - destruct (get_io_proto dag x) as [|q ?]; intros [= <-]; simpl.
    + by destruct (add_input_keeps (make_empty_tensor_value_info x) sd)
        as (-> & -> & _).
    + by destruct (add_input_keeps q sd) as (-> & -> & _).
Qed.

Lemma inputs_keep (p : Z) (l : list string) (st st' : SplitDag * missing_map) :
  foldM (input_step dag p) l st = Ok st' ->
  sd_node st'.1 = sd_node st.1 ∧ sd_output st'.1 = sd_output st.1.
Proof.
  revert st; induction l as [|x l IH]; intros st; simpl.
  - by intros [= <-].
  - destruct (input_step dag p st x) as [st1|] eqn:E; [|done].
    intros [-> ->]%IH. by apply input_step_keeps in E.
Qed.

Lemma output_step_elem (p : Z) (st : SplitDag * missing_map) (o o' : string) :
  sd_node (output_step dag na p st o).1 = sd_node st.1
  ∧ (o' ∈ sd_output (output_step dag na p st o).1
     ↔ o' ∈ sd_output st.1
       ∨ (o' = o ∧ o ≠ "" ∧ leaves_split dag na p o = true)).
Proof.
  destruct st as [sd mv]. unfold output_step.
  destruct (String.eqb o "") eqn:Eo.
  - apply String.eqb_eq in Eo. simpl. split; [done|]. split; [by left|].
    by intros [?|(_ & ? & _)].
  - apply String.eqb_neq in Eo.
    destruct (leaves_split dag na p o) eqn:El;
      destruct (get_io_proto dag o) as [|q ?]; simpl.
    + destruct (make_output_elem o o' sd) as [-> ->]. tauto.
    + destruct (add_value_info_keeps q false (make_output o sd))
        as (-> & -> & _).
      destruct (make_output_elem o o' sd) as [-> ->]. tauto.
    + split; [done|]. split; [tauto|]. by intros [?|(_ & _ & ?)].
    + destruct (add_value_info_keeps q false sd) as (-> & -> & _).
      split; [done|]. split; [tauto|]. by intros [?|(_ & _ & ?)].
Qed.

Lemma outputs_elem (p : Z) (l : list string) (st : SplitDag * missing_map)
    (o' : string) :
  sd_node (fold_left (output_step dag na p) l st).1 = sd_node st.1
  ∧ (o' ∈ sd_output (fold_left (output_step dag na p) l st).1
     ↔ o' ∈ sd_output st.1
       ∨ (o' ∈ l ∧ o' ≠ "" ∧ leaves_split dag na p o' = true)).
Proof.
  revert st; induction l as [|o l IH]; intros st; simpl.
  - split; [done|]. split; [by left|]. by intros [?|[?%elem_of_nil _]].
  - destruct (IH (output_step dag na p st o)) as [-> ->].
    destruct (output_step_elem p st o o') as [-> ->]. split; [done|].
    rewrite elem_of_cons. split.
    + intros [[?|(-> & ? & ?)]|(? & ? & ?)]; auto.
    + intros [?|([->|?] & ? & ?)]; auto.
Qed.

(** Lines 197-248 change one sub-graph: they add the node, and mark the
    outputs that are read from elsewhere. *)
Lemma materialize_single_spec (p : Z) (n : string)
    (st st' : list SplitDag * missing_map) :
  materialize_single dag na p n st = Ok st' ->
  ∃ j sd sd',
    py_norm (length st.1) p = Some j ∧ st.1 !! j = Some sd
    ∧ st'.1 = <[j := sd']> st.1
    ∧ sd_node sd' = sd_node (add_node (get_node_proto dag n) sd)
    ∧ ∀ o, o ∈ sd_output sd'
           ↔ o ∈ sd_output sd
             ∨ (o ∈ get_node_outputs dag n ∧ o ≠ ""
                ∧ leaves_split dag na p o = true).
Proof.
  unfold materialize_single.
  intros (sd & (j & Hj & Hsd)%py_index_ok & (st1 & H1 & [= <-])%bind_ok)%bind_ok.
  apply inputs_keep in H1 as [Hn Ho]. simpl in *.
  set (st2 := (add_node (get_node_proto dag n) st1.1, st1.2)).
  exists j, sd, (fold_left (output_step dag na p) (get_node_outputs dag n) st2).1.
  split_and!; [done..| | |].
  - unfold py_set. by rewrite Hj.
  - destruct (outputs_elem p (get_node_outputs dag n) st2 "") as [-> _].
    by apply add_node_nodes.
  - intros o. destruct (outputs_elem p (get_node_outputs dag n) st2 o)
      as [_ ->]. unfold st2; simpl.
    destruct (add_node_elem (get_node_proto dag n) (get_node_proto dag n)
                st1.1) as [-> _]. by rewrite Ho.
Qed.

(** Lines 251-252 add the node to every listed sub-graph and touch
    nothing else. *)
Lemma replicate_spec (n : string) (ids : list Z) (sds sds' : list SplitDag) :
  foldM (replicate_step dag n) ids sds = Ok sds' ->
  length sds' = length sds
  ∧ ∀ i sd, sds !! i = Some sd ->
      ∃ sd', sds' !! i = Some sd'
             ∧ sd_output sd' = sd_output sd
             ∧ ((∃ p, p ∈ ids ∧ py_norm (length sds) p = Some i) ->
                sd_node sd' = sd_node (add_node (get_node_proto dag n) sd))
             ∧ (¬ (∃ p, p ∈ ids ∧ py_norm (length sds) p = Some i) ->
                sd_node sd' = sd_node sd).
Proof.
  intros H.
  apply (foldM_inv (replicate_step dag n)
    (fun done cur =>
       length cur = length sds
       ∧ ∀ i sd, sds !! i = Some sd ->
           ∃ sd', cur !! i = Some sd'
                  ∧ sd_output sd' = sd_output sd
                  ∧ (sd_node sd' = sd_node sd
                     ∨ sd_node sd'
                       = sd_node (add_node (get_node_proto dag n) sd))
                  ∧ ((∃ p, p ∈ done ∧ py_norm (length sds) p = Some i) ->
                     sd_node sd'
                     = sd_node (add_node (get_node_proto dag n) sd))
                  ∧ (¬ (∃ p, p ∈ done ∧ py_norm (length sds) p = Some i) ->
                     sd_node sd' = sd_node sd)) ids sds sds') in H.
  - destruct H as [Hlen H]. split; [done|]. intros i sd Hi.
    destruct (H i sd Hi) as (sd' & ? & ? & _ & ? & ?). eauto.
  - split; [done|]. intros i sd Hi. exists sd. split_and!; auto.
    by intros (p & ?%elem_of_nil & _).
  - intros pre idx post cur cur' _ [Hlen Hcur].
    unfold replicate_step.
    intros (sdj & (j & Hj & Hsdj)%py_index_ok & [= <-])%bind_ok.
    split; [by rewrite py_set_length|].
    intros i sd Hi.
    destruct (Hcur i sd Hi) as (sd' & Hi' & Ho & Hor & Hyes & Hno).
    rewrite (py_set_lookup _ _ _ j i Hj). rewrite Hlen in Hj.
    destruct (decide (j = i)) as [->|Hne].
    + eexists; split; [done|]. rewrite Hsdj in Hi'. injection Hi' as ->.
      destruct (add_node_elem (get_node_proto dag n) (get_node_proto dag n)
                  sd') as [-> _].
      assert (E : sd_node (add_node (get_node_proto dag n) sd')
                  = sd_node (add_node (get_node_proto dag n) sd)).
      { destruct Hor as [Hor|Hor].
        - by apply add_node_nodes.
        - rewrite (add_node_nodes _ (add_node (get_node_proto dag n) sd) sd')
            by done. apply add_node_idem. }
      split_and!; [done|by right|done|].
      intros Hnex. exfalso. apply Hnex. exists idx. split; [list_mem|done].
    + exists sd'. split_and!; [done..| |].
      * intros (p & [Hp| ->%list_elem_of_singleton]%elem_of_app & Hp');
          [eauto|congruence].
      * intros Hnex. apply Hno. intros (p & Hp & Hp'). apply Hnex.
        exists p. split; [list_mem|done].
Qed.

End MaterializeNode.

(** ** The loop of lines 190-252 *)

Section MaterializeLoop.

Variable dag : OnnxDAG.
Variable na : gmap string split_id.
Variable n_splits : nat.

Hypothesis names :
  ∀ m, m ∈ topological_sort dag -> np_name (get_node_proto dag m) = m.

Lemma materialize_step_inv (pre post : list string) (n : string)
    (st st' : list SplitDag * missing_map) :
  topological_sort dag = pre ++ n :: post ->
  materialized dag na n_splits pre st ->
  materialize_step dag na st n = Ok st' ->
  materialized dag na n_splits (pre ++ [n]) st'.
Proof.
  intros Heq [Hlen Hst] Hstep.
  assert (Hpre : ∀ m, m ∈ pre -> m ∈ topological_sort dag)
    by (intros m ?; rewrite Heq; list_mem).
  assert (Hn : n ∈ topological_sort dag) by (rewrite Heq; list_mem).
  (* a node of an earlier step with the name of [n] is the proto of [n] *)
  assert (Hsame : ∀ i sd, st.1 !! i = Some sd ->
            np_name (get_node_proto dag n) ∈ map np_name (sd_node sd) ->
            get_node_proto dag n ∈ sd_node sd).
  { intros i sd Hi (np & Hnp & Hin)%list_elem_of_fmap.
    pose proof Hin as Hin'.
    apply (Hst i sd Hi) in Hin as (m & Hm & -> & _).
    rewrite (names n Hn), (names m (Hpre m Hm)) in Hnp. by subst. }
  unfold materialize_step in Hstep.
  destruct (na !! n) as [[p|ids]|] eqn:En.
  - (* a single partition *)
    apply materialize_single_spec in Hstep
      as (j & sd & sd' & Hj & Hsd & Hst' & Hnodes & Houts).
    pose proof (py_norm_lt _ _ _ Hj) as Hlt. rewrite Hlen in Hj.
    split; [by rewrite Hst', length_insert|].
    intros i sdi. rewrite Hst'. destruct (decide (j = i)) as [<-|Hne].
    + rewrite list_lookup_insert_eq by done. intros [= <-].
      destruct (Hst j sd Hsd) as [Hn1 Ho1]. split.
      * intros np. rewrite Hnodes.
        destruct (add_node_elem (get_node_proto dag n) np sd) as [_ ->].
        rewrite Hn1. split.
        -- intros [(m & Hm & ? & ?)|[-> _]].
           ++ exists m. split_and!; [list_mem|done..].
           ++ exists n. split_and!; [list_mem|done|].
              unfold placed. by rewrite En.
        -- intros (m & [Hm| ->%list_elem_of_singleton]%elem_of_app & -> & Hpl).
           ++ left. eauto.
           ++ destruct (decide (np_name (get_node_proto dag n)
                                ∈ map np_name (sd_node sd))) as [Hin|Hnin].
              ** left. apply Hn1. by apply (Hsame j sd Hsd).
              ** by right.
      * intros o. rewrite Houts, Ho1. split.
        -- intros [(m & Hm & ?)|(? & ? & ?)].
           ++ exists m. split; [list_mem|done].
           ++ exists n. split; [list_mem|]. exists p. by split_and!.
        -- intros (m & [Hm| ->%list_elem_of_singleton]%elem_of_app & Hmk).
           ++ left. eauto.
           ++ right. destruct Hmk as (p' & Hp' & _ & ? & ? & ?).
              by simplify_eq.
    + rewrite list_lookup_insert_ne by done. intros Hi.
      destruct (Hst i sdi Hi) as [Hn1 Ho1]. split.
      * intros np. rewrite Hn1. split.
        -- intros (m & Hm & ? & ?). exists m. split_and!; [list_mem|done..].
        -- intros (m & [Hm| ->%list_elem_of_singleton]%elem_of_app & ? & Hpl);
             [eauto|]. unfold placed in Hpl. rewrite En in Hpl. congruence.
      * intros o. rewrite Ho1. split.
        -- intros (m & Hm & ?). exists m. split; [list_mem|done].
        -- intros (m & [Hm| ->%list_elem_of_singleton]%elem_of_app & Hmk);
             [eauto|]. destruct Hmk as (p' & Hp' & Hj' & _).
           simplify_eq.
  - (* a replicated constant *)
    apply bind_ok in Hstep as (sds' & Hrep & [= <-]). simpl.
    apply replicate_spec in Hrep as [Hlen' Hrep]. rewrite Hlen in Hrep.
    split; [simpl; congruence|]. simpl.
    intros i sdi Hi.
    destruct (lookup_lt_is_Some_2 st.1 i) as [sd Hsd].
    { rewrite <- Hlen'. by apply lookup_lt_Some with sdi. }
    destruct (Hrep i sd Hsd) as (sd' & Hi' & Ho & Hyes & Hno).
    rewrite Hi in Hi'. injection Hi' as <-.
    destruct (Hst i sd Hsd) as [Hn1 Ho1]. split.
    + intros np.
      destruct (decide (Exists (fun p => py_norm n_splits p = Some i) ids))
        as [Hex|Hnex]; rewrite Exists_exists in *.
      * rewrite (Hyes Hex).
        destruct (add_node_elem (get_node_proto dag n) np sd) as [_ ->].
        rewrite Hn1. split.
        -- intros [(m & Hm & ? & ?)|[-> _]].
           ++ exists m. split_and!; [list_mem|done..].
           ++ exists n. split_and!; [list_mem|done|].
              unfold placed. by rewrite En.
        -- intros (m & [Hm| ->%list_elem_of_singleton]%elem_of_app & -> & Hpl).
           ++ left. eauto.
           ++ destruct (decide (np_name (get_node_proto dag n)
                                ∈ map np_name (sd_node sd))) as [Hin|Hnin].
              ** left. apply Hn1. by apply (Hsame i sd Hsd).
              ** by right.
      * rewrite (Hno Hnex), Hn1. split.
        -- intros (m & Hm & ? & ?). exists m. split_and!; [list_mem|done..].
        -- intros (m & [Hm| ->%list_elem_of_singleton]%elem_of_app & ? & Hpl);
             [eauto|]. unfold placed in Hpl. rewrite En in Hpl. done.
    + intros o. rewrite Ho, Ho1. split.
      * intros (m & Hm & ?). exists m. split; [list_mem|done].
      * intros (m & [Hm| ->%list_elem_of_singleton]%elem_of_app & Hmk);
          [eauto|]. destruct Hmk as (p' & Hp' & _). congruence.
  - (* unassigned *)
    injection Hstep as <-. split; [done|]. intros i sd Hi.
    destruct (Hst i sd Hi) as [Hn1 Ho1]. split.
    + intros np. rewrite Hn1. split.
      * intros (m & Hm & ? & ?). exists m. split_and!; [list_mem|done..].
      * intros (m & [Hm| ->%list_elem_of_singleton]%elem_of_app & ? & Hpl);
          [eauto|]. unfold placed in Hpl. by rewrite En in Hpl.
    + intros o. rewrite Ho1. split.
      * intros (m & Hm & ?). exists m. split; [list_mem|done].
      * intros (m & [Hm| ->%list_elem_of_singleton]%elem_of_app & Hmk);
          [eauto|]. destruct Hmk as (p' & Hp' & _). congruence.
Qed.

(** After the loop, a sub-graph holds the nodes assigned to it and has
    the outputs that leave it, and nothing else. *)
Lemma materialize_spec (st : list SplitDag * missing_map) :
  materialize dag na n_splits = Ok st ->
  materialized dag na n_splits (topological_sort dag) st.
Proof.
  apply foldM_inv.
  - split; [simpl; by rewrite length_replicate|]. simpl.
    intros i sd [-> _]%lookup_replicate. simpl. split.
    + intros np. split; [by intros ?%elem_of_nil|].
      by intros (m & ?%elem_of_nil & _).
    + intros o. split; [by intros ?%elem_of_nil|].
      by intros (m & ?%elem_of_nil & _).
  - intros pre n post st0 st1 Heq. by apply materialize_step_inv with post.
Qed.

End MaterializeLoop.

(** ** Materialization does not raise on indices in range *)

Lemma py_norm_some (len : nat) (i : Z) :
  - Z.of_nat len <= i < Z.of_nat len -> is_Some (py_norm len i).
Proof.
  intros H. unfold py_norm. destruct (i <? 0) eqn:E.
  - destruct ((0 <=? i + Z.of_nat len) && (i + Z.of_nat len <? Z.of_nat len))
      eqn:E'; [eauto|lia].
  - destruct ((0 <=? i) && (i <? Z.of_nat len)) eqn:E'; [eauto|lia].
Qed.

Lemma index_in_range_norm (n : nat) (p : Z) :
  index_in_range n p = true -> py_norm n p = Some (Z.to_nat p).
Proof. unfold index_in_range. intros H. apply py_norm_nonneg. lia. Qed.

Lemma assignments_in_range_lookup (n : nat) (na : gmap string split_id)
    (m : string) (a : split_id) :
  assignments_in_range n na = true -> na !! m = Some a ->
  split_id_in_range n a = true.
Proof.
  unfold assignments_in_range. rewrite forallb_forall.
  intros H Hm%elem_of_map_to_list%list_elem_of_In. by apply H in Hm.
Qed.

Section MaterializeTotal.

Variable dag : OnnxDAG.
Variable na : gmap string split_id.
Variable n_splits : nat.

Lemma input_step_total (p : Z) (st : SplitDag * missing_map) (x : string) :
  (is_input dag x || is_initializer dag x = true ->
   get_io_proto dag x ≠ []) ->
  ∃ st', input_step dag p st x = Ok st'.
Proof.
  intros Hio. destruct st as [sd mv]. unfold input_step.
  destruct (String.eqb x ""); [eauto|].
  destruct (is_io sd x); [eauto|].
  destruct (is_input dag x || is_initializer dag x) eqn:E.
  - assert (H0 : ∀ i, - 1 <= i <= 0 -> ∃ q, py_index (get_io_proto dag x) i = Ok q).
    { intros i Hi. apply py_index_norm, py_norm_some.
      destruct (get_io_proto dag x); [by destruct Hio|simpl; lia]. }
    destruct (H0 0) as [q0 ->]; [lia|]. destruct (H0 (-1)) as [q1 ->]; [lia|].
    destruct (is_input dag x), (is_initializer dag x); simpl; eauto.
  - destruct (get_io_proto dag x); eauto.
Qed.

Lemma inputs_total (p : Z) (l : list string) (st : SplitDag * missing_map) :
  (∀ x, x ∈ l -> is_input dag x || is_initializer dag x = true ->
        get_io_proto dag x ≠ []) ->
  ∃ st', foldM (input_step dag p) l st = Ok st'.
Proof.
  intros Hl.
  destruct (foldM_total (input_step dag p) (fun _ _ => True) l st)
    as (st' & H & _); [done| |eauto].
  intros pre x post s Heq _.
  destruct (input_step_total p s x) as [s' Hs']; [|eauto].
  apply Hl. rewrite Heq. list_mem.
Qed.

Hypothesis in_range : assignments_in_range n_splits na = true.
Hypothesis protos : protos_present dag = true.

Lemma materialize_total : ∃ st, materialize dag na n_splits = Ok st.
Proof.
  destruct (foldM_total (materialize_step dag na)
              (fun _ st => length st.1 = n_splits) (topological_sort dag)
              (replicate n_splits empty_split_dag, [])) as (st & H & _);
    [by simpl; rewrite length_replicate| |by exists st].
  intros pre n post st Heq Hlen. unfold materialize_step.
  destruct (na !! n) as [[p|ids]|] eqn:En; [| |eauto].
  - pose proof (assignments_in_range_lookup _ _ _ _ in_range En) as Hp.
    simpl in Hp. apply index_in_range_norm in Hp.
    unfold materialize_single.
    destruct (proj2 (py_index_norm st.1 p)) as [sd ->];
      [rewrite Hlen; eauto|]. simpl.
    destruct (inputs_total p (get_node_inputs dag n) (sd, st.2)) as [st1 ->].
    { intros x Hx Hio. unfold protos_present in protos.
      rewrite forallb_forall in protos.
      assert (Hn : n ∈ topological_sort dag) by (rewrite Heq; list_mem).
      apply list_elem_of_In, protos in Hn. rewrite forallb_forall in Hn.
      apply list_elem_of_In, Hn in Hx. rewrite Hio in Hx. simpl in Hx.
      intros E. by rewrite E in Hx. }
    simpl. eexists; split; [done|]. simpl. by rewrite py_set_length.
  - pose proof (assignments_in_range_lookup _ _ _ _ in_range En) as Hids.
    simpl in Hids. rewrite forallb_forall in Hids.
    destruct (foldM_total (replicate_step dag n)
                (fun _ sds => length sds = n_splits) ids st.1)
      as (sds' & -> & Hlen'); [done| |by simpl; eauto].
    intros pre' idx post' sds Heq' Hl. unfold replicate_step.
    destruct (proj2 (py_index_norm sds idx)) as [sd ->].
    { rewrite Hl. rewrite (index_in_range_norm n_splits idx); [eauto|].
      apply Hids, list_elem_of_In. rewrite Heq'. list_mem. }
    simpl. eexists; split; [done|]. by rewrite py_set_length.
Qed.

End MaterializeTotal.

(** ** The policy passes do not raise on a well-formed graph *)

Section PolicyTotal.

Variable dag : OnnxDAG.
Variable constant_nodes : gset string.
Variable next_split : gmap string (option Z).
Variable direct : gmap string Z.
Variable node_order : list string.

Hypothesis next_split_known :
  ∀ n, n ∈ node_order -> n ∉ constant_nodes -> is_Some (next_split !! n).
Hypothesis next_split_values :
  ∀ n v, next_split !! n = Some (Some v) -> ∃ m, direct !! m = Some v.

Lemma exclusive_inv_insert (na : gmap string Z) (n : string) (v : Z) :
  exclusive_inv constant_nodes direct na -> na !! n = None -> n ∉ constant_nodes ->
  (∃ m, direct !! m = Some v) -> exclusive_inv constant_nodes direct (<[n := v]> na).
Proof.
  intros (Hkeep & Hval & Hdom) Hn Hc Hv. split_and!.
  - intros m q Hq. rewrite lookup_insert_ne; [auto|].
    intros ->. apply Hkeep in Hq. congruence.
  - intros m w. rewrite lookup_insert. case_decide; [|eauto].
    by intros [= <-].
  - intros m. rewrite lookup_insert. case_decide; subst; [|eauto].
    by right.
Qed.

Lemma exclusive_pass_total :
  ∃ na, exclusive_pass dag constant_nodes next_split direct node_order
        = Ok na
        ∧ exclusive_inv constant_nodes direct na.
Proof.
  apply (foldM_total _ (fun _ na => exclusive_inv constant_nodes direct na)).
  - split_and!; eauto.
  - intros pre n post na Heq Hinv. unfold exclusive_step.
    destruct (skipped constant_nodes na n) eqn:Hs; [eauto|].
    apply skipped_false in Hs as [Hd Hc].
    destruct (next_split_known n) as [o Ho]; [rewrite Heq; list_mem|done|].
    rewrite Ho. destruct o as [v|]; [|eauto].
    destruct (parent_splits dag na n) as [|p ps] eqn:Ep.
    + destruct (forallb _ _); [|eauto]. eexists; split; [done|].
      apply exclusive_inv_insert; eauto.
    + eexists; split; [done|]. apply exclusive_inv_insert; try done.
      pose proof (py_max_elem p ps) as Hin. rewrite <- Ep in Hin.
      apply parent_splits_elem in Hin as (q & _ & Hq).
      destruct Hinv as (_ & Hval & _). eauto.
Qed.

Hypothesis constants :
  ∀ c, c ∈ constant_nodes -> is_constant_node dag c = true.
Hypothesis casts_have_parent :
  ∀ n, n ∈ node_order -> get_node_op_type dag n = "Cast" ->
       get_parents dag n true ≠ [].

Lemma cast_pass_total (na0 : gmap string Z) :
  exclusive_inv constant_nodes direct na0 ->
  ∃ na, cast_pass dag na0 node_order = Ok na ∧ exclusive_inv constant_nodes direct na.
Proof.
  intros H0. apply (foldM_total _ (fun _ na => exclusive_inv constant_nodes direct na)); [done|].
  intros pre n post na Heq Hinv. unfold cast_step.
  destruct (bool_decide (is_Some (na !! n))) eqn:E1; [eauto|].
  destruct (String.eqb (get_node_op_type dag n) "Cast") eqn:E2; [|eauto].
  destruct (length (get_consumers dag n true) =? 1)%nat eqn:E3; [|eauto].
  simpl. apply bool_decide_eq_false in E1. apply eq_None_not_Some in E1.
  apply String.eqb_eq in E2. apply Nat.eqb_eq in E3.
  assert (Hc : n ∉ constant_nodes).
  { intros Hc%constants. unfold is_constant_node in Hc.
    rewrite E2 in Hc. done. }
  assert (Hins : ∀ q p, na !! q = Some p ->
            ∃ na', Ok (<[n := p]> na) = Ok na' ∧ exclusive_inv constant_nodes direct na').
  { intros q p Hq. eexists; split; [done|].
    apply exclusive_inv_insert; try done.
    destruct Hinv as (_ & Hval & _). eauto. }
  destruct (get_consumers dag n true) as [|c [|? ?]] eqn:Ec; try done.
  destruct (get_parents dag n true) as [|q ?] eqn:Eq.
  { destruct (casts_have_parent n); [rewrite Heq; list_mem|done..]. }
  unfold py_index; simpl.
  destruct (is_input_consumer dag n); simpl.
  - destruct (na !! c) as [p|] eqn:Enc; [by apply Hins with c|].
    destruct (na !! q) as [p|] eqn:Enq; [|eauto].
    destruct (is_output_producer dag n); [by apply Hins with q|eauto].
  - destruct (na !! q) as [p|] eqn:Enq; [|eauto].
    destruct (is_output_producer dag n); [by apply Hins with q|eauto].
Qed.

End PolicyTotal.

(** ** The assignment phase as a whole *)

Lemma prepare_inv (dag : OnnxDAG) (sa : split_map) (direct : gmap string Z)
    (cs : gset string) (ns : gmap string (option Z)) :
  prepare dag sa = Ok (direct, cs, ns) ->
  ∃ depth, namespace_depth sa = Ok depth
           ∧ direct_pass dag sa depth (topological_sort dag) = (direct, cs)
           ∧ next_split_pass dag cs direct (topological_sort dag) = Ok ns.
Proof.
  unfold prepare. intros (depth & Hd & (ns' & Hns & [= <- <- <-])%bind_ok)%bind_ok.
  exists depth. split_and!; [done| |done].
  by destruct (direct_pass dag sa depth (topological_sort dag)).
Qed.

(** On a well-formed graph the assignment phase ends normally, under
    either policy; the indices it hands out are 0 or indices of the split
    map, and the constants are resolved from their consumers. *)
Lemma assign_nodes_total (dag : OnnxDAG) (sa : split_map) (inc : bool) :
  well_formed dag = true -> sa ≠ [] ->
  ∃ depth direct cs ns na1 na,
    direct_pass dag sa depth (topological_sort dag) = (direct, cs)
    ∧ prepare dag sa = Ok (direct, cs, ns)
    ∧ policy_pass dag inc cs ns direct (topological_sort dag) = Ok na1
    ∧ assign_nodes dag sa inc = Ok na
    ∧ constant_inv dag na1 (elements cs) na
    ∧ (∀ n v, na1 !! n = Some v -> v = 0 ∨ ∃ m, direct !! m = Some v).
Proof.
  intros (Hnd & _ & Hlater & Hcast)%well_formed_spec Hsa.
  destruct (prepare_total dag sa Hsa Hlater)
    as (depth & direct & cs & ns & Hdepth & Hd & Hprep & Hseed & Hvis & Hval & _).
  pose proof (direct_pass_constants dag sa depth (topological_sort dag)) as Hcs.
  rewrite Hd in Hcs. simpl in Hcs.
  assert (Hpol : ∃ na1,
            policy_pass dag inc cs ns direct (topological_sort dag) = Ok na1
            ∧ (∀ n v, na1 !! n = Some v -> v = 0 ∨ ∃ m, direct !! m = Some v)
            ∧ (∀ n, is_Some (na1 !! n) -> is_Some (direct !! n) ∨ n ∉ cs)).
  { unfold policy_pass. destruct inc.
    - destruct (inclusive_pass_total dag cs ns direct (topological_sort dag)
                  Hvis Hval) as (na1 & -> & _ & _ & Hvals & Hdom). eauto.
    - destruct (exclusive_pass_total dag cs ns direct (topological_sort dag)
                  Hvis Hval) as (na0 & -> & Hinv0). simpl.
      destruct (cast_pass_total dag cs direct (topological_sort dag)
                  (fun c Hc => proj2 (proj1 (Hcs c) Hc)) Hcast na0 Hinv0)
        as (na1 & -> & _ & Hvals & Hdom).
      exists na1. split_and!; [done| |done]. intros n v Hv. right. eauto. }
  destruct Hpol as (na1 & Hpol & Hvals & Hdom).
  destruct (constant_pass_ready dag sa depth direct na1 cs Hlater Hd Hdom)
    as (Hnd' & Hun & Hapart).
  destruct (constant_pass_total dag na1 (elements cs) Hnd' Hun Hapart)
    as (na & Hconst & Hinv).
  exists depth, direct, cs, ns, na1, na. split_and!; try done.
  unfold assign_nodes. rewrite Hprep. simpl. by rewrite Hpol.
Qed.

Lemma index_in_range_iff (n : nat) (p : Z) :
  index_in_range n p = true ↔ 0 <= p < Z.of_nat n.
Proof. unfold index_in_range. lia. Qed.

(** With the indices of the split map in range, so are the assignments. *)
Lemma assign_nodes_in_range (dag : OnnxDAG) (sa : split_map) (inc : bool)
    (na : gmap string split_id) :
  well_formed dag = true -> sa ≠ [] -> indices_in_range sa = true ->
  assign_nodes dag sa inc = Ok na ->
  assignments_in_range (num_splits sa) na = true.
Proof.
  intros Hwf Hsa Hrange Hna.
  destruct (assign_nodes_total dag sa inc Hwf Hsa)
    as (depth & direct & cs & ns & na1 & na' & Hd & _ & _ & Hna' & [Hout Hin]
        & Hvals).
  rewrite Hna in Hna'. injection Hna' as <-.
  pose proof (direct_pass_assigned dag sa depth (topological_sort dag)) as Hdir.
  rewrite Hd in Hdir. simpl in Hdir.
  assert (Hv : ∀ n v, na1 !! n = Some v -> index_in_range (num_splits sa) v = true).
  { intros n v [->|(m & Hm)]%Hvals; apply index_in_range_iff.
    - pose proof (num_splits_pos sa Hsa). lia.
    - apply Hdir in Hm as (_ & _ & Hm).
      by apply indices_in_range_get with (namespace_of depth m). }
  unfold assignments_in_range. apply forallb_forall.
  intros [m a] Hma%list_elem_of_In%elem_of_map_to_list. simpl.
  destruct (decide (m ∈ elements cs)) as [Hm|Hm].
  - specialize (Hin m Hm). rewrite Hma in Hin. destruct a as [p|l]; [done|].
    destruct Hin as (_ & _ & Hl). simpl. apply forallb_forall.
    intros p (c & _ & Hc)%list_elem_of_In%Hl. eauto.
  - rewrite (Hout m Hm) in Hma. destruct (na1 !! m) as [v|] eqn:E; [|done].
    injection Hma as <-. simpl. eauto.
Qed.

(** ** Where a node ends up *)

Section Placement.

Variable dag : OnnxDAG.
Variable na : gmap string split_id.
Variable n_splits : nat.
Variable split_dags : list SplitDag.
Variable missing_vi : missing_map.

Hypothesis names :
  ∀ m, m ∈ topological_sort dag -> np_name (get_node_proto dag m) = m.
Hypothesis done :
  materialize dag na n_splits = Ok (split_dags, missing_vi).

(** The index of a node that was materialized is one [split_dags] has. *)
Lemma materialize_index_ok (n : string) (p : Z) :
  n ∈ topological_sort dag -> na !! n = Some (Single p) ->
  is_Some (py_norm n_splits p).
Proof.
  intros Hn Hp.
  pose proof (foldM_inv (materialize_step dag na)
    (fun visited st =>
       length st.1 = n_splits
       ∧ ∀ m q, m ∈ visited -> na !! m = Some (Single q) ->
                is_Some (py_norm n_splits q))
    (topological_sort dag) (replicate n_splits empty_split_dag, [])
    (split_dags, missing_vi)) as H.
  destruct H as [_ H]; [| |exact done|by eauto].
  - split; [simpl; by rewrite length_replicate|].
    by intros m q ?%elem_of_nil.
  - intros pre m post st st' _ [Hlen Hpre] Hstep.
    unfold materialize_step in Hstep.
    destruct (na !! m) as [[q|ids]|] eqn:Em.
    + apply materialize_single_spec in Hstep
        as (j & sd & sd' & Hj & _ & -> & _).
      split; [by rewrite length_insert|]. rewrite Hlen in Hj.
      intros m' q' [?| ->%list_elem_of_singleton]%elem_of_app Hq'; [eauto|].
      simplify_eq. eauto.
    + apply bind_ok in Hstep as (sds' & [Hl _]%replicate_spec & [= <-]).
      split; [simpl; congruence|].
      intros m' q' [?| ->%list_elem_of_singleton]%elem_of_app Hq'; [eauto|].
      congruence.
    + injection Hstep as <-. split; [done|].
      intros m' q' [?| ->%list_elem_of_singleton]%elem_of_app Hq'; [eauto|].
      congruence.
Qed.

(** A node with a single partition is in the sub-graph of that partition. *)
Lemma materialize_places (n : string) (p : Z) :
  n ∈ topological_sort dag -> na !! n = Some (Single p) ->
  ∃ sd, py_index split_dags p = Ok sd ∧ get_node_proto dag n ∈ sd_node sd.
Proof.
  intros Hn Hp. destruct (materialize_index_ok n p Hn Hp) as [j Hj].
  destruct (materialize_spec dag na n_splits names _ done) as [Hlen Hst].
  simpl in *.
  destruct (lookup_lt_is_Some_2 split_dags j) as [sd Hsd].
  { rewrite Hlen. by apply py_norm_lt with p. }
  exists sd. split.
  - apply py_index_ok. exists j. by rewrite Hlen.
  - apply (Hst j sd Hsd). exists n. split_and!; [done..|].
    unfold placed. by rewrite Hp.
Qed.


End Placement.

Lemma assign_nodes_inv (dag : OnnxDAG) (sa : split_map) (inc : bool)
    (na : gmap string split_id) :
  assign_nodes dag sa inc = Ok na ->
  ∃ direct cs ns na1,
    prepare dag sa = Ok (direct, cs, ns)
    ∧ policy_pass dag inc cs ns direct (topological_sort dag) = Ok na1
    ∧ constant_pass dag (elements cs) na1 = Ok na.
Proof.
  unfold assign_nodes.
  intros ([[direct cs] ns] & Hp & (na1 & Hpol & Hc)%bind_ok)%bind_ok.
  by exists direct, cs, ns, na1.
Qed.

Lemma prepare_nonempty (dag : OnnxDAG) (sa : split_map)
    (r : gmap string Z * gset string * gmap string (option Z)) :
  prepare dag sa = Ok r -> sa ≠ [].
Proof. intros H ->. discriminate H. Qed.

(** ** The exclusive policy *)




(** ** Constants *)



(** The scenario of the spec, evaluated: [K] is assigned [[0; 2]], its proto
    is the first node of sub-graphs 0 and 2, sub-graph 1 holds [M] alone, and
    the constant [U], which nobody reads, is in none of them. *)
Example replicated_constant_copies :
  ∃ na sd0 sd1 sd2 missing_vi,
    assign_nodes Replicated.dag Replicated.split_assignments true = Ok na
    ∧ materialize Replicated.dag na 3 = Ok ([sd0; sd1; sd2], missing_vi)
    ∧ na !! "K" = Some (Multi [0; 2])
    ∧ na !! "U" = None
    ∧ map np_name (sd_node sd0) = ["K"; "B"]
    ∧ map np_name (sd_node sd1) = ["M"]
    ∧ map np_name (sd_node sd2) = ["K"; "C"].
Proof.
  eexists _, _, _, _, _.
  split; [vm_compute; reflexivity|].
  split; [vm_compute; reflexivity|].
  split_and!; vm_compute; reflexivity.
Qed.

(** ** Outputs of a sub-graph *)




(** The outputs of the two sub-graphs of the chain, evaluated: [b] leaves
    sub-graph 0 (it is read by [C]) and [d] leaves sub-graph 1 (it is a graph
    output); [a] and [c] stay inside. *)
Example chain_outputs :
  ∃ na sd0 sd1 missing_vi,
    assign_nodes Chain.dag Chain.split_assignments true = Ok na
    ∧ materialize Chain.dag na 2 = Ok ([sd0; sd1], missing_vi)
    ∧ sd_output sd0 = ["b"] ∧ sd_output sd1 = ["d"].
Proof.
  eexists _, _, _, _.
  split; [vm_compute; reflexivity|].
  split; [vm_compute; reflexivity|].
  split; vm_compute; reflexivity.
Qed.

(** ** Casts on a partition boundary *)

(** C7: under the exclusive policy, take a [Cast] node [n] that the main
    pass left unassigned, with the single consumer [c] (the graph-output
    marker counts) and the parent [q], and let [na_seen] be the assignments
    when the cast pass visits [n].  If [n] reads a graph input and [c] is
    assigned, [n] gets the partition of [c]; otherwise, if [q] is assigned
    and [n] produces a graph output, [n] gets the partition of [q]; otherwise
    [n] stays unassigned.  When [n] gets a partition, its proto is a node of
    that sub-graph. *)
Theorem cast_inherits_partition (dag : OnnxDAG) (sa : split_map)
    (direct : gmap string Z) (cs : gset string) (ns : gmap string (option Z))
    (na_main na_seen : gmap string Z) (na : gmap string split_id)
    (split_dags : list SplitDag) (missing_vi : missing_map)
    (pre post : list string) (n c q : string) :
  well_formed dag = true ->
  prepare dag sa = Ok (direct, cs, ns) ->
  exclusive_pass dag cs ns direct (topological_sort dag) = Ok na_main ->
  topological_sort dag = pre ++ n :: post ->
  cast_pass dag na_main pre = Ok na_seen ->
  assign_nodes dag sa false = Ok na ->
  materialize dag na (num_splits sa) = Ok (split_dags, missing_vi) ->
  na_main !! n = None ->
  get_node_op_type dag n = "Cast" ->
  get_consumers dag n true = [c] ->
  get_parents dag n true = [q] ->
  (is_input_consumer dag n = true ->
   ∀ p, na_seen !! c = Some p -> na !! n = Some (Single p))
  ∧ (is_input_consumer dag n = false ∨ na_seen !! c = None ->
     is_output_producer dag n = true ->
     ∀ p, na_seen !! q = Some p -> na !! n = Some (Single p))
  ∧ (is_input_consumer dag n = false ∨ na_seen !! c = None ->
     is_output_producer dag n = false ∨ na_seen !! q = None ->
     na !! n = None)
  ∧ (∀ p, na !! n = Some (Single p) ->
          ∃ sd, py_index split_dags p = Ok sd
                ∧ get_node_proto dag n ∈ sd_node sd).
Proof.
  intros Hwf Hprep Hmain Heq Hseen Hna Hmat Hun Hop Hc Hq.
  pose proof Hwf as (Hnd & Hnames & _)%well_formed_spec.
  assert (Hn : n ∈ topological_sort dag) by (rewrite Heq; list_mem).
  rewrite Heq in Hnd. apply NoDup_app in Hnd as (_ & Hpre & Hpost).
  apply NoDup_cons in Hpost as [Hpost _].
  assert (Hnpre : n ∉ pre) by (intros ?; apply (Hpre n); [done|left]).
  (* the final assignment of [n] is what the cast rule gives *)
  assert (Hrule : na !! n = Single <$> cast_rule dag na_seen n c q).
  { apply assign_nodes_inv in Hna as (d2 & c2 & n2 & na1 & Hp2 & Hpol & Hconst).
    rewrite Hprep in Hp2. injection Hp2 as <- <- <-.
    unfold policy_pass in Hpol. apply bind_ok in Hpol as (na0 & Hex & Hcp).
    rewrite Hmain in Hex. injection Hex as <-.
    unfold cast_pass in Hcp, Hseen. rewrite Heq in Hcp.
    apply (foldM_own_key (cast_step dag) (cast_step_own_key dag)) in Hcp
      as (mp & mx & Hmp & Hmx & Hfin); [|done].
    rewrite Hseen in Hmp. injection Hmp as <-.
    pose proof (foldM_other_keys (cast_step dag) (cast_step_own_key dag)
                  pre na_main na_seen n Hseen Hnpre) as Hsame.
    destruct (cast_step_rule dag na_seen n c q [] (eq_trans Hsame Hun) Hop Hc Hq)
      as (na' & Hstep & Hval).
    rewrite Hmx in Hstep. injection Hstep as <-.
    apply prepare_inv in Hprep as (depth & _ & Hd & _).
    pose proof (direct_pass_constants dag sa depth (topological_sort dag) n)
      as Hcs. rewrite Hd in Hcs. simpl in Hcs.
    rewrite (constant_pass_other dag _ _ _ n Hconst).
    - by rewrite Hfin, Hval.
    - rewrite elem_of_elements. intros [_ Hconstn]%Hcs.
      unfold is_constant_node in Hconstn. by rewrite Hop in Hconstn. }
  unfold cast_rule in Hrule.
  split_and!.
  - intros Hi p Hp. by rewrite Hrule, Hi, Hp.
  - intros Hfirst Ho p Hp. rewrite Hrule, Ho, Hp.
    destruct Hfirst as [->| ->]; [done|].
    by destruct (is_input_consumer dag n).
  - intros Hfirst Hsecond. rewrite Hrule.
    destruct Hfirst as [->| ->], Hsecond as [->| ->];
      destruct (is_input_consumer dag n), (is_output_producer dag n),
        (na_seen !! c), (na_seen !! q); done.
  - intros p Hp.
    by apply (materialize_places dag na (num_splits sa) split_dags missing_vi
                Hnames Hmat).
Qed.

(** [cast_in] of [x -> cast_in -> B -> cast_out -> y] reads the graph input
    [x], its single consumer [B] is in partition 0: it is assigned 0 and is
    a node of sub-graph 0. *)
Lemma cast_inherits_partition_witness :
  ∃ na_main na split_dags missing_vi,
    exclusive_pass Casts.dag ∅ {[ "cast_in" := Some 0; "B" := Some 0;
                                   "cast_out" := None ]}
                   {[ "B" := 0 ]} (topological_sort Casts.dag) = Ok na_main
    ∧ na_main !! "cast_in" = None
    ∧ assign_nodes Casts.dag Casts.split_assignments false = Ok na
    ∧ materialize Casts.dag na (num_splits Casts.split_assignments)
      = Ok (split_dags, missing_vi)
    ∧ na !! "cast_in" = Some (Single 0)
    ∧ ∃ sd, py_index split_dags 0 = Ok sd
            ∧ get_node_proto Casts.dag "cast_in" ∈ sd_node sd.
Proof.
  eexists _, _, _, _.
  split; [vm_compute; reflexivity|].
  split; [vm_compute; reflexivity|].
  split; [vm_compute; reflexivity|].
  split; [vm_compute; reflexivity|].
  epose proof (cast_inherits_partition Casts.dag Casts.split_assignments
                {[ "B" := 0 ]} ∅
                {[ "cast_in" := Some 0; "B" := Some 0; "cast_out" := None ]}
                {[ "B" := 0 ]} {[ "B" := 0 ]} _ _ _
                [] ["B"; "cast_out"] "cast_in" "B" "__input__") as H.
  destruct H as (Hfirst & _ & _ & Hplaced);
    [reflexivity|vm_compute; reflexivity|vm_compute; reflexivity|reflexivity
    |vm_compute; reflexivity|vm_compute; reflexivity|vm_compute; reflexivity
    |reflexivity|reflexivity|reflexivity|reflexivity|].
  split; [by apply Hfirst|]. apply Hplaced. by apply Hfirst.
Defined.

(** ** Inputs of a materialized node *)

Lemma py_index_first {A : Type} (l : list A) : py_index l 0 = 
  match l with [] => Raise IndexError | x :: _ => Ok x end.
Proof.
  destruct l as [|x l]; [done|]. unfold py_index, py_norm.
  replace (0 <? 0) with false by done.
  destruct ((0 <=? 0) && (0 <? Z.of_nat (length (x :: l)))) eqn:E; [done|].
  change (length (x :: l)) with (S (length l)) in E. exfalso.
  apply andb_false_iff in E as [E|E];
    [apply Z.leb_gt in E|apply Z.ltb_ge in E]; lia.
Qed.

Lemma py_index_last {A : Type} (l : list A) : py_index l (-1) =
  match last l with None => Raise IndexError | Some x => Ok x end.
Proof.
  destruct l as [|x l]; [done|]. unfold py_index, py_norm.
  replace (-1 <? 0) with true by done.
  set (n := length (x :: l)).
  destruct ((0 <=? -1 + Z.of_nat n) && (-1 + Z.of_nat n <? Z.of_nat n)) eqn:E.
  - replace (Z.to_nat (-1 + Z.of_nat n)) with (Nat.pred n) by lia.
    unfold n. by rewrite <- last_lookup.
  - unfold n in E. change (length (x :: l)) with (S (length l)) in E.
    exfalso. apply andb_false_iff in E as [E|E];
      [apply Z.leb_gt in E|apply Z.ltb_ge in E]; lia.
Qed.

Lemma missing_append_deferred (x y : string) (p q : Z) (m : missing_map) :
  deferred (missing_append x p m) y q ↔ deferred m y q ∨ (y = x ∧ q = p).
Proof.
  unfold deferred. induction m as [|[k ps] m IH]; simpl.
  - split.
    + intros (ps & Hin & Hq). apply list_elem_of_singleton in Hin.
      injection Hin as -> ->. apply list_elem_of_singleton in Hq. by right.
    + intros [(ps & ?%elem_of_nil & _)|[-> ->]]; [done|].
      exists [p]. split; apply list_elem_of_singleton; done.
  - destruct (String.eqb k x) eqn:E.
    + apply String.eqb_eq in E as ->. split.
      * intros (ps' & [[= -> ->]|Hin]%elem_of_cons & Hq).
        -- apply elem_of_app in Hq as [?| ->%list_elem_of_singleton].
           ++ left. exists ps. split; [left|done].
           ++ by right.
        -- left. exists ps'. split; [by right|done].
      * intros [(ps' & [[= -> ->]|Hin]%elem_of_cons & Hq)|[-> ->]].
        -- exists (ps ++ [p]). split; [left|list_mem].
        -- exists ps'. split; [by right|done].
        -- exists (ps ++ [p]). split; [left|list_mem].
    + split.
      * intros (ps' & [[= -> ->]|Hin]%elem_of_cons & Hq).
        -- left. exists ps. split; [left|done].
        -- destruct (proj1 IH) as [(ps'' & ? & ?)|?]; [eauto| |by right].
           left. exists ps''. split; [by right|done].
      * intros [(ps' & [[= -> ->]|Hin]%elem_of_cons & Hq)|Heq].
        -- exists ps. split; [left|done].
        -- destruct (proj2 IH) as (ps'' & ? & ?); [left; eauto|].
           exists ps''. split; [by right|done].
        -- destruct (proj2 IH) as (ps'' & ? & ?); [by right|].
           exists ps''. split; [by right|done].
Qed.

Lemma is_io_false (sd : SplitDag) (x : string) :
  is_io sd x = false ->
  (x ∉ sd_input sd) ∧ (x ∉ map proto_name (sd_initializer sd))
  ∧ (x ∉ produced sd).
Proof.
  unfold is_io. rewrite !orb_false_iff, !bool_decide_eq_false. tauto.
Qed.

Lemma io_protos_ok_spec (dag : OnnxDAG) (x : string) :
  io_protos_ok dag x = true ->
  (∀ q, q ∈ get_io_proto dag x -> proto_name q = x)
  ∧ (is_input dag x || is_initializer dag x = true -> get_io_proto dag x ≠ []).
Proof.
  unfold io_protos_ok. rewrite andb_true_iff, forallb_forall.
  intros [Hn Hp]. split.
  - intros q Hq%list_elem_of_In. by apply String.eqb_eq, Hn.
  - intros Hio E. rewrite Hio, E in Hp. done.
Qed.

(** C6: one turn of the loop over the inputs of a node resolved to the
    partition [p], for a non-empty name [x] that sub-graph [p] does not have
    yet.  If [x] is a graph input or an initializer of the main graph, the
    input facet (the first proto of [x]) and the initializer facet (the last
    proto) are each copied when they apply, both when both do, and nothing
    is deferred.  Otherwise [x] becomes an input of the sub-graph: with its
    value-info when the main graph has one, and else as an empty
    placeholder, with [(x, p)] added to the deferred list. *)
Theorem input_step_handles_new_input (dag : OnnxDAG) (p : Z)
    (sd : SplitDag) (mv : missing_map) (x : string) :
  x ≠ "" ->
  is_io sd x = false ->
  io_protos_ok dag x = true ->
  ∃ sd' mv',
    input_step dag p (sd, mv) x = Ok (sd', mv')
    ∧ sd_node sd' = sd_node sd ∧ sd_output sd' = sd_output sd
    ∧ if is_input dag x || is_initializer dag x then
        mv' = mv
        ∧ (if is_input dag x then
             sd_input sd' = sd_input sd ++ [x]
             ∧ sd_value_info sd' !! x = head (get_io_proto dag x)
           else
             sd_input sd' = sd_input sd
             ∧ sd_value_info sd' = sd_value_info sd)
        ∧ (if is_initializer dag x then
             ∃ t, last (get_io_proto dag x) = Some t
                  ∧ sd_initializer sd' = sd_initializer sd ++ [t]
           else sd_initializer sd' = sd_initializer sd)
      else
        sd_input sd' = sd_input sd ++ [x]
        ∧ sd_initializer sd' = sd_initializer sd
        ∧ match get_io_proto dag x with
          | first :: _ =>
              sd_value_info sd' !! x = Some first ∧ mv' = mv
          | [] =>
              sd_value_info sd' !! x = Some (make_empty_tensor_value_info x)
              ∧ mv' = missing_append x p mv
              ∧ deferred mv' x p
          end.
Proof.
  intros Hx Hio [Hnames Hpresent]%io_protos_ok_spec.
  pose proof Hio as (Hin & Hinit & _)%is_io_false.
  apply String.eqb_neq in Hx.
  unfold input_step. rewrite Hx, Hio.
  rewrite py_index_first, py_index_last.
  destruct (is_input dag x) eqn:Ei, (is_initializer dag x) eqn:Et; simpl.
  - (* both facets *)
    destruct (get_io_proto dag x) as [|q0 l] eqn:Eio; [by destruct Hpresent|].
    destruct (last (q0 :: l)) as [t|] eqn:El; [|by apply last_None in El].
    simpl.
    assert (E0 : proto_name q0 = x) by (apply Hnames; left).
    assert (Et' : proto_name t = x).
    { apply Hnames. rewrite last_lookup in El. by apply list_elem_of_lookup_2 in El. }
    eexists _, _. split; [done|].
    unfold add_initializer, add_input. rewrite E0, Et'.
    rewrite (bool_decide_eq_false_2 (x ∈ sd_input sd)) by done. simpl.
    rewrite (bool_decide_eq_false_2 (x ∈ map proto_name (sd_initializer sd)))
      by done. simpl.
    split_and!; try done; [by rewrite lookup_insert_eq|eauto].
  - (* a graph input only *)
    destruct (get_io_proto dag x) as [|q0 l] eqn:Eio; [by destruct Hpresent|].
    simpl. assert (E0 : proto_name q0 = x) by (apply Hnames; left).
    eexists _, _. split; [done|].
    unfold add_input. rewrite E0.
    rewrite (bool_decide_eq_false_2 (x ∈ sd_input sd)) by done. simpl.
    split_and!; try done. by rewrite lookup_insert_eq.
  - (* an initializer only *)
    destruct (get_io_proto dag x) as [|q0 l] eqn:Eio; [by destruct Hpresent|].
    destruct (last (q0 :: l)) as [t|] eqn:El; [|by apply last_None in El].
    simpl.
    assert (Et' : proto_name t = x).
    { apply Hnames. rewrite last_lookup in El. by apply list_elem_of_lookup_2 in El. }
    eexists _, _. split; [done|].
    unfold add_initializer. rewrite Et'.
    rewrite (bool_decide_eq_false_2 (x ∈ map proto_name (sd_initializer sd)))
      by done. simpl.
    split_and!; try done. eauto.
  - (* a value that crosses partitions *)
    destruct (get_io_proto dag x) as [|q0 l] eqn:Eio.
    + eexists _, _. split; [done|].
      unfold add_input. simpl.
      rewrite (bool_decide_eq_false_2 (x ∈ sd_input sd)) by done. simpl.
      split_and!; try done; [by rewrite lookup_insert_eq|].
      apply missing_append_deferred. by right.
    + assert (E0 : proto_name q0 = x) by (apply Hnames; left).
      eexists _, _. split; [done|].
      unfold add_input. rewrite E0.
      rewrite (bool_decide_eq_false_2 (x ∈ sd_input sd)) by done. simpl.
      split_and!; try done. by rewrite lookup_insert_eq.
Qed.

(** [m] of [Replicated.graph] has no value-info in the main graph: read
    into the empty sub-graph 2, it becomes a placeholder input and [(m, 2)]
    is deferred. *)
Lemma input_step_handles_new_input_witness :
  ∃ sd' mv',
    input_step Replicated.dag 2 (empty_split_dag, []) "m" = Ok (sd', mv')
    ∧ sd_input sd' = ["m"]
    ∧ sd_value_info sd' !! "m" = Some (make_empty_tensor_value_info "m")
    ∧ mv' = [("m", [2])]
    ∧ deferred mv' "m" 2.
Proof.
  destruct (input_step_handles_new_input Replicated.dag 2 empty_split_dag []
              "m") as (sd' & mv' & Hstep & _ & _ & Hin & _ & Hvi & Hmv & Hdef);
    [discriminate|reflexivity|reflexivity|].
  exists sd', mv'. by split_and!.
Defined.

(** Both facets of [w] in [Facets.graph] reach the sub-graph: [w] is a
    declared input with its value-info, and its tensor is an initializer. *)
Example both_facets_copied :
  ∃ na sd missing_vi,
    assign_nodes Facets.dag Facets.split_assignments true = Ok na
    ∧ materialize Facets.dag na 1 = Ok ([sd], missing_vi)
    ∧ sd_input sd = ["x"; "w"]
    ∧ sd_initializer sd = [TensorProto "w" "0x3f800000"]
    ∧ sd_value_info sd !! "w" = Some (GraphModel.typed "w")
    ∧ sd_output sd = ["y"]
    ∧ missing_vi = [("y", [0])].
Proof.
  eexists _, _, _.
  split; [vm_compute; reflexivity|].
  split; [vm_compute; reflexivity|].
  split_and!; vm_compute; reflexivity.
Qed.

(** ** The deferred list *)

Section Deferred.

Variable dag : OnnxDAG.
Variable na : gmap string split_id.

Lemma input_step_deferred (p : Z) (st st' : SplitDag * missing_map)
    (x y : string) (q : Z) :
  input_step dag p st x = Ok st' ->
  deferred st'.2 y q -> deferred st.2 y q ∨ q = p.
Proof.
  destruct st as [sd mv]. unfold input_step.
  destruct (String.eqb x ""); [intros [= <-]; auto|].
  destruct (is_io sd x); [intros [= <-]; auto|].
  destruct (is_input dag x || is_initializer dag x).
  - intros (sd1 & _ & (sd2 & _ & [= <-])%bind_ok)%bind_ok. auto.
  - destruct (get_io_proto dag x); intros [= <-]; simpl; [|auto].
    intros [?|[_ ?]]%missing_append_deferred; auto.
Qed.

Lemma inputs_deferred (p : Z) (l : list string)
    (st st' : SplitDag * missing_map) (y : string) (q : Z) :
  foldM (input_step dag p) l st = Ok st' ->
  deferred st'.2 y q -> deferred st.2 y q ∨ q = p.
Proof.
  revert st; induction l as [|x l IH]; intros st; simpl.
  - intros [= <-]. auto.
  - destruct (input_step dag p st x) as [st1|] eqn:E; [|done].
    intros H [Hd|?]%(IH _ H); [|auto]. by apply (input_step_deferred _ _ _ _ _ _ E).
Qed.

Lemma output_step_deferred (p : Z) (st : SplitDag * missing_map)
    (o y : string) (q : Z) :
  deferred (output_step dag na p st o).2 y q -> deferred st.2 y q ∨ q = p.
Proof.
  destruct st as [sd mv]. unfold output_step.
  destruct (String.eqb o ""); [auto|].
  destruct (get_io_proto dag o); simpl; [|auto].
  destruct (leaves_split dag na p o); simpl; [|auto].
  intros [?|[_ ?]]%missing_append_deferred; auto.
Qed.

Lemma outputs_deferred (p : Z) (l : list string)
    (st : SplitDag * missing_map) (y : string) (q : Z) :
  deferred (fold_left (output_step dag na p) l st).2 y q ->
  deferred st.2 y q ∨ q = p.
Proof.
  revert st; induction l as [|o l IH]; intros st; simpl; [auto|].
  intros [Hd|?]%IH; [|auto]. by apply output_step_deferred in Hd.
Qed.

(** Every deferred pair carries an index that [split_dags] has. *)
Lemma materialize_deferred_valid (n_splits : nat)
    (st : list SplitDag * missing_map) :
  materialize dag na n_splits = Ok st ->
  length st.1 = n_splits
  ∧ ∀ y q, deferred st.2 y q -> is_Some (py_norm n_splits q).
Proof.
  apply (foldM_inv (materialize_step dag na)
    (fun _ st => length st.1 = n_splits
                 ∧ ∀ y q, deferred st.2 y q -> is_Some (py_norm n_splits q))).
  - split; [simpl; by rewrite length_replicate|].
    by intros y q (ps & ?%elem_of_nil & _).
  - intros pre n post st0 st1 _ [Hlen Hdef]. unfold materialize_step.
    destruct (na !! n) as [[p|ids]|].
    + unfold materialize_single.
      intros (sd & (j & Hj & _)%py_index_ok & (st2 & Hin & [= <-])%bind_ok)%bind_ok.
      simpl. split; [by rewrite py_set_length|]. rewrite Hlen in Hj.
      intros y q [Hd| ->]%outputs_deferred; [|eauto]. simpl in Hd.
      apply (inputs_deferred _ _ _ _ _ _ Hin) in Hd as [Hd| ->]; eauto.
    + intros (sds' & [Hl _]%replicate_spec & [= <-])%bind_ok. simpl.
      split; [congruence|done].
    + by intros [= <-].
Qed.

End Deferred.

(** ** Backfilling from shape inference *)

Section Resolve.

Variable inferred : string -> list proto.
Variable n_splits : nat.

Lemma overwrite_keeps (sds : list SplitDag) (j0 : nat) (sd0 : SplitDag)
    (x0 : string) (first : proto) (x : string) (j : nat) :
  sds !! j0 = Some sd0 -> head (inferred x0) = Some first ->
  proto_name first = x0 ->
  backfilled inferred sds x j ->
  backfilled inferred (<[j0 := add_value_info first true sd0]> sds) x j.
Proof.
  intros H0 Hf Hn (sd & f & Hsd & Hh & Hvi).
  destruct (decide (j0 = j)) as [->|Hne].
  - exists (add_value_info first true sd0), f.
    rewrite list_lookup_insert_eq by (by apply lookup_lt_Some with sd0).
    split_and!; [done..|]. unfold add_value_info; simpl. rewrite Hn.
    rewrite lookup_insert. case_decide; subst; simplify_eq; done.
  - exists sd, f. by rewrite list_lookup_insert_ne.
Qed.

Lemma overwrite_sets (sds : list SplitDag) (j0 : nat) (sd0 : SplitDag)
    (x0 : string) (first : proto) :
  sds !! j0 = Some sd0 -> head (inferred x0) = Some first ->
  proto_name first = x0 ->
  backfilled inferred (<[j0 := add_value_info first true sd0]> sds) x0 j0.
Proof.
  intros H0 Hf Hn.
  exists (add_value_info first true sd0), first.
  rewrite list_lookup_insert_eq by (by apply lookup_lt_Some with sd0).
  split_and!; [done..|]. unfold add_value_info; simpl. rewrite Hn.
  by rewrite lookup_insert_eq.
Qed.

(** Lines 264-268 for one entry whose name was inferred. *)
Lemma resolve_step_total (sds : list SplitDag) (x : string) (ps : list Z)
    (first : proto) :
  length sds = n_splits ->
  (∀ p, p ∈ ps -> is_Some (py_norm n_splits p)) ->
  head (inferred x) = Some first ->
  proto_name first = x ->
  ∃ sds', resolve_step inferred sds (x, ps) = Ok sds'
          ∧ length sds' = n_splits
          ∧ (∀ y j, backfilled inferred sds y j -> backfilled inferred sds' y j)
          ∧ (∀ p j, p ∈ ps -> py_norm n_splits p = Some j ->
                    backfilled inferred sds' x j).
Proof.
  intros Hlen Hvalid Hf Hname. unfold resolve_step. simpl.
  destruct (inferred x) as [|f rest] eqn:Ex; [done|].
  injection Hf as ->.
  apply (foldM_total _
    (fun visited cur =>
       length cur = n_splits
       ∧ (∀ y j, backfilled inferred sds y j -> backfilled inferred cur y j)
       ∧ (∀ p j, p ∈ visited -> py_norm n_splits p = Some j ->
                 backfilled inferred cur x j))).
  - split_and!; [done..|]. by intros p j ?%elem_of_nil.
  - intros pre idx post cur Heq (Hl & Hkeep & Hset).
    destruct (Hvalid idx) as [j0 Hj0]; [rewrite Heq; list_mem|].
    destruct (lookup_lt_is_Some_2 cur j0) as [sd0 Hsd0].
    { rewrite Hl. by apply py_norm_lt with idx. }
    assert (Hh : head (inferred x) = Some first) by (by rewrite Ex).
    assert (py_index cur idx = Ok sd0) as ->.
    { apply py_index_ok. exists j0. by rewrite Hl. }
    simpl. eexists; split; [done|].
    unfold py_set. rewrite Hl, Hj0.
    split_and!.
    + by rewrite length_insert.
    + intros y j Hb.
      apply (overwrite_keeps cur j0 sd0 x first); [done|done|done|auto].
    + intros p j [Hp| ->%list_elem_of_singleton]%elem_of_app Hj.
      * apply (overwrite_keeps cur j0 sd0 x first); [done|done|done|].
        by apply (Hset p j).
      * rewrite Hj0 in Hj. injection Hj as <-. by apply overwrite_sets.
Qed.

(** Lines 263-268: the loop raises [ValueError] when a deferred name was
    not inferred, and otherwise backfills every deferred pair. *)
Lemma resolve_all (mv : missing_map) (sds : list SplitDag) :
  length sds = n_splits ->
  (∀ x p, deferred mv x p -> is_Some (py_norm n_splits p)) ->
  inferred_named inferred mv = true ->
  ((∃ x ps, (x, ps) ∈ mv ∧ inferred x = []) ->
   foldM (resolve_step inferred) mv sds = Raise ValueError)
  ∧ ((∀ x ps, (x, ps) ∈ mv -> inferred x ≠ []) ->
     ∃ sds', foldM (resolve_step inferred) mv sds = Ok sds'
             ∧ length sds' = n_splits
             ∧ ∀ x p j, deferred mv x p -> py_norm n_splits p = Some j ->
                        backfilled inferred sds' x j).
Proof.
  intros Hlen Hvalid Hnamed.
  assert (Hnames : ∀ x ps first rest, (x, ps) ∈ mv ->
            inferred x = first :: rest -> proto_name first = x).
  { intros x ps first rest Hin%list_elem_of_In Ex.
    unfold inferred_named in Hnamed. rewrite forallb_forall in Hnamed.
    apply Hnamed in Hin. simpl in Hin. rewrite Ex in Hin. simpl in Hin.
    apply andb_true_iff in Hin as [Hin _]. by apply String.eqb_eq. }
  clear Hnamed. split.
  - revert sds Hlen. induction mv as [|[x ps] mv IH]; intros sds Hlen.
    { by intros (x & ps & ?%elem_of_nil & _). }
    intros (x' & ps' & Hin & Hx'). simpl.
    destruct (inferred x) as [|first rest] eqn:Ex.
    { unfold resolve_step. simpl. by rewrite Ex. }
    destruct (resolve_step_total sds x ps first Hlen) as (sds1 & -> & Hl1 & _).
    { intros p Hp. apply (Hvalid x p). exists ps. split; [left|done]. }
    { by rewrite Ex. }
    { apply (Hnames x ps first rest); [left|done]. }
    apply IH; [| |done|].
    + intros y q (ps0 & ? & ?). apply (Hvalid y q). exists ps0.
      split; [by right|done].
    + intros y ps0 f r ?. apply (Hnames y ps0 f r). by right.
    + apply elem_of_cons in Hin as [[= -> ->]|Hin]; [congruence|eauto].
  - intros Hall.
    apply (foldM_total _
      (fun visited cur =>
         length cur = n_splits
         ∧ ∀ x p j, deferred visited x p -> py_norm n_splits p = Some j ->
                    backfilled inferred cur x j)).
    + split; [done|]. by intros x p j (ps & ?%elem_of_nil & _).
    + intros pre [x ps] post cur Heq [Hl Hpre].
      assert (Hin : (x, ps) ∈ mv) by (rewrite Heq; list_mem).
      destruct (inferred x) as [|first rest] eqn:Ex; [by destruct (Hall x ps)|].
      destruct (resolve_step_total cur x ps first Hl)
        as (cur' & Hstep & Hl' & Hkeep & Hset).
      { intros p Hp. apply (Hvalid x p). by exists ps. }
      { by rewrite Ex. }
      { by apply (Hnames x ps first rest). }
      exists cur'. split_and!; [done..|].
      intros y q j (ps0 & [Hps0|Hps0%list_elem_of_singleton]%elem_of_app & Hq) Hj.
      * apply Hkeep, (Hpre y q j); [by exists ps0|done].
      * injection Hps0 as -> ->. by apply (Hset q j).
Qed.

End Resolve.

(** ** The run and its trace *)

Section RunTrace.

Variable ModelProto : Type.
Variable build_dag : ModelProto -> OnnxDAG.
Variable infer_shapes : ModelProto -> bool -> string -> list proto.

Lemma serialize_all_trace (sds : list SplitDag) :
  infer_calls (serialize_all ModelProto sds) = []
  ∧ serialized (serialize_all ModelProto sds)
    = (components sds).*1.
Proof.
  unfold serialize_all. induction (components sds) as [|c l [IH1 IH2]];
    simpl; [done|]. by rewrite IH2.
Qed.

Lemma components_snd (sds : list SplitDag) : (components sds).*2 = sds.
Proof.
  unfold components.
  assert (G : ∀ (g : nat -> string) (l : list SplitDag),
            (imap (fun i sd => (g i, sd)) l).*2 = l).
  { intros g l. revert g. induction l as [|sd l IH]; intros g; simpl; [done|].
    f_equal. apply (IH (g ∘ S)). }
  apply (G split_name).
Qed.

(** When anything before the shape-inference call fails, the run fails
    with an empty trace: no call and no serialization. *)
Lemma run_fails_early (model : ModelProto) (md : option split_map)
    (inc : bool) :
  match md with
  | None | Some [] => True
  | Some sa => ∃ e, split_graph ModelProto build_dag model sa inc = Raise e
  end ->
  (run ModelProto build_dag infer_shapes model md inc).1 = []
  ∧ ∃ e, (run ModelProto build_dag infer_shapes model md inc).2 = Raise e.
Proof.
  unfold run. destruct md as [[|kv sa]|]; [eauto..| |eauto].
  intros [e ->]. eauto.
Qed.

(** C9: when materialization has ended with the deferred list
    [missing_vi], the collaborator is called once, on the model proto of the
    run and with auto-merge on, if the list is not empty, and not at all if
    it is empty.  If some deferred name is not inferred, the run ends with a
    [ValueError] and the call is its only event: nothing is serialized.  If
    every deferred name is inferred, the run ends normally, every
    split is serialized, and for each deferred pair [(x, p)] the value-info
    of [x] in sub-graph [p] is the inferred one. *)
Theorem missing_metadata_resolution (model : ModelProto) (sa : split_map)
    (inc : bool) (split_dags : list SplitDag) (missing_vi : missing_map) :
  sa ≠ [] ->
  split_graph ModelProto build_dag model sa inc = Ok (split_dags, missing_vi) ->
  inferred_named (infer_shapes model true) missing_vi = true ->
  let r := run ModelProto build_dag infer_shapes model (Some sa) inc in
  infer_calls r.1
  = (if bool_decide (missing_vi = []) then [] else [(model, true)])
  ∧ ((∃ x ps, (x, ps) ∈ missing_vi ∧ infer_shapes model true x = []) ->
     r = ([InferShapes model true], Raise ValueError))
  ∧ ((∀ x ps, (x, ps) ∈ missing_vi -> infer_shapes model true x ≠ []) ->
     ∃ out, r.2 = Ok out
            ∧ serialized r.1 = out.*1
            ∧ length out = length split_dags
            ∧ ∀ x p, deferred missing_vi x p ->
                ∃ sd first,
                  py_index out.*2 p = Ok sd
                  ∧ head (infer_shapes model true x) = Some first
                  ∧ sd_value_info sd !! x = Some first).
Proof.
  intros Hsa Hsplit Hnamed r.
  assert (Hvalid : length split_dags = num_splits sa
                   ∧ ∀ x p, deferred missing_vi x p ->
                            is_Some (py_norm (num_splits sa) p)).
  { unfold split_graph in Hsplit. apply bind_ok in Hsplit as (na & _ & Hmat).
    by apply (materialize_deferred_valid (build_dag model) na) in Hmat. }
  destruct Hvalid as [Hlen Hvalid].
  destruct (resolve_all (infer_shapes model true) (num_splits sa) missing_vi
              split_dags Hlen Hvalid Hnamed) as [Hbad Hgood].
  unfold r, run. destruct sa as [|kv sa]; [done|]. rewrite Hsplit.
  destruct missing_vi as [|entry mv].
  - (* nothing was deferred *)
    simpl. destruct (serialize_all_trace split_dags) as [-> ->].
    split_and!; [done| |].
    + by intros (x & ps & ?%elem_of_nil & _).
    + intros _. eexists. split_and!; [done..| |].
      * unfold components. by rewrite length_imap.
      * by intros x p (ps & ?%elem_of_nil & _).
  - rewrite bool_decide_eq_false_2 by done. split_and!.
    + destruct (foldM _ _ _); simpl; [|done].
      by destruct (serialize_all_trace a) as [-> _].
    + intros Hex. by rewrite (Hbad Hex).
    + intros Hall. destruct (Hgood Hall) as (sds' & -> & Hlen' & Hback).
      simpl. destruct (serialize_all_trace sds') as [_ ->].
      eexists. split_and!; [done..| |].
      * unfold components. rewrite length_imap. congruence.
      * intros x p Hd. destruct (Hvalid x p Hd) as [j Hj].
        destruct (Hback x p j Hd Hj) as (sd & first & Hsd & Hh & Hvi).
        exists sd, first. split_and!; [|done..].
        rewrite components_snd. apply py_index_ok. exists j. by rewrite Hlen'.
Qed.

End RunTrace.

(** [Replicated.graph] has no value-info for [m], which leaves sub-graph 1
    and enters sub-graph 2; with a collaborator that knows [m], it is called
    once and both deferred pairs are backfilled. *)
Lemma missing_metadata_resolution_witness :
  let known := [GraphModel.typed "m"] in
  let r := run_graph known Replicated.graph
             (Some Replicated.split_assignments) true in
  ∃ split_dags,
    split_graph GraphModel.Graph GraphModel.dag_of_graph Replicated.graph
      Replicated.split_assignments true
    = Ok (split_dags, [("m", [1; 2])])
    ∧ infer_calls r.1 = [(Replicated.graph, true)]
    ∧ ∃ out, r.2 = Ok out
             ∧ serialized r.1 = ["split_0"; "split_1"; "split_2"]
             ∧ ∀ x p, deferred [("m", [1; 2])] x p ->
                 ∃ sd first,
                   py_index out.*2 p = Ok sd
                   ∧ head (infer_from known Replicated.graph true x)
                     = Some first
                   ∧ sd_value_info sd !! x = Some first.
Proof.
  intros known r. unfold r, run_graph. eexists.
  split; [vm_compute; reflexivity|].
  epose proof (missing_metadata_resolution GraphModel.Graph
                 GraphModel.dag_of_graph (infer_from known) Replicated.graph
                 Replicated.split_assignments true _ _) as H.
  destruct H as (Hcalls & _ & Hgood);
    [discriminate|vm_compute; reflexivity|reflexivity|].
  split; [exact Hcalls|].
  destruct Hgood as (out & Hout & Hser & _ & Hback).
  { intros x ps Hin%list_elem_of_In. simpl in Hin.
    destruct Hin as [[= <- <-]|[]]; discriminate. }
  exists out. split; [exact Hout|]. split; [|exact Hback].
  rewrite Hser. clear Hser Hback. vm_compute in Hout.
  injection Hout as <-. reflexivity.
Defined.

(** The same run with a collaborator that knows nothing: one call, a
    [ValueError], and no split serialized. *)
Example unresolved_name_is_fatal :
  run_graph [] Replicated.graph (Some Replicated.split_assignments) true
  = ([InferShapes Replicated.graph true], Raise ValueError).
Proof. vm_compute. reflexivity. Qed.

(** The chain has value-info for every tensor: nothing is deferred and the
    collaborator is not called. *)
Example nothing_deferred_no_call :
  let r := run_graph [] Chain.graph (Some Chain.split_assignments) true in
  infer_calls r.1 = []
  ∧ serialized r.1 = ["split_0"; "split_1"]
  ∧ is_ok r.2 = true.
Proof. split_and!; vm_compute; reflexivity. Qed.

(** ** Strings: splitting and joining *)

Module PyStrMore.
Import PyStr PyStrFacts.

Lemma split_app (sep : ascii) (w r : string) :
  split sep (String.append w (String sep r)) = split sep w ++ split sep r.
Proof.
  induction w as [|c w IH]; simpl.
  - by rewrite Ascii.eqb_refl.
  - destruct (Ascii.eqb c sep); [by rewrite IH|].
    rewrite IH. pose proof (split_not_nil sep w).
    by destruct (split sep w).
Qed.

Lemma join_split (sep : ascii) (s : string) : join sep (split sep s) = s.
Proof.
  induction s as [|c s IH]; simpl; [done|].
  pose proof (split_not_nil sep s) as Hne.
  destruct (Ascii.eqb c sep) eqn:E.
  - apply Ascii.eqb_eq in E as ->.
    destruct (split sep s) as [|w ws]; [done|].
    simpl in *. by rewrite IH.
  - destruct (split sep s) as [|w ws]; [done|].
    destruct ws as [|w' ws]; simpl in *; by rewrite <- IH.
Qed.

Lemma sep_free_app (sep : ascii) (a b : string) :
  sep_free sep (String.append a b) = sep_free sep a && sep_free sep b.
Proof.
  induction a as [|c a IH]; simpl; [done|].
  by rewrite IH, andb_assoc.
Qed.

(** Splitting at one character keeps the parts free of another. *)
Lemma split_keeps_free (sep c : ascii) (s : string) :
  sep_free c s = true -> Forall (fun w => sep_free c w = true) (split sep s).
Proof.
  induction s as [|a s IH]; simpl; [by repeat constructor|].
  intros [Ha Hs]%andb_true_iff. specialize (IH Hs).
  destruct (Ascii.eqb a sep).
  - by constructor.
  - destruct (split sep s) as [|w ws]; simpl.
    + repeat constructor. simpl. by rewrite Ha.
    + inversion IH; subst. constructor; [|done].
      simpl. by rewrite Ha.
Qed.

End PyStrMore.

(** ** Writing to an ordered dictionary *)

Lemma dict_get_set (d : split_map) (k k' : string) (v : Z) :
  dict_get (dict_set d k v) k'
  = if decide (k' = k) then Some v else dict_get d k'.
Proof.
  induction d as [|[k0 w] d IH]; simpl.
  - destruct (String.eqb_spec k k'); case_decide; congruence.
  - destruct (String.eqb_spec k0 k) as [->|Hne]; simpl.
    + destruct (String.eqb_spec k k'); case_decide; congruence.
    + destruct (String.eqb_spec k0 k'); case_decide; congruence.
Qed.

Lemma dict_set_keys (d : split_map) (k : string) (v : Z) :
  (dict_set d k v).*1 = if decide (k ∈ d.*1) then d.*1 else d.*1 ++ [k].
Proof.
  induction d as [|[k0 w] d IH].
  - done.
  - cbn [dict_set]. rewrite !fmap_cons. cbn [fst].
    destruct (String.eqb_spec k0 k) as [->|Hne].
    + rewrite fmap_cons. cbn [fst].
      destruct (decide (k ∈ k :: d.*1)) as [H|H]; [done|].
      exfalso; apply H; left.
    + rewrite fmap_cons, IH. cbn [fst].
      destruct (decide (k ∈ d.*1)) as [Hin|Hin];
        destruct (decide (k ∈ k0 :: d.*1)) as [H|H]; try done.
      * exfalso; apply H; by right.
      * apply elem_of_cons in H as [->|H]; done.
Qed.

Lemma dict_set_fresh (d : split_map) (k : string) (v : Z) :
  k ∉ d.*1 -> dict_set d k v = d ++ [(k, v)].
Proof.
  induction d as [|[k0 w] d IH]; simpl; [done|].
  intros [Hne Hin]%not_elem_of_cons.
  destruct (String.eqb_spec k0 k); [congruence|].
  by rewrite IH.
Qed.

Lemma dict_set_nodup (d : split_map) (k : string) (v : Z) :
  NoDup d.*1 -> NoDup (dict_set d k v).*1.
Proof.
  intros Hd. rewrite dict_set_keys. case_decide; [done|].
  apply NoDup_app; split_and!; [done| |apply NoDup_singleton].
  intros x Hx ->%list_elem_of_singleton. done.
Qed.

Lemma dict_get_keys (d : split_map) (k : string) :
  is_Some (dict_get d k) ↔ k ∈ d.*1.
Proof.
  induction d as [|[k0 w] d IH]; simpl.
  - split; [by intros [? ?]|by intros ?%elem_of_nil].
  - destruct (String.eqb_spec k0 k) as [->|Hne].
    + split; [left|eauto].
    + rewrite IH, elem_of_cons. intuition congruence.
Qed.

(** ** Parsing the assignments *)

Section MetadataFacts.

Variable py_int : string -> result Z.

Lemma parse_assignment_ok (a k : string) (v : Z) :
  parse_assignment py_int a = Ok (k, v)
  ↔ ∃ s, PyStr.split equals a = [k; s] ∧ py_int s = Ok v.
Proof.
  unfold parse_assignment. split.
  - destruct (PyStr.split equals a) as [|k0 [|s [|? ?]]]; try done.
    destruct (py_int s) eqn:E; simpl; [|done].
    intros [= -> ->]. eauto.
  - intros (s & -> & ->). done.
Qed.

(** The text of an assignment that parses is [key=value]. *)
Lemma parse_assignment_text (a k : string) (v : Z) :
  parse_assignment py_int a = Ok (k, v) ->
  ∃ s, a = String.append k (String equals s) ∧ py_int s = Ok v.
Proof.
  intros (s & Hs & Hv)%parse_assignment_ok. exists s; split; [|done].
  rewrite <- (PyStrMore.join_split equals a), Hs. done.
Qed.

Lemma parse_assignment_of_text (k s : string) (v : Z) :
  PyStr.sep_free equals k = true -> PyStr.sep_free equals s = true ->
  py_int s = Ok v ->
  parse_assignment py_int (String.append k (String equals s)) = Ok (k, v).
Proof.
  intros Hk Hs Hv. apply parse_assignment_ok. exists s; split; [|done].
  rewrite PyStrFacts.split_app_sep by done.
  by rewrite PyStrFacts.split_of_sep_free.
Qed.

Lemma parse_step_ok (d d' : split_map) (a : string) :
  parse_step py_int d a = Ok d'
  ↔ ∃ k v, parse_assignment py_int a = Ok (k, v) ∧ d' = dict_set d k v.
Proof.
  unfold parse_step. split.
  - destruct (parse_assignment py_int a) as [[k v]|] eqn:E; simpl; [|done].
    intros [= <-]. eauto.
  - intros (k & v & -> & ->). done.
Qed.

Lemma parse_step_parsed (visited : list string) (d d' : split_map)
    (a : string) :
  parsed py_int visited d -> parse_step py_int d a = Ok d' -> parsed py_int (visited ++ [a]) d'.
Proof.
  intros (Hne & Hnd & Hfrom & Hall) (k & v & Ha & ->)%parse_step_ok.
  split_and!.
  - intros _ E. assert (H : dict_get (dict_set d k v) k = Some v).
    { rewrite dict_get_set. by case_decide. }
    by rewrite E in H.
  - by apply dict_set_nodup.
  - intros k' v'. rewrite dict_get_set. case_decide as Hk.
    + intros [= <-]. subst k'.
      destruct (parse_assignment_text _ _ _ Ha) as (s & -> & Hs).
      exists s. split; [|done]. apply elem_of_app; right; left.
    + intros (s & Hin & Hs)%Hfrom. exists s; split; [|done].
      apply elem_of_app; by left.
  - intros a' [Hin| ->%list_elem_of_singleton]%elem_of_app; eauto.
Qed.

Lemma parse_split_assignments_parsed (value : string) (d : split_map) :
  parse_split_assignments py_int value = Ok d ->
  parsed py_int (PyStr.split semicolon value) d.
Proof.
  unfold parse_split_assignments.
  apply (foldM_inv (parse_step py_int) (parsed py_int)).
  - split_and!; [done|constructor|done|by intros ? ?%elem_of_nil].
  - intros pre x post s s' _. apply parse_step_parsed.
Qed.

Lemma parse_split_assignments_nonempty (value : string) (d : split_map) :
  parse_split_assignments py_int value = Ok d -> d ≠ [].
Proof.
  intros (Hne & _)%parse_split_assignments_parsed.
  apply Hne, PyStrFacts.split_not_nil.
Qed.

(** One more assignment at the end of the value. *)
Lemma parse_split_assignments_snoc (value a : string) :
  PyStr.sep_free semicolon a = true ->
  parse_split_assignments py_int (String.append value (String semicolon a))
  = let* d := parse_split_assignments py_int value in parse_step py_int d a.
Proof.
  intros Ha. unfold parse_split_assignments.
  rewrite PyStrMore.split_app, (PyStrFacts.split_of_sep_free semicolon a Ha).
  rewrite foldM_app. fold (parse_step py_int).
  destruct (foldM (parse_step py_int) (PyStr.split semicolon value) []); simpl; [|done].
  by destruct (parse_step py_int a0 a).
Qed.

Lemma find_split_assignments_skip (pre post : list MetadataProp) :
  Forall (fun e => mp_key e ≠ "split_assignments") pre ->
  find_split_assignments py_int (pre ++ post)
  = find_split_assignments py_int post.
Proof.
  induction 1 as [|e pre He _ IH]; simpl; [done|].
  by destruct (String.eqb_spec (mp_key e) "split_assignments").
Qed.

End MetadataFacts.

(** A loop that raises does so with an exception of its body. *)
Lemma foldM_raise {S A : Type} (f : S -> A -> result S) (P : py_error -> Prop)
    (l : list A) (s : S) (e : py_error) :
  (∀ s x e, f s x = Raise e -> P e) -> foldM f l s = Raise e -> P e.
Proof.
  intros Hf. revert s; induction l as [|x l IH]; intros s; simpl; [done|].
  destruct (f s x) eqn:E; [apply IH|]. intros [= <-]. eauto.
Qed.

Lemma int_of_decimal_raises (s : string) (e : py_error) :
  int_of_decimal s = Raise e -> e = ValueError.
Proof. unfold int_of_decimal. case_match; congruence. Qed.

Section MetadataProperties.

Variable py_int : string -> result Z.

Lemma parse_raises_value_error (value : string) (e : py_error) :
  (∀ s e, py_int s = Raise e -> e = ValueError) ->
  parse_split_assignments py_int value = Raise e -> e = ValueError.
Proof.
  intros Hint. unfold parse_split_assignments.
  apply (foldM_raise _ (fun e => e = ValueError)). intros d a e'.
  unfold parse_assignment.
  destruct (PyStr.split equals a) as [|k0 [|s [|? ?]]]; simpl; try congruence.
  destruct (py_int s) eqn:E; simpl; [done|].
  intros [= <-]. eauto.
Qed.

(** X1. Only the first metadata entry with the key [split_assignments] is
    read: what the pass goes on with is the parse of its value, whatever
    follows it, and without such an entry the run ends with [ValueError]. *)
Theorem first_metadata_entry_decides (pre post : list MetadataProp)
    (value : string) :
  forallb (fun e => negb (String.eqb (mp_key e) "split_assignments")) pre
  = true ->
  load_split_assignments py_int
    (pre ++ {| mp_key := "split_assignments"; mp_value := value |} :: post)
  = parse_split_assignments py_int value
  ∧ load_split_assignments py_int pre = Raise ValueError.
Proof.
  intros Hpre.
  assert (Hskip : Forall (fun e => mp_key e ≠ "split_assignments") pre).
  { apply Forall_forall. intros e He.
    rewrite forallb_forall in Hpre. apply list_elem_of_In, Hpre in He.
    by destruct (String.eqb_spec (mp_key e) "split_assignments"). }
  unfold load_split_assignments. split.
  - rewrite (find_split_assignments_skip py_int _ _ Hskip). simpl.
    destruct (parse_split_assignments py_int value) as [d|] eqn:E; simpl;
      [|done].
    apply parse_split_assignments_nonempty in E. by destruct d.
  - rewrite <- (app_nil_r pre).
    by rewrite (find_split_assignments_skip py_int _ _ Hskip).
Qed.

(** X2. An assignment of the value that does not consist of exactly two
    parts around one ["="], such as the empty one a trailing [";"] leaves,
    makes the parse end with [ValueError]. *)
Theorem malformed_assignment_is_value_error (value a : string) :
  (∀ s e, py_int s = Raise e -> e = ValueError) ->
  a ∈ PyStr.split semicolon value ->
  length (PyStr.split equals a) ≠ 2%nat ->
  parse_split_assignments py_int value = Raise ValueError.
Proof.
  intros Hint Ha Hlen.
  destruct (parse_split_assignments py_int value) as [d|e] eqn:E.
  - apply parse_split_assignments_parsed in E as (_ & _ & _ & Hall).
    destruct (Hall a Ha) as [[k v] (s & Hs & _)%parse_assignment_ok].
    by rewrite Hs in Hlen.
  - by rewrite (parse_raises_value_error value e Hint E).
Qed.

(** X3. A value that parses gives a proper dictionary: it is not empty,
    its keys are pairwise distinct, and every value it holds is [int] of
    the text after ["="] in an assignment of that key. *)
Theorem parsed_assignments_form_a_dictionary (value : string)
    (d : split_map) :
  parse_split_assignments py_int value = Ok d ->
  d ≠ [] ∧ NoDup d.*1
  ∧ ∀ k v, dict_get d k = Some v ->
      ∃ s, assignment_text k s ∈ PyStr.split semicolon value
           ∧ py_int s = Ok v.
Proof.
  intros E. pose proof (parse_split_assignments_nonempty py_int _ _ E).
  apply parse_split_assignments_parsed in E as (_ & Hnd & Hfrom & _).
  done.
Qed.

(** X4. One more assignment at the end of the value overrides the value of
    its key and leaves the others alone; a key that was there keeps its
    place, a new key goes last, and the first key, hence the namespace
    depth, stays. *)
Theorem appended_assignment_overrides (value a : string) (d : split_map)
    (k : string) (v : Z) :
  PyStr.sep_free semicolon a = true ->
  parse_split_assignments py_int value = Ok d ->
  parse_assignment py_int a = Ok (k, v) ->
  ∃ d', parse_split_assignments py_int
          (String.append value (String semicolon a)) = Ok d'
        ∧ dict_get d' k = Some v
        ∧ (∀ k', k' ≠ k -> dict_get d' k' = dict_get d k')
        ∧ d'.*1 = (if decide (k ∈ d.*1) then d.*1 else d.*1 ++ [k])
        ∧ namespace_depth d' = namespace_depth d.
Proof.
  intros Ha Hd Hkv. exists (dict_set d k v).
  rewrite (parse_split_assignments_snoc py_int _ _ Ha), Hd. simpl.
  split_and!.
  - apply parse_step_ok; eauto.
  - rewrite dict_get_set. by case_decide.
  - intros k' Hk'. rewrite dict_get_set. by case_decide.
  - apply dict_set_keys.
  - apply parse_split_assignments_nonempty in Hd.
    destruct d as [|[k0 w] d]; [done|]. simpl.
    by destruct (String.eqb k0 k).
Qed.

Lemma parse_texts (entries : list (string * string)) (values : list Z)
    (d0 : split_map) :
  forallb (fun e => plain e.1 && plain e.2) entries = true ->
  NoDup (d0.*1 ++ entries.*1) ->
  Forall2 (fun e v => py_int e.2 = Ok v) entries values ->
  foldM (parse_step py_int)
        (map (fun e => assignment_text e.1 e.2) entries) d0
  = Ok (d0 ++ zip entries.*1 values).
Proof.
  intros Hplain Hnd Hval. revert d0 Hplain Hnd.
  induction Hval as [|[k s] v entries values Hv _ IH]; intros d0 Hplain Hnd;
    simpl.
  - by rewrite app_nil_r.
  - simpl in Hplain, Hv.
    apply andb_true_iff in Hplain as [[Hk Hs]%andb_true_iff Hplain].
    unfold plain in Hk, Hs.
    apply andb_true_iff in Hk as [_ Hk]. apply andb_true_iff in Hs as [_ Hs].
    unfold parse_step at 1, assignment_text at 1.
    rewrite (parse_assignment_of_text py_int k s v Hk Hs Hv). simpl.
    rewrite fmap_cons in Hnd. simpl in Hnd.
    rewrite dict_set_fresh.
    2:{ apply NoDup_app in Hnd as (_ & Hdisj & _).
        intros Hin. apply (Hdisj _ Hin). left. }
    rewrite IH; [by rewrite <- app_assoc|done|].
    rewrite fmap_app. simpl. rewrite <- app_assoc. done.
Qed.

(** X5. A value written as [key=value] texts joined by [";"], with keys
    and value texts that hold neither separator, pairwise distinct keys
    and value texts that [int] accepts, parses to exactly these keys and
    integers, in the order written. *)
Theorem well_formed_text_parses (entries : list (string * string))
    (values : list Z) :
  entries ≠ [] ->
  forallb (fun e => plain e.1 && plain e.2) entries = true ->
  NoDup entries.*1 ->
  Forall2 (fun e v => py_int e.2 = Ok v) entries values ->
  parse_split_assignments py_int
    (PyStr.join semicolon (map (fun e => assignment_text e.1 e.2) entries))
  = Ok (zip entries.*1 values).
Proof.
  intros Hne Hplain Hnd Hval. unfold parse_split_assignments.
  rewrite PyStrFacts.split_join.
  - fold (parse_step py_int). by rewrite (parse_texts entries values []).
  - by destruct entries.
  - apply Forall_fmap, Forall_forall. intros [k s] He. simpl.
    rewrite forallb_forall in Hplain.
    apply list_elem_of_In, Hplain in He. simpl in He.
    apply andb_true_iff in He as [[Hk _]%andb_true_iff [Hs _]%andb_true_iff].
    unfold assignment_text. rewrite PyStrMore.sep_free_app. simpl.
    by rewrite Hk, Hs.
Qed.

End MetadataProperties.

Lemma first_metadata_entry_decides_witness :
  let pre := [ {| mp_key := "producer"; mp_value := "olive" |} ] in
  let post := [ {| mp_key := "split_assignments"; mp_value := "x" |} ] in
  load_split_assignments int_of_decimal
    (pre ++ {| mp_key := "split_assignments";
               mp_value := "layers.0=0;layers.1=1" |} :: post)
  = Ok [("layers.0", 0); ("layers.1", 1)]
  ∧ load_split_assignments int_of_decimal pre = Raise ValueError.
Proof.
  intros pre post.
  destruct (first_metadata_entry_decides int_of_decimal pre post
              "layers.0=0;layers.1=1" eq_refl) as [H1 H2].
  split; [rewrite H1; reflexivity | exact H2].
Defined.

Lemma malformed_assignment_is_value_error_witness :
  "" ∈ PyStr.split semicolon "a=0;"
  ∧ parse_split_assignments int_of_decimal "a=0;" = Raise ValueError.
Proof.
  assert (Hin : "" ∈ PyStr.split semicolon "a=0;").
  { apply list_elem_of_In. vm_compute. tauto. }
  split; [exact Hin|].
  apply (malformed_assignment_is_value_error int_of_decimal "a=0;" "").
  - apply int_of_decimal_raises.
  - exact Hin.
  - vm_compute. lia.
Defined.

Lemma parsed_assignments_form_a_dictionary_witness :
  parse_split_assignments int_of_decimal "a=0;b=1;a=2"
  = Ok [("a", 2); ("b", 1)]
  ∧ NoDup [("a", 2); ("b", 1)].*1
  ∧ ∀ k v, dict_get [("a", 2); ("b", 1)] k = Some v ->
      ∃ s, assignment_text k s ∈ PyStr.split semicolon "a=0;b=1;a=2"
           ∧ int_of_decimal s = Ok v.
Proof.
  assert (E : parse_split_assignments int_of_decimal "a=0;b=1;a=2"
              = Ok [("a", 2); ("b", 1)]) by reflexivity.
  split; [exact E|].
  apply (parsed_assignments_form_a_dictionary int_of_decimal _ _ E).
Defined.

Lemma appended_assignment_overrides_witness :
  ∃ d', parse_split_assignments int_of_decimal "a.x=0;b.y=1;a.x=5" = Ok d'
        ∧ dict_get d' "a.x" = Some 5
        ∧ (∀ k', k' ≠ "a.x" -> dict_get d' k' = dict_get [("a.x", 0); ("b.y", 1)] k')
        ∧ d'.*1 = ["a.x"; "b.y"]
        ∧ namespace_depth d' = Ok 2%nat.
Proof.
  destruct (appended_assignment_overrides int_of_decimal "a.x=0;b.y=1" "a.x=5"
              [("a.x", 0); ("b.y", 1)] "a.x" 5 eq_refl eq_refl eq_refl)
    as (d' & H1 & H2 & H3 & H4 & H5).
  exists d'. split_and!; [exact H1|exact H2|exact H3|exact H4|exact H5].
Defined.

Lemma well_formed_text_parses_witness :
  parse_split_assignments int_of_decimal "layers.0=0;layers.1=-1"
  = Ok [("layers.0", 0); ("layers.1", -1)].
Proof.
  apply (well_formed_text_parses int_of_decimal
           [("layers.0", "0"); ("layers.1", "-1")] [0; -1]).
  - discriminate.
  - reflexivity.
  - apply (bool_decide_unpack _). vm_compute. exact I.
  - repeat constructor.
Defined.

(** ** Direct assignments *)

(** X6. Prefix matching: a node whose name, with every ["/"] turned into
    ["."] and the leading dots dropped, is a key or a key followed by ["."]
    and anything, has that key as its namespace at the depth of the key. *)
Theorem namespace_of_prefixed_name (key rest node_name : string) :
  PyStr.lstrip dot (PyStr.replace slash dot node_name) = key
  ∨ PyStr.lstrip dot (PyStr.replace slash dot node_name)
    = String.append key (String dot rest) ->
  namespace_of (key_depth key) node_name = key.
Proof.
  unfold namespace_of, name_components, key_depth. intros [-> | ->].
  - rewrite firstn_all. apply PyStrMore.join_split.
  - rewrite PyStrMore.split_app, take_app_length.
    apply PyStrMore.join_split.
Qed.

Lemma namespace_of_prefixed_name_witness :
  namespace_of 3 "/model/layers.0/attn/MatMul" = "model.layers.0"
  ∧ namespace_of 3 "model.layers.0" = "model.layers.0".
Proof.
  split.
  - apply (namespace_of_prefixed_name "model.layers.0" "attn.MatMul"
             "/model/layers.0/attn/MatMul").
    right. reflexivity.
  - apply (namespace_of_prefixed_name "model.layers.0" ""
             "model.layers.0").
    left. reflexivity.
Defined.

Section Keeps.

Variable dag : OnnxDAG.
Variable constant_nodes : gset string.
Variable next_split : gmap string (option Z).

(** No pass of either policy writes to a node that is assigned. *)
Lemma inclusive_step_keeps (na na' : gmap string Z) (x k : string) (p : Z) :
  inclusive_step dag constant_nodes next_split na x = Ok na' ->
  na !! k = Some p -> na' !! k = Some p.
Proof.
  unfold inclusive_step.
  destruct (skipped constant_nodes na x) eqn:E; [by intros [= <-]|].
  apply skipped_false in E as [Hx _]. intros H Hk.
  assert (x ≠ k) by congruence.
  repeat case_match; simplify_eq; by rewrite lookup_insert_ne.
Qed.

Lemma exclusive_step_keeps (na na' : gmap string Z) (x k : string) (p : Z) :
  exclusive_step dag constant_nodes next_split na x = Ok na' ->
  na !! k = Some p -> na' !! k = Some p.
Proof.
  intros H Hk. destruct (decide (k = x)) as [->|Hne].
  - unfold exclusive_step, skipped in H.
    rewrite bool_decide_eq_true_2 in H by eauto. simpl in H. congruence.
  - by rewrite (exclusive_step_own_key _ _ _ _ _ _ _ H Hne).
Qed.

Lemma cast_step_keeps (na na' : gmap string Z) (x k : string) (p : Z) :
  cast_step dag na x = Ok na' -> na !! k = Some p -> na' !! k = Some p.
Proof.
  intros H Hk. destruct (decide (k = x)) as [->|Hne].
  - unfold cast_step in H.
    rewrite bool_decide_eq_true_2 in H by eauto. simpl in H. congruence.
  - by rewrite (cast_step_own_key _ _ _ _ _ H Hne).
Qed.

Lemma foldM_keeps (f : gmap string Z -> string -> result (gmap string Z))
    (l : list string) (m0 m1 : gmap string Z) (k : string) (p : Z) :
  (∀ na x na', f na x = Ok na' -> na !! k = Some p -> na' !! k = Some p) ->
  foldM f l m0 = Ok m1 -> m0 !! k = Some p -> m1 !! k = Some p.
Proof.
  intros Hf. revert m0; induction l as [|x l IH]; intros m0; simpl.
  - by intros [= <-].
  - destruct (f m0 x) as [m|] eqn:E; [|done]. eauto.
Qed.

Lemma policy_pass_keeps (inc : bool) (direct na : gmap string Z)
    (order : list string) (k : string) (p : Z) :
  policy_pass dag inc constant_nodes next_split direct order = Ok na ->
  direct !! k = Some p -> na !! k = Some p.
Proof.
  unfold policy_pass, inclusive_pass, exclusive_pass, cast_pass.
  destruct inc.
  - apply foldM_keeps. intros ? ? ?; apply inclusive_step_keeps.
  - intros (na0 & H0 & H1)%bind_ok Hk.
    eapply foldM_keeps in H0; [|intros ? ? ?; apply exclusive_step_keeps|done].
    eapply foldM_keeps in H1; [done|intros ? ? ?; apply cast_step_keeps|done].
Qed.

End Keeps.

(** X7. A direct assignment is final: under either policy a node that is
    not a [Constant] and whose namespace is a key of the map ends with the
    index of that key, whatever its parents and consumers. *)
Theorem direct_assignment_is_final (dag : OnnxDAG) (sa : split_map)
    (inc : bool) (na : gmap string split_id) (depth : nat) (n : string)
    (p : Z) :
  namespace_depth sa = Ok depth ->
  assign_nodes dag sa inc = Ok na ->
  n ∈ topological_sort dag ->
  get_node_op_type dag n ≠ "Constant" ->
  dict_get sa (namespace_of depth n) = Some p ->
  na !! n = Some (Single p).
Proof.
  intros Hd Hna Hn Hop Hkey.
  destruct (assign_nodes_inv _ _ _ _ Hna) as (direct & cs & ns & na1 & Hpre & Hpol & Hc).
  destruct (prepare_inv _ _ _ _ _ Hpre) as (depth' & Hd' & Hdir & _).
  assert (depth' = depth) as -> by congruence.
  apply is_constant_node_false in Hop.
  assert (Hdn : direct !! n = Some p).
  { pose proof (proj2 (direct_pass_assigned dag sa depth (topological_sort dag) n p)) as H.
    rewrite Hdir in H. apply H. done. }
  rewrite (constant_pass_other _ _ _ _ _ Hc).
  - by rewrite (policy_pass_keeps _ _ _ _ _ _ _ _ _ Hpol Hdn).
  - intros Hin%elem_of_elements.
    pose proof (proj1 (direct_pass_constants dag sa depth (topological_sort dag) n)) as H.
    rewrite Hdir in H. destruct (H Hin) as [_ Hc']. congruence.
Qed.

Lemma direct_assignment_is_final_witness :
  ∃ na, assign_nodes MixedDepth.dag MixedDepth.split_assignments false = Ok na
        ∧ na !! "a" = Some (Single 0).
Proof.
  eexists. split; [vm_compute; reflexivity|].
  eapply (direct_assignment_is_final MixedDepth.dag
            MixedDepth.split_assignments false _ 1 "a" 0);
    [reflexivity|vm_compute; reflexivity
    |apply list_elem_of_In; vm_compute; tauto
    |vm_compute; discriminate|reflexivity].
Defined.

(** ** The next-split map and the order of the partitions *)

Lemma py_min_le (x : Z) (l : list Z) (w : Z) : w ∈ x :: l -> py_min x l <= w.
Proof.
  unfold py_min. revert x w; induction l as [|y l IH]; intros x w Hw; simpl.
  - apply list_elem_of_singleton in Hw as ->. lia.
  - pose proof (IH (Z.min x y) (Z.min x y) ltac:(left)) as Hm.
    apply elem_of_cons in Hw as [->|[->|Hw]%elem_of_cons]; [lia|lia|].
    apply IH. by right.
Qed.

Lemma py_max_ge (x : Z) (l : list Z) (w : Z) : w ∈ x :: l -> w <= py_max x l.
Proof.
  unfold py_max. revert x w; induction l as [|y l IH]; intros x w Hw; simpl.
  - apply list_elem_of_singleton in Hw as ->. lia.
  - pose proof (IH (Z.max x y) (Z.max x y) ltac:(left)) as Hm.
    apply elem_of_cons in Hw as [->|[->|Hw]%elem_of_cons]; [lia|lia|].
    apply IH. by right.
Qed.

(** A loop over a list, cut at one of its elements. *)
Lemma foldM_cut {S A : Type} (f : S -> A -> result S) (pre post : list A)
    (x : A) (s0 s1 : S) :
  foldM f (pre ++ x :: post) s0 = Ok s1 ->
  ∃ sp sx, foldM f pre s0 = Ok sp ∧ f sp x = Ok sx ∧ foldM f post sx = Ok s1.
Proof.
  rewrite foldM_app. intros (sp & Hpre & H)%bind_ok. simpl in H.
  destruct (f sp x) as [sx|] eqn:E; [|done]. eauto.
Qed.

Section NextSplitMap.

Variable dag : OnnxDAG.
Variable constant_nodes : gset string.
Variable direct : gmap string Z.

Lemma next_split_step_own_key (ns : gmap string (option Z)) (x : string)
    (ns' : gmap string (option Z)) (k : string) :
  next_split_step dag constant_nodes direct ns x = Ok ns' -> k ≠ x ->
  ns' !! k = ns !! k.
Proof.
  unfold next_split_step. intros H Hk.
  destruct (skipped constant_nodes direct x); [congruence|].
  apply bind_ok in H as (l & _ & H).
  destruct l; simplify_eq; by rewrite lookup_insert_ne.
Qed.

Lemma child_splits_ok (ns : gmap string (option Z)) (n : string)
    (l : list Z) :
  child_splits dag ns n = Ok l ->
  (∀ c, c ∈ get_consumers dag n false -> is_Some (ns !! c))
  ∧ ∀ v, v ∈ l ↔ ∃ c, c ∈ get_consumers dag n false
                      ∧ ns !! c = Some (Some v).
Proof.
  intros H.
  assert (Hall : ∀ c, c ∈ get_consumers dag n false -> is_Some (ns !! c)).
  { revert H. unfold child_splits.
    apply (foldM_inv _ (fun pre _ => ∀ c, c ∈ pre -> is_Some (ns !! c))).
    - by intros c ?%elem_of_nil.
    - intros pre c post acc acc' _ HP Hc c'
        [?| ->%list_elem_of_singleton]%elem_of_app; [auto|].
      destruct (ns !! c); [eauto|done]. }
  split; [done|].
  destruct (child_splits_total dag ns n Hall) as (l' & Hl' & Hchar).
  rewrite H in Hl'. by injection Hl' as <-.
Qed.

(** The seed of the map, the direct assignments, is never written to. *)
Lemma next_split_pass_seed (order : list string)
    (ns : gmap string (option Z)) (m : string) (p : Z) :
  next_split_pass dag constant_nodes direct order = Ok ns ->
  direct !! m = Some p -> ns !! m = Some (Some p).
Proof.
  unfold next_split_pass. intros H Hm. revert H.
  apply (foldM_inv _ (fun _ ns => ns !! m = Some (Some p))).
  - by rewrite lookup_fmap, Hm.
  - intros pre x post s s' _ HP Hstep.
    destruct (decide (m = x)) as [->|Hne].
    + unfold next_split_step, skipped in Hstep.
      rewrite bool_decide_eq_true_2 in Hstep by eauto. simpl in Hstep.
      congruence.
    + by rewrite (next_split_step_own_key _ _ _ _ Hstep Hne).
Qed.

End NextSplitMap.

(** X8. The next-split map obeys its recurrence on a well-formed graph:
    a directly assigned node holds its own index, and any other node that
    is not a [Constant] holds the least next-split value of its consumers,
    or none when no consumer has one. *)
Theorem next_split_is_least_over_consumers (dag : OnnxDAG) (sa : split_map)
    (direct : gmap string Z) (cs : gset string)
    (ns : gmap string (option Z)) (n : string) :
  well_formed dag = true ->
  prepare dag sa = Ok (direct, cs, ns) ->
  n ∈ topological_sort dag ->
  get_node_op_type dag n ≠ "Constant" ->
  match direct !! n, ns !! n with
  | Some p, found => found = Some (Some p)
  | None, None => False
  | None, Some None =>
      ∀ c, c ∈ get_consumers dag n false -> ns !! c = Some None
  | None, Some (Some v) =>
      (∃ c, c ∈ get_consumers dag n false ∧ ns !! c = Some (Some v))
      ∧ ∀ c w, c ∈ get_consumers dag n false -> ns !! c = Some (Some w) ->
               v <= w
  end.
Proof.
  intros (Hnd & _ & Hlater & _)%well_formed_spec Hpre Hn Hop.
  destruct (prepare_inv _ _ _ _ _ Hpre) as (depth & _ & Hdir & Hns).
  destruct (direct !! n) as [p|] eqn:Hd.
  { by apply (next_split_pass_seed _ _ _ _ _ _ _ Hns). }
  assert (Hncs : n ∉ cs).
  { intros Hin.
    pose proof (proj1 (direct_pass_constants dag sa depth
                         (topological_sort dag) n)) as H.
    rewrite Hdir in H. destruct (H Hin) as [_ Hc].
    apply is_constant_node_false in Hop. congruence. }
  assert (Hrev : n ∈ rev (topological_sort dag)) by by apply elem_of_rev.
  apply list_elem_of_split in Hrev as (pre & post & Heq).
  assert (Hord : topological_sort dag = rev post ++ n :: rev pre).
  { rewrite <- (rev_involutive (topological_sort dag)), Heq, rev_app_distr.
    simpl. by rewrite <- app_assoc. }
  assert (Hnd' : NoDup (pre ++ n :: post)).
  { rewrite <- Heq. by apply NoDup_ListNoDup, NoDup_rev, NoDup_ListNoDup. }
  apply NoDup_app in Hnd' as (_ & Hdisj & [Hnpost _]%NoDup_cons).
  unfold next_split_pass in Hns. rewrite Heq in Hns.
  destruct (foldM_cut _ _ _ _ _ _ Hns) as (mp & mx & Hmp & Hstep & Hrest).
  assert (Hfin : ∀ k, k ∉ post -> ns !! k = mx !! k).
  { intros k Hk.
    apply (foldM_other_keys _ (next_split_step_own_key dag cs direct)
             _ _ _ _ Hrest Hk). }
  assert (Hcons : ∀ c, c ∈ get_consumers dag n false -> ns !! c = mp !! c).
  { intros c Hc. rewrite Hord in Hlater.
    destruct (consumers_later_split _ _ _ _ _ Hlater Hc) as [Hin _].
    apply (proj1 (elem_of_rev _ _)) in Hin.
    rewrite Hfin by (intros ?; by apply (Hdisj c); [|right]).
    apply (next_split_step_own_key _ _ _ _ _ _ _ Hstep).
    intros ->. apply (Hdisj n Hin). left. }
  rewrite (Hfin n Hnpost).
  unfold next_split_step in Hstep.
  rewrite (proj2 (skipped_false cs direct n)) in Hstep by done.
  apply bind_ok in Hstep as (l & Hl & Hstep).
  apply child_splits_ok in Hl as [Hall Hl].
  destruct l as [|p ps]; simplify_eq; rewrite lookup_insert_eq.
  - intros c Hc. rewrite (Hcons c Hc).
    destruct (Hall c Hc) as [[v|] Hv]; [|done].
    exfalso. apply (elem_of_nil v), Hl. eauto.
  - split.
    + destruct (proj1 (Hl (py_min p ps)) (py_min_elem p ps)) as (c & Hc & Hv).
      exists c. by rewrite (Hcons c Hc).
    + intros c w Hc Hw. apply py_min_le, Hl. exists c.
      by rewrite <- (Hcons c Hc).
Qed.

Lemma next_split_is_least_over_consumers_witness :
  ∃ direct cs ns,
    prepare Chain.dag Chain.split_assignments = Ok (direct, cs, ns)
    ∧ direct !! "A" = None
    ∧ ns !! "A" = Some (Some 0)
    ∧ ns !! "D" = Some None
    ∧ match direct !! "A", ns !! "A" with
      | Some p, found => found = Some (Some p)
      | None, None => False
      | None, Some None =>
          ∀ c, c ∈ get_consumers Chain.dag "A" false -> ns !! c = Some None
      | None, Some (Some v) =>
          (∃ c, c ∈ get_consumers Chain.dag "A" false
                ∧ ns !! c = Some (Some v))
          ∧ ∀ c w, c ∈ get_consumers Chain.dag "A" false ->
                   ns !! c = Some (Some w) -> v <= w
      end.
Proof.
  eexists _, _, _.
  split; [vm_compute; reflexivity|].
  split; [vm_compute; reflexivity|].
  split; [vm_compute; reflexivity|].
  split; [vm_compute; reflexivity|].
  eapply (next_split_is_least_over_consumers Chain.dag Chain.split_assignments);
    [reflexivity|vm_compute; reflexivity
    |apply list_elem_of_In; vm_compute; tauto|vm_compute; discriminate].
Defined.

(** ** The inclusive pass keeps the order of the graph *)

Section InclusiveOrder.

Variable dag : OnnxDAG.
Variable constant_nodes : gset string.
Variable next_split : gmap string (option Z).

Lemma inclusive_step_own_key (na : gmap string Z) (x : string)
    (na' : gmap string Z) (k : string) :
  inclusive_step dag constant_nodes next_split na x = Ok na' -> k ≠ x ->
  na' !! k = na !! k.
Proof.
  unfold inclusive_step. intros H Hk.
  repeat case_match; simplify_eq; by rewrite ?lookup_insert_ne.
Qed.

Lemma inclusive_step_assigns (na na' : gmap string Z) (x : string) :
  inclusive_step dag constant_nodes next_split na x = Ok na' ->
  x ∉ constant_nodes -> is_Some (na' !! x).
Proof.
  unfold inclusive_step. intros H Hx.
  destruct (skipped constant_nodes na x) eqn:E.
  - apply skipped_true in E as [?|?]; [congruence|done].
  - repeat case_match; simplify_eq; rewrite lookup_insert_eq; eauto.
Qed.

Lemma inclusive_pass_assigned (order : list string) (na0 na : gmap string Z) :
  foldM (inclusive_step dag constant_nodes next_split) order na0 = Ok na ->
  ∀ m, m ∈ order -> m ∉ constant_nodes -> is_Some (na !! m).
Proof.
  apply (foldM_inv _
           (fun pre na => ∀ m, m ∈ pre -> m ∉ constant_nodes
                               -> is_Some (na !! m))).
  - by intros m ?%elem_of_nil.
  - intros pre x post s s' _ HP Hstep m
      [Hm| ->%list_elem_of_singleton]%elem_of_app Hc.
    + destruct (HP m Hm Hc) as [v Hv].
      rewrite (inclusive_step_keeps _ _ _ _ _ _ _ _ Hstep Hv). eauto.
    + by apply (inclusive_step_assigns _ _ _ Hstep).
Qed.

End InclusiveOrder.

(** X9. Under the inclusive policy a node without a direct assignment is
    never placed before one of its parents: its index is at least that of
    every parent that is not a [Constant]. *)
Theorem inclusive_child_not_before_parent (dag : OnnxDAG) (sa : split_map)
    (na : gmap string split_id) (depth : nat) (q n : string) (vq vn : Z) :
  well_formed dag = true ->
  namespace_depth sa = Ok depth ->
  assign_nodes dag sa true = Ok na ->
  q ∈ topological_sort dag ->
  get_node_op_type dag q ≠ "Constant" ->
  q ∈ get_parents dag n false ->
  n ∈ get_consumers dag q false ->
  dict_get sa (namespace_of depth n) = None ->
  na !! q = Some (Single vq) ->
  na !! n = Some (Single vn) ->
  vq <= vn.
Proof.
  intros (Hnd & _ & Hlater & _)%well_formed_spec Hdepth Hna Hq Hopq Hpar Hcons
    Hkey Hvq Hvn.
  destruct (assign_nodes_inv _ _ _ _ Hna)
    as (direct & cs & ns & na1 & Hpre & Hpol & Hc).
  destruct (prepare_inv _ _ _ _ _ Hpre) as (depth' & Hd' & Hdir & _).
  assert (depth' = depth) as -> by congruence.
  pose proof (direct_pass_constants dag sa depth (topological_sort dag)) as Hcs.
  pose proof (direct_pass_assigned dag sa depth (topological_sort dag)) as Hda.
  rewrite Hdir in Hcs, Hda. simpl in Hcs, Hda.
  apply list_elem_of_split in Hq as (pre' & post' & Heq).
  pose proof Hlater as Hlater'. rewrite Heq in Hlater'.
  destruct (consumers_later_split _ _ _ _ _ Hlater' Hcons) as [Hn Hopn].
  apply list_elem_of_split in Hn as (p1 & p2 & ->).
  assert (Hord : topological_sort dag = (pre' ++ q :: p1) ++ n :: p2).
  { by rewrite Heq, <- app_assoc. }
  assert (Hnpre : n ∉ pre' ++ q :: p1).
  { rewrite Hord in Hnd. apply NoDup_app in Hnd as (_ & Hdisj & _).
    intros Hin. apply (Hdisj n Hin). left. }
  assert (Hqcs : q ∉ cs).
  { intros [_ H]%Hcs. apply is_constant_node_false in Hopq. congruence. }
  assert (Hncs : n ∉ cs).
  { intros [_ H]%Hcs. congruence. }
  assert (Hdn : direct !! n = None).
  { destruct (direct !! n) as [p|] eqn:E; [|done].
    apply Hda in E as (_ & _ & E). congruence. }
  unfold policy_pass, inclusive_pass in Hpol. rewrite Hord in Hpol.
  destruct (foldM_cut _ _ _ _ _ _ Hpol) as (mp & mx & Hmp & Hstep & Hrest).
  assert (Hmpn : mp !! n = None).
  { rewrite <- Hdn.
    apply (foldM_other_keys _ (inclusive_step_own_key dag cs ns) _ _ _ _ Hmp
             Hnpre). }
  destruct (inclusive_pass_assigned dag cs ns _ _ _ Hmp q) as [vq' Hmq];
    [list_mem|done|].
  assert (Hneq : n ≠ q) by congruence.
  unfold inclusive_step in Hstep.
  rewrite (proj2 (skipped_false cs mp n)) in Hstep by done.
  assert (Hin : vq' ∈ parent_splits dag mp n).
  { apply parent_splits_elem. eauto. }
  destruct (parent_splits dag mp n) as [|p ps] eqn:Eps;
    [by apply elem_of_nil in Hin|].
  injection Hstep as <-.
  assert (H1n : na1 !! n = Some (py_max p ps)).
  { apply (foldM_keeps _ _ _ _ _ _ (fun a x a' => inclusive_step_keeps
             dag cs ns a a' x n (py_max p ps)) Hrest).
    by rewrite lookup_insert_eq. }
  assert (H1q : na1 !! q = Some vq').
  { apply (foldM_keeps _ _ _ _ _ _ (fun a x a' => inclusive_step_keeps
             dag cs ns a a' x q vq') Hrest).
    by rewrite lookup_insert_ne. }
  rewrite (constant_pass_other _ _ _ _ _ Hc) in Hvq
    by (by rewrite elem_of_elements).
  rewrite (constant_pass_other _ _ _ _ _ Hc) in Hvn
    by (by rewrite elem_of_elements).
  rewrite H1q in Hvq. rewrite H1n in Hvn. simpl in Hvq, Hvn.
  simplify_eq. by apply py_max_ge.
Qed.

Lemma inclusive_child_not_before_parent_witness :
  ∃ na, assign_nodes Chain.dag Chain.split_assignments true = Ok na
        ∧ na !! "C" = Some (Single 1)
        ∧ na !! "D" = Some (Single 1)
        ∧ 1 <= 1.
Proof.
  eexists. split; [vm_compute; reflexivity|].
  split; [vm_compute; reflexivity|].
  split; [vm_compute; reflexivity|].
  eapply (inclusive_child_not_before_parent Chain.dag Chain.split_assignments
            _ 1 "C" "D" 1 1);
    [reflexivity|reflexivity|vm_compute; reflexivity
    |apply list_elem_of_In; vm_compute; tauto|vm_compute; discriminate
    |apply list_elem_of_In; vm_compute; tauto
    |apply list_elem_of_In; vm_compute; tauto
    |reflexivity|vm_compute; reflexivity|vm_compute; reflexivity].
Defined.

(** ** Where the indices come from *)

(** The indices the policy passes hand out: those of the direct
    assignments, and 0 under the inclusive policy. *)
Lemma policy_pass_values (dag : OnnxDAG) (sa : split_map) (inc : bool)
    (direct : gmap string Z) (cs : gset string) (ns : gmap string (option Z))
    (na1 : gmap string Z) :
  well_formed dag = true ->
  prepare dag sa = Ok (direct, cs, ns) ->
  policy_pass dag inc cs ns direct (topological_sort dag) = Ok na1 ->
  ∀ n v, na1 !! n = Some v ->
         (inc = true ∧ v = 0) ∨ ∃ m, direct !! m = Some v.
Proof.
  intros Hwf Hpre Hpol.
  pose proof Hwf as (Hnd & _ & Hlater & Hcast)%well_formed_spec.
  pose proof (prepare_nonempty _ _ _ Hpre) as Hsa.
  destruct (prepare_total dag sa Hsa Hlater)
    as (depth & direct' & cs' & ns' & Hdepth & Hd & Hprep & Hseed & Hvis
        & Hval & _).
  rewrite Hpre in Hprep. injection Hprep as <- <- <-.
  pose proof (direct_pass_constants dag sa depth (topological_sort dag)) as Hcs.
  rewrite Hd in Hcs. simpl in Hcs.
  unfold policy_pass in Hpol. destruct inc.
  - destruct (inclusive_pass_total dag cs ns direct (topological_sort dag)
                Hvis Hval) as (na' & Hna' & _ & _ & Hvals & _).
    rewrite Hpol in Hna'. injection Hna' as <-.
    intros n v Hv. destruct (Hvals n v Hv); eauto.
  - destruct (exclusive_pass_total dag cs ns direct (topological_sort dag)
                Hvis Hval) as (na0 & Hna0 & Hinv0).
    rewrite Hna0 in Hpol. simpl in Hpol.
    destruct (cast_pass_total dag cs direct (topological_sort dag)
                (fun c Hc => proj2 (proj1 (Hcs c) Hc)) Hcast na0 Hinv0)
      as (na' & Hna' & _ & Hvals & _).
    rewrite Hpol in Hna'. injection Hna' as <-.
    intros n v Hv. right. eauto.
Qed.

(** X10. The pass invents no partition index: every index a node ends up
    with, the single one of an operator or one in the list of a replicated
    constant, is a value of the split assignment map, or, under the
    inclusive policy only, 0. *)
Theorem assigned_indices_come_from_the_map (dag : OnnxDAG) (sa : split_map)
    (inc : bool) (na : gmap string split_id) (n : string) (p : Z) :
  well_formed dag = true ->
  assign_nodes dag sa inc = Ok na ->
  na !! n = Some (Single p) ∨ (∃ ids, na !! n = Some (Multi ids) ∧ p ∈ ids) ->
  (inc = true ∧ p = 0) ∨ p ∈ map snd sa.
Proof.
  intros Hwf Hna Hn.
  destruct (assign_nodes_inv _ _ _ _ Hna)
    as (direct & cs & ns & na1 & Hpre & Hpol & Hc).
  pose proof (policy_pass_values _ _ _ _ _ _ _ Hwf Hpre Hpol) as Hvals.
  destruct (prepare_inv _ _ _ _ _ Hpre) as (depth & _ & Hdir & _).
  assert (Hmap : ∀ m v, direct !! m = Some v -> v ∈ map snd sa).
  { intros m v Hm.
    pose proof (proj1 (direct_pass_assigned dag sa depth
                         (topological_sort dag) m v)) as H.
    rewrite Hdir in H. destruct (H Hm) as (_ & _ & Hget).
    apply dict_get_elem in Hget.
    apply list_elem_of_In, in_map_iff. exists (namespace_of depth m, v).
    split; [done|]. by apply list_elem_of_In. }
  assert (Hfrom : ∃ c, na1 !! c = Some p).
  { destruct (assign_nodes_total dag sa inc Hwf (prepare_nonempty _ _ _ Hpre))
      as (depth' & direct' & cs' & ns' & na1' & na' & _ & Hpre' & Hpol' & Hna'
          & [Hout Hin] & _).
    rewrite Hpre in Hpre'. injection Hpre' as <- <- <-.
    rewrite Hpol in Hpol'. injection Hpol' as <-.
    rewrite Hna in Hna'. injection Hna' as <-.
    destruct (decide (n ∈ elements cs)) as [Hel|Hel].
    - specialize (Hin n Hel). unfold constant_resolved in Hin.
      destruct Hn as [Hn|(ids & Hn & Hp)]; rewrite Hn in Hin; [done|].
      destruct Hin as (_ & _ & Hl). apply Hl in Hp as (c & _ & Hc'). eauto.
    - specialize (Hout n Hel).
      destruct Hn as [Hn|(ids & Hn & Hp)]; rewrite Hn in Hout.
      + destruct (na1 !! n) as [v|] eqn:E; simpl in Hout; simplify_eq.
        eauto.
      + destruct (na1 !! n) as [v|] eqn:E; simpl in Hout; simplify_eq. }
  destruct Hfrom as (c & Hcp).
  destruct (Hvals c p Hcp) as [?|[m Hm]]; [by left|right; eauto].
Qed.

Lemma assigned_indices_come_from_the_map_witness :
  ∃ na, assign_nodes Replicated.dag Replicated.split_assignments false = Ok na
        ∧ na !! "K" = Some (Multi [0; 2])
        ∧ ((false = true ∧ 2 = 0)
           ∨ 2 ∈ map snd Replicated.split_assignments).
Proof.
  eexists. split; [vm_compute; reflexivity|].
  split; [vm_compute; reflexivity|].
  eapply (assigned_indices_come_from_the_map Replicated.dag
            Replicated.split_assignments false _ "K" 2);
    [reflexivity|vm_compute; reflexivity|].
  right. eexists. split; [vm_compute; reflexivity|].
  apply list_elem_of_In. vm_compute. tauto.
Defined.

(** ** What is present in a sub-graph *)

Lemma produced_elem (sd : SplitDag) (x : string) :
  x ∈ produced sd ↔ ∃ np, np ∈ sd_node sd ∧ x ∈ np_output np.
Proof.
  unfold produced. rewrite list_elem_of_In, in_concat. split.
  - intros (l & (np & <- & Hnp)%in_map_iff & Hx).
    exists np. by rewrite !list_elem_of_In.
  - intros (np & Hnp & Hx). exists (np_output np).
    rewrite in_map_iff, <- list_elem_of_In. split; [|done].
    exists np. by rewrite <- list_elem_of_In.
Qed.

Lemma is_io_true (sd : SplitDag) (x : string) :
  is_io sd x = true
  ↔ x ∈ sd_input sd ∨ x ∈ map proto_name (sd_initializer sd)
    ∨ x ∈ produced sd.
Proof.
  unfold is_io. rewrite !orb_true_iff, !bool_decide_eq_true. tauto.
Qed.

Lemma grows_refl (sd : SplitDag) : grows sd sd.
Proof. by intros x. Qed.

Lemma grows_trans (sd1 sd2 sd3 : SplitDag) :
  grows sd1 sd2 -> grows sd2 sd3 -> grows sd1 sd3.
Proof. intros H1 H2 x Hx. auto. Qed.

Lemma add_input_grows (p : proto) (sd : SplitDag) :
  grows sd (add_input p sd) ∧ is_io (add_input p sd) (proto_name p) = true.
Proof.
  unfold add_input. case_bool_decide as H; split.
  - apply grows_refl.
  - apply is_io_true. by left.
  - intros x. rewrite !is_io_true. unfold produced. simpl.
    rewrite elem_of_app. tauto.
  - apply is_io_true. left. simpl. rewrite elem_of_app. right. left.
Qed.

Lemma add_initializer_grows (p : proto) (sd : SplitDag) :
  grows sd (add_initializer p sd)
  ∧ is_io (add_initializer p sd) (proto_name p) = true.
Proof.
  unfold add_initializer. case_bool_decide as H; split.
  - apply grows_refl.
  - apply is_io_true. right. by left.
  - intros x. rewrite !is_io_true. unfold produced. simpl.
    rewrite map_app, elem_of_app. tauto.
  - apply is_io_true. right. left. simpl.
    rewrite map_app, elem_of_app. right. left.
Qed.

Lemma add_node_grows (np : NodeProto) (sd : SplitDag) :
  grows sd (add_node np sd).
Proof.
  intros x. rewrite !is_io_true, !produced_elem.
  assert (Hi : sd_input (add_node np sd) = sd_input sd)
    by (unfold add_node; by case_bool_decide).
  assert (Ht : sd_initializer (add_node np sd) = sd_initializer sd)
    by (unfold add_node; by case_bool_decide).
  rewrite Hi, Ht.
  intros [?|[?|(np' & Hnp' & Hx)]]; [by left|by right; left|].
  right. right. exists np'. split; [|done].
  apply add_node_elem. by left.
Qed.

Lemma make_output_io (o : string) (sd : SplitDag) (x : string) :
  is_io (make_output o sd) x = is_io sd x.
Proof. unfold make_output. by case_bool_decide. Qed.

Lemma add_value_info_io (p : proto) (b : bool) (sd : SplitDag) (x : string) :
  is_io (add_value_info p b sd) x = is_io sd x.
Proof. unfold add_value_info. by destruct (_ || _). Qed.

Section Presence.

Variable dag : OnnxDAG.
Variable na : gmap string split_id.

Lemma input_step_io (p : Z) (st st' : SplitDag * missing_map) (x : string) :
  input_step dag p st x = Ok st' ->
  grows st.1 st'.1
  ∧ (x ≠ "" -> (∀ q, q ∈ get_io_proto dag x -> proto_name q = x) ->
     is_io st'.1 x = true).
Proof.
  destruct st as [sd mv]. unfold input_step.
  destruct (String.eqb_spec x "") as [->|Hx].
  { intros [= <-]. split; [apply grows_refl|done]. }
  destruct (is_io sd x) eqn:Hio.
  { intros [= <-]. split; [apply grows_refl|done]. }
  destruct (is_input dag x || is_initializer dag x) eqn:Hfacet.
  - rewrite py_index_first, py_index_last.
    destruct (is_input dag x) eqn:Hi; simpl in Hfacet.
    + destruct (get_io_proto dag x) as [|first io] eqn:Eio; [done|]. simpl.
      intros H. split.
      * destruct (is_initializer dag x).
        -- destruct (last (first :: io)); simpl in H; [|done].
           injection H as <-. simpl.
           eapply grows_trans; [apply add_input_grows|].
           apply add_initializer_grows.
        -- injection H as <-. apply add_input_grows.
      * intros _ Hnames.
        assert (Hf : proto_name first = x) by (apply Hnames; left).
        assert (Hio1 : is_io (add_input first sd) x = true).
        { rewrite <- Hf. apply add_input_grows. }
        destruct (is_initializer dag x).
        -- destruct (last (first :: io)); simpl in H; [|done].
           injection H as <-. simpl. by apply add_initializer_grows.
        -- by injection H as <-.
    + rewrite Hfacet. simpl.
      destruct (last (get_io_proto dag x)) as [t|] eqn:El; simpl; [|done].
      intros [= <-]. simpl. split; [apply add_initializer_grows|].
      intros _ Hnames.
      assert (Ht : proto_name t = x).
      { apply Hnames. apply last_Some in El as (l' & ->).
        rewrite elem_of_app. right. left. }
      rewrite <- Ht. apply add_initializer_grows.
  - destruct (get_io_proto dag x) as [|first io] eqn:Eio.
    + intros [= <-]. simpl. split; [apply add_input_grows|].
      intros _ _.
      apply (add_input_grows (make_empty_tensor_value_info x) sd).
    + intros [= <-]. simpl. split; [apply add_input_grows|].
      intros _ Hnames.
      assert (Hf : proto_name first = x) by (apply Hnames; left).
      rewrite <- Hf. apply add_input_grows.
Qed.

Lemma inputs_io (p : Z) (l : list string) (st st' : SplitDag * missing_map) :
  foldM (input_step dag p) l st = Ok st' ->
  grows st.1 st'.1
  ∧ ∀ x, x ∈ l -> x ≠ "" ->
         (∀ q, q ∈ get_io_proto dag x -> proto_name q = x) ->
         is_io st'.1 x = true.
Proof.
  revert st; induction l as [|y l IH]; intros st; simpl.
  - intros [= <-]. split; [apply grows_refl|]. by intros x ?%elem_of_nil.
  - destruct (input_step dag p st y) as [st1|] eqn:E; [|done]. intros H.
    apply input_step_io in E as [Hg1 Hy].
    destruct (IH st1 H) as [Hg2 Hl]. split.
    + by apply grows_trans with st1.1.
    + intros x [->|Hx]%elem_of_cons Hne Hnames; [|by apply Hl].
      apply Hg2. by apply Hy.
Qed.

Lemma outputs_io (p : Z) (l : list string) (st : SplitDag * missing_map)
    (x : string) :
  is_io (fold_left (output_step dag na p) l st).1 x = is_io st.1 x.
Proof.
  revert st; induction l as [|o l IH]; intros st; simpl; [done|].
  rewrite IH. destruct st as [sd mv]. unfold output_step.
  destruct (String.eqb o ""); [done|].
  destruct (leaves_split dag na p o);
    destruct (get_io_proto dag o); simpl;
    by rewrite ?add_value_info_io, ?make_output_io.
Qed.

(** Lines 197-248 for one node, step by step. *)
Lemma materialize_single_shape (p : Z) (n : string)
    (st st' : list SplitDag * missing_map) :
  materialize_single dag na p n st = Ok st' ->
  ∃ j sd st1,
    py_norm (length st.1) p = Some j ∧ st.1 !! j = Some sd
    ∧ foldM (input_step dag p) (get_node_inputs dag n) (sd, st.2) = Ok st1
    ∧ let st3 := fold_left (output_step dag na p) (get_node_outputs dag n)
                   (add_node (get_node_proto dag n) st1.1, st1.2) in
      st' = (<[j := st3.1]> st.1, st3.2).
Proof.
  unfold materialize_single.
  intros (sd & (j & Hj & Hsd)%py_index_ok & (st1 & H1 & [= <-])%bind_ok)%bind_ok.
  exists j, sd, st1. split_and!; [done..|].
  simpl. unfold py_set. by rewrite Hj.
Qed.

Lemma replicate_grows (n : string) (ids : list Z)
    (sds sds' : list SplitDag) :
  foldM (replicate_step dag n) ids sds = Ok sds' ->
  length sds' = length sds
  ∧ ∀ i sd, sds !! i = Some sd ->
      ∃ sd', sds' !! i = Some sd' ∧ grows sd sd'.
Proof.
  apply (foldM_inv _
    (fun _ cur => length cur = length sds
                  ∧ ∀ i sd, sds !! i = Some sd ->
                      ∃ sd', cur !! i = Some sd' ∧ grows sd sd')).
  - split; [done|]. intros i sd Hi. exists sd. split; [done|apply grows_refl].
  - intros pre idx post cur cur' _ [Hlen Hcur]. unfold replicate_step.
    intros (sdj & (j & Hj & Hsdj)%py_index_ok & [= <-])%bind_ok.
    split; [by rewrite py_set_length|]. intros i sd Hi.
    destruct (Hcur i sd Hi) as (sd' & Hi' & Hg).
    rewrite (py_set_lookup _ _ _ j i Hj).
    destruct (decide (j = i)) as [->|Hne]; [|eauto].
    eexists; split; [done|]. simplify_eq.
    eapply grows_trans; [done|apply add_node_grows].
Qed.

(** A step of the loop only adds to what is present in a sub-graph. *)
Lemma materialize_step_grows (n : string)
    (st st' : list SplitDag * missing_map) :
  materialize_step dag na st n = Ok st' ->
  length st'.1 = length st.1
  ∧ ∀ i sd, st.1 !! i = Some sd ->
      ∃ sd', st'.1 !! i = Some sd' ∧ grows sd sd'.
Proof.
  unfold materialize_step. destruct (na !! n) as [[p|ids]|].
  - intros (j & sdj & st1 & Hj & Hsdj & Hin & ->)%materialize_single_shape.
    simpl. split; [by rewrite length_insert|]. intros i sd Hi.
    pose proof (py_norm_lt _ _ _ Hj) as Hlt.
    destruct (decide (j = i)) as [->|Hne].
    + rewrite list_lookup_insert_eq by done. eexists; split; [done|].
      simplify_eq. intros x Hx. rewrite outputs_io. simpl.
      apply add_node_grows.
      by apply (proj1 (inputs_io _ _ _ _ Hin)).
    + rewrite list_lookup_insert_ne by done. exists sd.
      split; [done|apply grows_refl].
  - intros (sds' & Hrep & [= <-])%bind_ok. simpl.
    by apply replicate_grows with n ids.
  - intros [= <-]. split; [done|]. intros i sd Hi. exists sd.
    split; [done|apply grows_refl].
Qed.

End Presence.

(** X11. No dangling input: once materialization is over, every non-empty
    input name of a node placed in a sub-graph is present in that
    sub-graph, as an input, as an initializer or as the output of one of
    its nodes. *)
Theorem subgraph_inputs_are_present (dag : OnnxDAG)
    (na : gmap string split_id) (n_splits : nat) (split_dags : list SplitDag)
    (missing_vi : missing_map) (n : string) (p : Z) (x : string) :
  protos_named dag = true ->
  materialize dag na n_splits = Ok (split_dags, missing_vi) ->
  n ∈ topological_sort dag ->
  na !! n = Some (Single p) ->
  x ∈ get_node_inputs dag n ->
  x ≠ "" ->
  ∃ sd, py_index split_dags p = Ok sd
        ∧ (x ∈ sd_input sd ∨ x ∈ map proto_name (sd_initializer sd)
           ∨ x ∈ produced sd).
Proof.
  intros Hnamed Hmat Hn Hp Hx Hne.
  assert (Hnames : ∀ m y q, m ∈ topological_sort dag ->
            y ∈ get_node_inputs dag m -> q ∈ get_io_proto dag y ->
            proto_name q = y).
  { intros m y q Hm Hy Hq. unfold protos_named in Hnamed.
    rewrite forallb_forall in Hnamed.
    apply list_elem_of_In, Hnamed in Hm. rewrite forallb_forall in Hm.
    apply list_elem_of_In, Hm in Hy. rewrite forallb_forall in Hy.
    apply list_elem_of_In, Hy in Hq. by apply String.eqb_eq. }
  unfold materialize in Hmat.
  apply (foldM_inv _
    (fun visited st =>
       length st.1 = n_splits
       ∧ ∀ m q, m ∈ visited -> na !! m = Some (Single q) ->
           ∃ i sd, py_norm n_splits q = Some i ∧ st.1 !! i = Some sd
                   ∧ ∀ y, y ∈ get_node_inputs dag m -> y ≠ "" ->
                          is_io sd y = true))
    in Hmat.
  - destruct Hmat as [Hlen Hall]. simpl in *.
    destruct (Hall n p Hn Hp) as (i & sd & Hi & Hsd & Hio).
    exists sd. split.
    + apply py_index_ok. exists i. by rewrite Hlen.
    + apply is_io_true. by apply Hio.
  - split; [simpl; by rewrite length_replicate|]. by intros m q ?%elem_of_nil.
  - intros pre n' post st st' Heq [Hlen HP] Hstep.
    destruct (materialize_step_grows _ _ _ _ _ Hstep) as [Hlen' Hgrow].
    split; [congruence|].
    intros m q [Hm| ->%list_elem_of_singleton]%elem_of_app Hq.
    + destruct (HP m q Hm Hq) as (i & sd & Hi & Hsd & Hio).
      destruct (Hgrow i sd Hsd) as (sd' & Hsd' & Hg).
      exists i, sd'. split_and!; [done..|]. intros y Hy Hy'.
      by apply Hg, Hio.
    + unfold materialize_step in Hstep. rewrite Hq in Hstep.
      apply materialize_single_shape in Hstep
        as (j & sdj & st1 & Hj & Hsdj & Hin & ->).
      pose proof (py_norm_lt _ _ _ Hj) as Hlt. rewrite Hlen in Hj.
      eexists j, _. simpl. split_and!; [done| |].
      * by apply list_lookup_insert_eq.
      * intros y Hy Hy'. rewrite outputs_io. simpl.
        apply add_node_grows.
        apply (proj2 (inputs_io _ _ _ _ _ Hin)); [done..|].
        intros q' Hq'. apply (Hnames n' y q'); [|done..].
        rewrite Heq. list_mem.
Qed.

Lemma subgraph_inputs_are_present_witness :
  let na : gmap string split_id :=
    list_to_map [("K", Multi [0; 2]); ("B", Single 0); ("M", Single 1);
                 ("C", Single 2)] in
  ∃ split_dags missing_vi,
    materialize Replicated.dag na 3 = Ok (split_dags, missing_vi)
    ∧ ∃ sd, py_index split_dags 2 = Ok sd
            ∧ ("k" ∈ sd_input sd ∨ "k" ∈ map proto_name (sd_initializer sd)
               ∨ "k" ∈ produced sd).
Proof.
  intros na. eexists _, _.
  split; [vm_compute; reflexivity|].
  eapply (subgraph_inputs_are_present Replicated.dag na 3 _ _ "C" 2 "k");
    [reflexivity|vm_compute; reflexivity
    |apply list_elem_of_In; vm_compute; tauto|vm_compute; reflexivity
    |apply list_elem_of_In; vm_compute; tauto|discriminate].
Defined.

(** ** The nodes of a sub-graph *)

Lemma add_node_cases (np : NodeProto) (sd : SplitDag) :
  sd_node (add_node np sd) = sd_node sd
  ∨ sd_node (add_node np sd) = sd_node sd ++ [np].
Proof. unfold add_node. case_bool_decide; [by left|by right]. Qed.

Section NodeOrder.

Variable dag : OnnxDAG.
Variable na : gmap string split_id.

(** A step of the loop leaves the node list of a sub-graph alone or puts
    the proto of its node at the end. *)
Lemma materialize_step_nodes (n : string)
    (st st' : list SplitDag * missing_map) :
  materialize_step dag na st n = Ok st' ->
  length st'.1 = length st.1
  ∧ ∀ i sd', st'.1 !! i = Some sd' ->
      ∃ sd, st.1 !! i = Some sd
            ∧ (sd_node sd' = sd_node sd
               ∨ sd_node sd' = sd_node sd ++ [get_node_proto dag n]).
Proof.
  unfold materialize_step. destruct (na !! n) as [[p|ids]|].
  - intros (j & sd & sd' & Hj & Hsd & Hst' & Hnodes & _)%materialize_single_spec.
    pose proof (py_norm_lt _ _ _ Hj) as Hlt.
    rewrite Hst'. split; [by rewrite length_insert|]. intros i sdi.
    destruct (decide (j = i)) as [<-|Hne].
    + rewrite list_lookup_insert_eq by done. intros [= <-].
      exists sd. split; [done|]. rewrite Hnodes. apply add_node_cases.
    + rewrite list_lookup_insert_ne by done. eauto.
  - intros (sds' & Hrep & [= <-])%bind_ok. simpl.
    apply replicate_spec in Hrep as [Hlen Hrep]. split; [done|].
    intros i sd' Hi.
    destruct (lookup_lt_is_Some_2 st.1 i) as [sd Hsd].
    { rewrite <- Hlen. by apply lookup_lt_Some with sd'. }
    destruct (Hrep i sd Hsd) as (sd'' & Hi' & _ & Hyes & Hno).
    rewrite Hi in Hi'. injection Hi' as <-.
    exists sd. split; [done|].
    destruct (decide (Exists (fun p => py_norm (length st.1) p = Some i) ids))
      as [Hex|Hnex]; rewrite Exists_exists in *.
    + rewrite (Hyes Hex). apply add_node_cases.
    + left. by apply Hno.
  - intros [= <-]. split; [done|]. eauto.
Qed.

End NodeOrder.

(** X12. Each sub-graph keeps the order of the main graph: the names of
    its nodes, in the order of its node list, form a subsequence of the
    topological order, so that no name occurs twice. *)
Theorem subgraph_nodes_follow_topological_order (dag : OnnxDAG)
    (na : gmap string split_id) (n_splits : nat) (split_dags : list SplitDag)
    (missing_vi : missing_map) (sd : SplitDag) :
  well_formed dag = true ->
  materialize dag na n_splits = Ok (split_dags, missing_vi) ->
  sd ∈ split_dags ->
  sublist (map np_name (sd_node sd)) (topological_sort dag)
  ∧ NoDup (map np_name (sd_node sd)).
Proof.
  intros (Hnd & Hnames & _)%well_formed_spec Hmat Hsd.
  assert (Hsub : sublist (map np_name (sd_node sd)) (topological_sort dag)).
  { apply list_elem_of_lookup in Hsd as [i Hi]. revert i sd Hi.
    change (∀ i sd, (split_dags, missing_vi).1 !! i = Some sd ->
              sublist (map np_name (sd_node sd)) (topological_sort dag)).
    revert Hmat. unfold materialize.
    apply (foldM_inv _
      (fun visited st => ∀ i sd, st.1 !! i = Some sd ->
         sublist (map np_name (sd_node sd)) visited)).
    - simpl. intros i sd [-> _]%lookup_replicate. simpl. constructor.
    - intros pre n post st st' Heq HP Hstep i sd' Hi.
      destruct (materialize_step_nodes _ _ _ _ _ Hstep) as [_ Hn].
      destruct (Hn i sd' Hi) as (sd0 & Hi0 & [-> | ->]).
      + apply sublist_inserts_r. eauto.
      + rewrite map_app. apply sublist_app; [eauto|]. simpl.
        rewrite Hnames by (rewrite Heq; list_mem). done. }
  split; [done|]. eapply sublist_NoDup; eauto.
Qed.

Lemma subgraph_nodes_follow_topological_order_witness :
  let na : gmap string split_id :=
    list_to_map [("K", Multi [0; 2]); ("B", Single 0); ("M", Single 1);
                 ("C", Single 2)] in
  ∃ sd0 sd1 sd2 missing_vi,
    materialize Replicated.dag na 3 = Ok ([sd0; sd1; sd2], missing_vi)
    ∧ map np_name (sd_node sd2) = ["K"; "C"]
    ∧ sublist (map np_name (sd_node sd2)) (topological_sort Replicated.dag)
    ∧ NoDup (map np_name (sd_node sd2)).
Proof.
  intros na. eexists _, _, _, _.
  split; [vm_compute; reflexivity|].
  split; [vm_compute; reflexivity|].
  eapply (subgraph_nodes_follow_topological_order Replicated.dag na 3);
    [reflexivity|vm_compute; reflexivity|].
  do 2 right. left.
Defined.

(** X13. The sub-graphs are disjoint on operators: a node with a single
    index is in the sub-graph of that index and in no other. *)
Theorem single_node_in_exactly_one_subgraph (dag : OnnxDAG)
    (na : gmap string split_id) (n_splits : nat) (split_dags : list SplitDag)
    (missing_vi : missing_map) (n : string) (p : Z) :
  well_formed dag = true ->
  materialize dag na n_splits = Ok (split_dags, missing_vi) ->
  n ∈ topological_sort dag ->
  na !! n = Some (Single p) ->
  ∃ j, py_norm n_splits p = Some j
       ∧ ∀ i sd, split_dags !! i = Some sd ->
           (n ∈ map np_name (sd_node sd) ↔ i = j).
Proof.
  intros (Hnd & Hnames & _)%well_formed_spec Hmat Hn Hp.
  destruct (materialize_index_ok dag na n_splits split_dags missing_vi
              Hmat n p Hn Hp) as [j Hj].
  exists j. split; [done|]. intros i sd Hi.
  destruct (materialize_spec dag na n_splits Hnames _ Hmat) as [_ Hall].
  destruct (Hall i sd Hi) as [Hnodes _].
  rewrite list_elem_of_fmap. split.
  - intros (np & Hname & (m & Hm & -> & Hpl)%Hnodes).
    rewrite (Hnames m Hm) in Hname. subst m.
    unfold placed in Hpl. rewrite Hp in Hpl. congruence.
  - intros ->. exists (get_node_proto dag n). split; [by rewrite Hnames|].
    apply Hnodes. exists n. split_and!; [done..|].
    unfold placed. by rewrite Hp.
Qed.

Lemma single_node_in_exactly_one_subgraph_witness :
  let na : gmap string split_id :=
    list_to_map [("A", Single 0); ("B", Single 0); ("C", Single (-1));
                 ("D", Single 1)] in
  ∃ split_dags missing_vi,
    materialize Chain.dag na 2 = Ok (split_dags, missing_vi)
    ∧ ∃ j, py_norm 2 (-1) = Some j
           ∧ ∀ i sd, split_dags !! i = Some sd ->
               ("C" ∈ map np_name (sd_node sd) ↔ i = j).
Proof.
  intros na. eexists _, _.
  split; [vm_compute; reflexivity|].
  eapply (single_node_in_exactly_one_subgraph Chain.dag na 2 _ _ "C" (-1));
    [reflexivity|vm_compute; reflexivity
    |apply list_elem_of_In; vm_compute; tauto|vm_compute; reflexivity].
Defined.

(** ** Which names are deferred to shape inference *)

Section DeferredOrigin.

Variable dag : OnnxDAG.
Variable na : gmap string split_id.

Lemma input_step_origin (p : Z) (st st' : SplitDag * missing_map)
    (x y : string) (q : Z) :
  input_step dag p st x = Ok st' ->
  (deferred st.2 y q -> deferred st'.2 y q)
  ∧ (deferred st'.2 y q ->
     deferred st.2 y q
     ∨ (y = x ∧ q = p ∧ x ≠ "" ∧ get_io_proto dag x = []
        ∧ is_input dag x = false ∧ is_initializer dag x = false)).
Proof.
  destruct st as [sd mv]. unfold input_step.
  destruct (String.eqb_spec x "") as [->|Hx]; [by intros [= <-]; auto|].
  destruct (is_io sd x); [by intros [= <-]; auto|].
  destruct (is_input dag x || is_initializer dag x) eqn:Hfacet.
  - intros (sd1 & _ & (sd2 & _ & [= <-])%bind_ok)%bind_ok. auto.
  - apply orb_false_iff in Hfacet as [Hi Ht].
    destruct (get_io_proto dag x) as [|first io]; intros [= <-]; simpl;
      [|auto].
    rewrite missing_append_deferred. split; [auto|].
    intros [?|[-> ->]]; [by left|by right].
Qed.

Lemma inputs_origin (p : Z) (l : list string)
    (st st' : SplitDag * missing_map) (y : string) (q : Z) :
  foldM (input_step dag p) l st = Ok st' ->
  (deferred st.2 y q -> deferred st'.2 y q)
  ∧ (deferred st'.2 y q ->
     deferred st.2 y q
     ∨ (y ∈ l ∧ q = p ∧ y ≠ "" ∧ get_io_proto dag y = []
        ∧ is_input dag y = false ∧ is_initializer dag y = false)).
Proof.
  revert st; induction l as [|x l IH]; intros st; simpl.
  - intros [= <-]. auto.
  - destruct (input_step dag p st x) as [st1|] eqn:E; [|done]. intros H.
    destruct (input_step_origin _ _ _ _ y q E) as [Hm1 Ho1].
    destruct (IH st1 H) as [Hm2 Ho2]. split; [auto|].
    intros [Hd|(Hy & ?)]%Ho2.
    + destruct (Ho1 Hd) as [?|(-> & ?)]; [by left|].
      right. split; [left|done].
    + right. split; [by right|done].
Qed.

Lemma output_step_origin (p : Z) (st : SplitDag * missing_map)
    (o y : string) (q : Z) :
  (deferred st.2 y q -> deferred (output_step dag na p st o).2 y q)
  ∧ (deferred (output_step dag na p st o).2 y q ->
     deferred st.2 y q
     ∨ (y = o ∧ q = p ∧ o ≠ "" ∧ get_io_proto dag o = []
        ∧ leaves_split dag na p o = true))
  ∧ (o ≠ "" -> get_io_proto dag o = [] -> leaves_split dag na p o = true ->
     deferred (output_step dag na p st o).2 o p).
Proof.
  destruct st as [sd mv]. unfold output_step.
  destruct (String.eqb_spec o "") as [->|Ho];
    [split_and!; [auto|auto|intros; congruence]|].
  destruct (get_io_proto dag o) as [|first io]; simpl;
    [|split_and!; [auto|auto|intros; congruence]].
  destruct (leaves_split dag na p o); simpl;
    [|split_and!; [auto|auto|intros; congruence]].
  rewrite !missing_append_deferred. split_and!; [auto| |auto].
  intros [?|[-> ->]]; [by left|by right].
Qed.

Lemma outputs_origin (p : Z) (l : list string)
    (st : SplitDag * missing_map) (y : string) (q : Z) :
  (deferred st.2 y q -> deferred (fold_left (output_step dag na p) l st).2 y q)
  ∧ (deferred (fold_left (output_step dag na p) l st).2 y q ->
     deferred st.2 y q
     ∨ (y ∈ l ∧ q = p ∧ y ≠ "" ∧ get_io_proto dag y = []
        ∧ leaves_split dag na p y = true))
  ∧ (y ∈ l -> q = p -> y ≠ "" -> get_io_proto dag y = [] ->
     leaves_split dag na p y = true ->
     deferred (fold_left (output_step dag na p) l st).2 y q).
Proof.
  revert st; induction l as [|o l IH]; intros st; simpl.
  - split_and!; [auto..|]. by intros ?%elem_of_nil.
  - destruct (IH (output_step dag na p st o)) as (Hm2 & Ho2 & Hc2).
    destruct (output_step_origin p st o y q) as (Hm1 & Ho1 & _).
    split_and!; [auto| |].
    + intros [Hd|(Hy & ?)]%Ho2.
      * destruct (Ho1 Hd) as [?|(-> & ?)]; [by left|].
        right. split; [left|done].
      * right. split; [by right|done].
    + intros [->|Hy]%elem_of_cons -> Hne Hio Hl; [|by apply Hc2].
      apply Hm2.
      by apply (proj2 (proj2 (output_step_origin p st o o p))).
Qed.

(** The deferred names once the nodes of [visited] have been handled. *)
Lemma materialize_step_origin (visited : list string) (n : string)
    (st st' : list SplitDag * missing_map) :
  deferred_origin dag na visited st.2 ->
  materialize_step dag na st n = Ok st' ->
  deferred_origin dag na (visited ++ [n]) st'.2.
Proof.
  intros [Honly Hall] Hstep.
  assert (Hkeep : ∀ mv', (∀ y q, deferred mv' y q -> deferred st.2 y q) ->
            (∀ y q, deferred st.2 y q -> deferred mv' y q) ->
            ¬ (∃ p, na !! n = Some (Single p)) ->
            deferred_origin dag na (visited ++ [n]) mv').
  { intros mv' H1 H2 Hnot. split.
    - intros y q Hd. destruct (Honly y q (H1 y q Hd)) as (? & ? & m & Hm & ?).
      split_and!; [done..|]. exists m. split; [list_mem|done].
    - intros m q o [Hm| ->%list_elem_of_singleton]%elem_of_app Hq;
        [|destruct Hnot; eauto].
      intros. apply H2. by apply (Hall m q o). }
  unfold materialize_step in Hstep. destruct (na !! n) as [[p|ids]|] eqn:En.
  - apply materialize_single_shape in Hstep
      as (j & sdj & st1 & Hj & Hsdj & Hin & ->). simpl. split.
    + intros y q Hd.
      destruct (outputs_origin p (get_node_outputs dag n)
                  (add_node (get_node_proto dag n) st1.1, st1.2) y q)
        as (_ & Ho & _).
      destruct (Ho Hd) as [Hd1|(Hy & -> & Hne & Hio & Hl)].
      * simpl in Hd1.
        destruct (inputs_origin _ _ _ _ y q Hin) as [_ Hi].
        destruct (Hi Hd1) as [Hd0|(Hy & -> & Hne & Hio & Hfi & Hft)].
        -- destruct (Honly y q Hd0) as (? & ? & m & Hm & ?).
           split_and!; [done..|]. exists m. split; [list_mem|done].
        -- split_and!; [done..|]. exists n.
           split_and!; [list_mem|done|]. by left.
      * split_and!; [done..|]. exists n.
        split_and!; [list_mem|done|]. by right.
    + intros m q o [Hm| ->%list_elem_of_singleton]%elem_of_app Hq Ho Hne Hio Hl.
      * apply (proj1 (outputs_origin p _ _ o q)). simpl.
        apply (proj1 (inputs_origin _ _ _ _ o q Hin)). simpl.
        by apply (Hall m q o).
      * assert (q = p) as -> by congruence.
        by apply (proj2 (proj2 (outputs_origin p _ _ o p))).
  - apply bind_ok in Hstep as (sds' & _ & [= <-]). simpl.
    apply Hkeep; [auto..|]. by intros [p ?].
  - injection Hstep as <-. apply Hkeep; [auto..|]. by intros [p ?].
Qed.

Lemma materialize_deferred_origin (n_splits : nat)
    (st : list SplitDag * missing_map) :
  materialize dag na n_splits = Ok st ->
  deferred_origin dag na (topological_sort dag) st.2.
Proof.
  unfold materialize.
  apply (foldM_inv _ (fun visited st => deferred_origin dag na visited st.2)).
  - split.
    + intros y q (ps & ?%elem_of_nil & _). done.
    + by intros m q o ?%elem_of_nil.
  - intros pre n post s s' _. apply materialize_step_origin.
Qed.

End DeferredOrigin.

(** X14. Shape inference is asked about a name for a sub-graph only when
    the main graph has no value-info for it, and for a reason: the name is
    an input of a node of that sub-graph that is neither a graph input nor
    an initializer, or an output of such a node that is read outside the
    sub-graph.  Conversely every non-empty output without value-info that
    is read outside its sub-graph is deferred. *)
Theorem deferred_names_lack_value_info (dag : OnnxDAG)
    (na : gmap string split_id) (n_splits : nat) (split_dags : list SplitDag)
    (missing_vi : missing_map) :
  materialize dag na n_splits = Ok (split_dags, missing_vi) ->
  (∀ y q, deferred missing_vi y q ->
     y ≠ "" ∧ get_io_proto dag y = []
     ∧ ∃ m, m ∈ topological_sort dag ∧ na !! m = Some (Single q)
            ∧ ((y ∈ get_node_inputs dag m ∧ is_input dag y = false
                ∧ is_initializer dag y = false)
               ∨ (y ∈ get_node_outputs dag m
                  ∧ leaves_split dag na q y = true)))
  ∧ (∀ m q o, m ∈ topological_sort dag -> na !! m = Some (Single q) ->
       o ∈ get_node_outputs dag m -> o ≠ "" -> get_io_proto dag o = [] ->
       leaves_split dag na q o = true -> deferred missing_vi o q).
Proof.
  intros Hmat. apply (materialize_deferred_origin dag na _ _ Hmat).
Qed.

Lemma deferred_names_lack_value_info_witness :
  let na : gmap string split_id :=
    list_to_map [("K", Multi [0; 2]); ("B", Single 0); ("M", Single 1);
                 ("C", Single 2)] in
  ∃ split_dags,
    materialize Replicated.dag na 3 = Ok (split_dags, [("m", [1; 2])])
    ∧ deferred [("m", [1; 2])] "m" 1
    ∧ get_io_proto Replicated.dag "m" = [].
Proof.
  intros na. eexists.
  assert (Hmat : materialize Replicated.dag na 3
                 = Ok (_, [("m", [1; 2])])) by (vm_compute; reflexivity).
  split; [exact Hmat|].
  destruct (deferred_names_lack_value_info Replicated.dag na 3 _ _ Hmat)
    as [Honly Hall].
  assert (Hd : deferred [("m", [1; 2])] "m" 1).
  { apply (Hall "M" 1 "m");
      [apply list_elem_of_In; vm_compute; tauto|vm_compute; reflexivity
      |apply list_elem_of_In; vm_compute; tauto|discriminate
      |reflexivity|reflexivity]. }
  split; [exact Hd|]. apply (Honly "m" 1 Hd).
Defined.

(** ** How materialization fails *)


Section MaterializeFails.

Variable dag : OnnxDAG.
Variable na : gmap string split_id.




End MaterializeFails.



(** ** What the run returns *)

Lemma split_name_inj (i j : nat) : split_name i = split_name j -> i = j.
Proof.
  unfold split_name. intros H.
  apply (inj (String.append "split_")) in H. by apply (inj pretty) in H.
Qed.

Lemma components_fst (sds : list SplitDag) :
  (components sds).*1 = map split_name (seq 0 (length sds)).
Proof.
  unfold components.
  assert (G : ∀ (g : nat -> string) (l : list SplitDag),
            (imap (fun i sd => (g i, sd)) l).*1 = map g (seq 0 (length l))).
  { intros g l. revert g. induction l as [|sd l IH]; intros g; simpl; [done|].
    f_equal. rewrite <- seq_shift, map_map. apply (IH (g ∘ S)). }
  apply (G split_name).
Qed.

Lemma split_names_nodup (n : nat) : NoDup (map split_name (seq 0 n)).
Proof.
  apply (NoDup_fmap_2_strong split_name).
  - intros i j _ _. apply split_name_inj.
  - apply NoDup_seq.
Qed.

Lemma same_structure_refl (sd : SplitDag) : same_structure sd sd.
Proof. done. Qed.

Lemma same_structure_value_info (sd sd' : SplitDag) (p : proto) (b : bool) :
  same_structure sd sd' -> same_structure sd (add_value_info p b sd').
Proof.
  intros (H1 & H2 & H3 & H4).
  destruct (add_value_info_keeps p b sd') as (K1 & K2 & K3 & K4).
  unfold same_structure. by rewrite K1, K2, K3, K4.
Qed.

(** The loop of lines 263-268 goes through [add_value_info] only. *)
Lemma resolve_structure (inferred : string -> list proto) (mv : missing_map)
    (sds sds' : list SplitDag) :
  foldM (resolve_step inferred) mv sds = Ok sds' ->
  Forall2 same_structure sds sds'.
Proof.
  apply (foldM_inv _ (fun _ cur => Forall2 same_structure sds cur)).
  - apply Forall_Forall2_diag, Forall_forall. intros; apply same_structure_refl.
  - intros pre [x ps] post cur cur' _ Hcur. unfold resolve_step. simpl.
    destruct (inferred x) as [|first rest]; [done|].
    apply (foldM_inv _ (fun _ c => Forall2 same_structure sds c)); [done|].
    intros pre' idx post' c c' _ Hc.
    intros (sd & (j & Hj & Hsd)%py_index_ok & [= <-])%bind_ok.
    unfold py_set. rewrite Hj.
    destruct (Forall2_lookup_r _ _ _ _ _ Hc Hsd) as (sd0 & Hsd0 & Hsame).
    rewrite <- (list_insert_id sds j sd0 Hsd0).
    apply Forall2_insert; [done|]. by apply same_structure_value_info.
Qed.

Section RunResult.

Variable ModelProto : Type.
Variable build_dag : ModelProto -> OnnxDAG.
Variable infer_shapes : ModelProto -> bool -> string -> list proto.

(** A run that ends normally returns the sub-graphs of the split phase,
    resolved. *)
Lemma run_ok_inv (model : ModelProto) (md : option split_map) (inc : bool)
    (out : list (string * SplitDag)) :
  (run ModelProto build_dag infer_shapes model md inc).2 = Ok out ->
  ∃ sa sds mv resolved,
    md = Some sa ∧ sa ≠ []
    ∧ split_graph ModelProto build_dag model sa inc = Ok (sds, mv)
    ∧ foldM (resolve_step (infer_shapes model true)) mv sds = Ok resolved
    ∧ out = components resolved
    ∧ serialized (run ModelProto build_dag infer_shapes model md inc).1
      = out.*1.
Proof.
  unfold run. destruct md as [[|kv sa]|]; [done| |done].
  destruct (split_graph ModelProto build_dag model (kv :: sa) inc)
    as [[sds mv]|] eqn:E; [|done].
  destruct mv as [|entry mv].
  - simpl. intros [= <-]. exists (kv :: sa), sds, [], sds.
    split_and!; try done. apply serialize_all_trace.
  - destruct (foldM (resolve_step (infer_shapes model true)) (entry :: mv) sds)
      as [resolved|] eqn:R; [|done].
    simpl. intros [= <-]. exists (kv :: sa), sds, (entry :: mv), resolved.
    split_and!; try done. apply serialize_all_trace.
Qed.

(** X16. A run that ends normally returns one component per split, named
    [split_0], [split_1], ... in order; the names are pairwise distinct,
    and they are the splits the run has serialized, in that order. *)
Theorem run_returns_named_splits (model : ModelProto) (sa : split_map)
    (inc : bool) (out : list (string * SplitDag)) :
  (run ModelProto build_dag infer_shapes model (Some sa) inc).2 = Ok out ->
  out.*1 = map split_name (seq 0 (num_splits sa))
  ∧ NoDup out.*1
  ∧ serialized (run ModelProto build_dag infer_shapes model (Some sa) inc).1
    = out.*1.
Proof.
  intros (sa' & sds & mv & resolved & [= <-] & Hsa & Hsplit & Hres & -> & Htr)
    %run_ok_inv.
  assert (Hlen : length resolved = num_splits sa).
  { pose proof (resolve_structure _ _ _ _ Hres) as Hsame.
    apply Forall2_length in Hsame. rewrite <- Hsame.
    unfold split_graph in Hsplit.
    apply bind_ok in Hsplit as (na & _ & Hmat).
    by destruct (materialize_deferred_valid _ _ _ _ Hmat). }
  rewrite components_fst, Hlen in *.
  split_and!; [done|apply split_names_nodup|done].
Qed.

(** X17. Backfilling the inferred value-info changes nothing else: the
    components a run returns have the nodes, inputs, outputs and
    initializers the sub-graphs had when materialization ended. *)
Theorem backfill_changes_value_info_only (model : ModelProto)
    (sa : split_map) (inc : bool) (split_dags : list SplitDag)
    (missing_vi : missing_map) (out : list (string * SplitDag)) :
  split_graph ModelProto build_dag model sa inc = Ok (split_dags, missing_vi) ->
  (run ModelProto build_dag infer_shapes model (Some sa) inc).2 = Ok out ->
  Forall2 same_structure split_dags out.*2.
Proof.
  intros Hsplit
    (sa' & sds & mv & resolved & [= <-] & Hsa & Hsplit' & Hres & -> & _)
    %run_ok_inv.
  rewrite Hsplit in Hsplit'. injection Hsplit' as <- <-.
  rewrite components_snd. apply (resolve_structure _ _ _ _ Hres).
Qed.

End RunResult.

Lemma run_returns_named_splits_witness :
  ∃ out,
    (run_graph [GraphModel.typed "m"] Replicated.graph
       (Some Replicated.split_assignments) true).2 = Ok out
    ∧ out.*1 = ["split_0"; "split_1"; "split_2"]
    ∧ NoDup out.*1.
Proof.
  eexists. split; [vm_compute; reflexivity|].
  edestruct (run_returns_named_splits GraphModel.Graph GraphModel.dag_of_graph
               (infer_from [GraphModel.typed "m"]) Replicated.graph
               Replicated.split_assignments true) as (H1 & H2 & _);
    [vm_compute; reflexivity|].
  split; [exact H1|exact H2].
Defined.

Lemma backfill_changes_value_info_only_witness :
  ∃ split_dags out,
    split_graph GraphModel.Graph GraphModel.dag_of_graph Replicated.graph
      Replicated.split_assignments true = Ok (split_dags, [("m", [1; 2])])
    ∧ (run_graph [GraphModel.typed "m"] Replicated.graph
         (Some Replicated.split_assignments) true).2 = Ok out
    ∧ Forall2 same_structure split_dags out.*2.
Proof.
  eexists _, _.
  split; [vm_compute; reflexivity|].
  split; [vm_compute; reflexivity|].
  eapply (backfill_changes_value_info_only GraphModel.Graph
            GraphModel.dag_of_graph (infer_from [GraphModel.typed "m"])
            Replicated.graph Replicated.split_assignments true);
    vm_compute; reflexivity.
Defined.

(** ** The pass as a whole *)

Lemma missing_append_nonempty (x : string) (p : Z) (mv : missing_map) :
  entries_nonempty mv -> entries_nonempty (missing_append x p mv).
Proof.
  unfold entries_nonempty. induction mv as [|[k ps] mv IH]; simpl; intros H y qs.
  - intros [= -> ->]%list_elem_of_singleton. done.
  - destruct (String.eqb k x).
    + intros [[= -> ->]|Hin]%elem_of_cons.
      * by destruct ps.
      * apply (H y qs). by right.
    + intros [[= -> ->]|Hin]%elem_of_cons.
      * apply (H k ps). left.
      * refine (IH _ y qs Hin).
        intros y' qs' Hin'. apply (H y' qs'). by right.
Qed.

Section MissingInvariant.

Variable dag : OnnxDAG.
Variable na : gmap string split_id.
Variable P : missing_map -> Prop.

Hypothesis P_append : ∀ x p mv, P mv -> P (missing_append x p mv).

Lemma input_step_missing (p : Z) (st st' : SplitDag * missing_map)
    (x : string) :
  input_step dag p st x = Ok st' -> P st.2 -> P st'.2.
Proof.
  destruct st as [sd mv]. unfold input_step.
  destruct (String.eqb x ""); [by intros [= <-]|].
  destruct (is_io sd x); [by intros [= <-]|].
  destruct (is_input dag x || is_initializer dag x).
  - by intros (sd1 & _ & (sd2 & _ & [= <-])%bind_ok)%bind_ok.
  - destruct (get_io_proto dag x); intros [= <-]; simpl; auto.
Qed.

Lemma inputs_missing (p : Z) (l : list string)
    (st st' : SplitDag * missing_map) :
  foldM (input_step dag p) l st = Ok st' -> P st.2 -> P st'.2.
Proof.
  revert st; induction l as [|x l IH]; intros st; simpl.
  - by intros [= <-].
  - destruct (input_step dag p st x) as [st1|] eqn:E; [|done].
    intros H HP. apply (IH st1 H). by apply (input_step_missing _ _ _ _ E).
Qed.

Lemma outputs_missing (p : Z) (l : list string)
    (st : SplitDag * missing_map) :
  P st.2 -> P (fold_left (output_step dag na p) l st).2.
Proof.
  revert st; induction l as [|o l IH]; intros st HP; simpl; [done|].
  apply IH. destruct st as [sd mv]. unfold output_step.
  destruct (String.eqb o ""); [done|].
  destruct (get_io_proto dag o); [|done].
  destruct (leaves_split dag na p o); simpl; auto.
Qed.

Lemma materialize_missing (n_splits : nat)
    (st : list SplitDag * missing_map) :
  P [] -> materialize dag na n_splits = Ok st -> P st.2.
Proof.
  intros H0. unfold materialize.
  apply (foldM_inv _ (fun _ st => P st.2)); [done|].
  intros pre n post s s' _ HP. unfold materialize_step.
  destruct (na !! n) as [[p|ids]|].
  - intros (j & sdj & st1 & _ & _ & Hin & ->)%materialize_single_shape.
    simpl. apply outputs_missing. simpl.
    by apply (inputs_missing _ _ _ _ Hin).
  - by intros (sds' & _ & [= <-])%bind_ok.
  - by intros [= <-].
Qed.

End MissingInvariant.

Section WholePass.

Variable ModelProto : Type.
Variable metadata_props : ModelProto -> list MetadataProp.
Variable py_int : string -> result Z.
Variable build_dag : ModelProto -> OnnxDAG.
Variable infer_shapes : ModelProto -> bool -> string -> list proto.

Lemma load_ok (props : list MetadataProp) (sa : split_map) :
  load_split_assignments py_int props = Ok sa ->
  find_split_assignments py_int props = Ok (Some sa) ∧ sa ≠ [].
Proof.
  unfold load_split_assignments.
  intros (found & -> & H)%bind_ok.
  destruct found as [[|kv d]|]; [done| |done]. by injection H as <-.
Qed.

Lemma run_ok (model : ModelProto) (sa : split_map) (inc : bool)
    (sds resolved : list SplitDag) (mv : missing_map) :
  sa ≠ [] ->
  split_graph ModelProto build_dag model sa inc = Ok (sds, mv) ->
  foldM (resolve_step (infer_shapes model true)) mv sds = Ok resolved ->
  (run ModelProto build_dag infer_shapes model (Some sa) inc).2
  = Ok (components resolved).
Proof.
  intros Hsa Hsplit Hres. unfold run.
  destruct sa as [|kv sa]; [done|]. rewrite Hsplit.
  destruct mv as [|entry mv].
  - simpl in Hres. by injection Hres as <-.
  - by rewrite Hres.
Qed.

(** X18. From the metadata to the result, under the inclusive policy: when
    the metadata parses to a map with indices in range, the graph is
    well-formed with a proto for every graph input and initializer it
    reads, and shape inference yields a named value-info for every name
    the main graph has none for, the pass ends normally with one component
    per split, and every node that is not a [Constant] is a node of
    exactly one of them. *)
Theorem inclusive_pass_places_every_operator (model : ModelProto)
    (sa : split_map) :
  let dag := build_dag model in
  load_split_assignments py_int (metadata_props model) = Ok sa ->
  well_formed dag = true ->
  indices_in_range sa = true ->
  protos_present dag = true ->
  (∀ x, get_io_proto dag x = [] ->
        infer_shapes model true x ≠ []
        ∧ Forall (fun q => proto_name q = x) (infer_shapes model true x)) ->
  ∃ out,
    (run_for_config ModelProto metadata_props py_int build_dag infer_shapes
       model true).2 = Ok out
    ∧ length out = num_splits sa
    ∧ ∀ n, n ∈ topological_sort dag -> get_node_op_type dag n ≠ "Constant" ->
        ∃ j, (j < num_splits sa)%nat
             ∧ ∀ i c, out !! i = Some c ->
                 (n ∈ map np_name (sd_node c.2) ↔ i = j).
Proof.
  intros dag [Hfind Hsa]%load_ok Hwf Hrange Hprotos Hinfer.
  pose proof Hwf as (Hnd & Hnames & _)%well_formed_spec.
  destruct (assign_nodes_total dag sa true Hwf Hsa)
    as (depth & direct & cs & ns & na1 & na & Hdir & Hpre & Hpol & Hna & _).
  pose proof (assign_nodes_in_range dag sa true na Hwf Hsa Hrange Hna) as Hin.
  destruct (materialize_total dag na (num_splits sa) Hin Hprotos)
    as ([sds mv] & Hmat).
  assert (Hsplit : split_graph ModelProto build_dag model sa true
                   = Ok (sds, mv)).
  { unfold split_graph. fold dag. rewrite Hna. done. }
  destruct (materialize_deferred_valid _ _ _ _ Hmat) as [Hlen Hvalid].
  simpl in Hlen, Hvalid.
  destruct (materialize_deferred_origin dag na _ _ Hmat) as [Honly _].
  simpl in Honly.
  assert (Hne : entries_nonempty mv).
  { apply (materialize_missing dag na entries_nonempty
             missing_append_nonempty _ _ (fun x ps (H : (x, ps) ∈ [])
               => False_ind _ (proj1 (elem_of_nil _) H)) Hmat). }
  assert (Hlack : ∀ x ps, (x, ps) ∈ mv -> get_io_proto dag x = []).
  { intros x ps Hx. pose proof (Hne x ps Hx) as Hps.
    destruct ps as [|p ps]; [done|].
    apply (Honly x p). exists (p :: ps). split; [done|left]. }
  destruct (resolve_all (infer_shapes model true) (num_splits sa) mv sds
              Hlen Hvalid) as [_ Hres].
  { unfold inferred_named. apply forallb_forall. intros [x ps] Hx%list_elem_of_In.
    simpl. apply forallb_forall. intros q Hq%list_elem_of_In.
    destruct (Hinfer x (Hlack x ps Hx)) as [_ Hall].
    rewrite Forall_forall in Hall. apply String.eqb_eq. by apply Hall. }
  destruct Hres as (resolved & Hres & Hlen' & _).
  { intros x ps Hx. by apply Hinfer, (Hlack x ps). }
  exists (components resolved). split_and!.
  - unfold run_for_config. rewrite Hfind.
    by apply run_ok with sds mv.
  - unfold components. by rewrite length_imap.
  - intros n Hn Hop.
    assert (Hncs : n ∉ elements cs).
    { rewrite elem_of_elements. intros Hc.
      pose proof (proj1 (direct_pass_constants dag sa depth
                           (topological_sort dag) n)) as H.
      rewrite Hdir in H. destruct (H Hc) as [_ Hc'].
      apply is_constant_node_false in Hop. congruence. }
    destruct (assign_nodes_inv _ _ _ _ Hna)
      as (direct' & cs' & ns' & na1' & Hpre' & Hpol' & Hconst).
    rewrite Hpre in Hpre'. injection Hpre' as <- <- <-.
    destruct (inclusive_pass_assigned dag cs ns _ _ _ Hpol' n Hn) as [p Hp].
    { by rewrite <- elem_of_elements. }
    assert (Hnp : na !! n = Some (Single p)).
    { rewrite (constant_pass_other _ _ _ _ _ Hconst Hncs), Hp. done. }
    destruct (materialize_index_ok dag na (num_splits sa) sds mv Hmat n p
                Hn Hnp) as [j Hj].
    exists j. split; [by apply py_norm_lt with p|].
    intros i c Hc.
    assert (Hres_i : resolved !! i = Some c.2).
    { rewrite <- (components_snd resolved), list_lookup_fmap, Hc. done. }
    pose proof (resolve_structure _ _ _ _ Hres) as Hsame.
    destruct (Forall2_lookup_r _ _ _ _ _ Hsame Hres_i)
      as (sd & Hsd & (Hnodes & _)).
    rewrite Hnodes.
    destruct (materialize_spec dag na (num_splits sa) Hnames _ Hmat)
      as [_ Hall].
    destruct (Hall i sd Hsd) as [Hchar _].
    rewrite list_elem_of_fmap. split.
    + intros (np & Hname & (m & Hm & -> & Hpl)%Hchar).
      rewrite (Hnames m Hm) in Hname. subst m.
      unfold placed in Hpl. rewrite Hnp in Hpl. congruence.
    + intros ->. exists (get_node_proto dag n). split; [by rewrite Hnames|].
      apply Hchar. exists n. split_and!; [done..|].
      unfold placed. by rewrite Hnp.
Qed.

End WholePass.

Lemma inclusive_pass_places_every_operator_witness :
  ∃ out,
    (run_for_config WithMetadata.ModelProto WithMetadata.metadata_props
       int_of_decimal WithMetadata.build_dag WithMetadata.infer_all
       WithMetadata.replicated true).2 = Ok out
    ∧ length out = num_splits Replicated.split_assignments
    ∧ ∀ n, n ∈ topological_sort Replicated.dag ->
        get_node_op_type Replicated.dag n ≠ "Constant" ->
        ∃ j, (j < num_splits Replicated.split_assignments)%nat
             ∧ ∀ i c, out !! i = Some c ->
                 (n ∈ map np_name (sd_node c.2) ↔ i = j).
Proof.
  apply (inclusive_pass_places_every_operator WithMetadata.ModelProto
           WithMetadata.metadata_props int_of_decimal WithMetadata.build_dag
           WithMetadata.infer_all WithMetadata.replicated
           Replicated.split_assignments);
    [vm_compute; reflexivity|vm_compute; reflexivity|vm_compute; reflexivity
    |vm_compute; reflexivity|].
  intros x _. split; [discriminate|]. repeat constructor.
Defined.

(** ** The number of splits *)

(** X19. When the indices of the map lie in [0, num_splits), none of them
    is left out: every index below [num_splits] is the value of some key,
    so that a gap in the indices always comes with an index out of
    range. *)
Theorem in_range_indices_use_every_split (sa : split_map) (i : Z) :
  indices_in_range sa = true ->
  0 <= i < Z.of_nat (num_splits sa) ->
  i ∈ map snd sa.
Proof.
  intros Hrange Hi.
  assert (Hsub : remove_dups (map snd sa)
                 ⊆+ seqZ 0 (Z.of_nat (num_splits sa))).
  { apply NoDup_submseteq; [apply NoDup_remove_dups|].
    intros x Hx. apply (proj1 (elem_of_remove_dups _ _)) in Hx.
    apply elem_of_seqZ.
    apply list_elem_of_In, in_map_iff in Hx as ([k v] & <- & Hkv).
    unfold indices_in_range in Hrange. rewrite forallb_forall in Hrange.
    apply Hrange in Hkv. simpl in *. lia. }
  apply submseteq_length_Permutation in Hsub.
  - apply elem_of_remove_dups. rewrite Hsub. apply elem_of_seqZ. lia.
  - rewrite length_seqZ. unfold num_splits. lia.
Qed.

Lemma in_range_indices_use_every_split_witness :
  num_splits Replicated.split_assignments = 3%nat
  ∧ 1 ∈ map snd Replicated.split_assignments.
Proof.
  split; [reflexivity|].
  apply (in_range_indices_use_every_split Replicated.split_assignments 1);
    [reflexivity|vm_compute; split; [discriminate|reflexivity]].
Defined.
